(** * weighted-neighbors: kriging module, surface generator and game

    A shallow embedding of [src/utils/kriging.ts] (the spherical variogram,
    the empirical semivariogram, the heuristic parameter fit, ordinary kriging
    with its Gaussian elimination and inverse-distance fallback, the predicted
    surface and the surface statistics), of [utils/surfaceGenerator] (noise,
    octaves and normalisation) and of the state functions of [src/App.tsx]
    (new game, click, slider, prediction effect, colour map).

    Numbers.  The code is read in two arithmetics.

    Exact.  A JavaScript [number] is idealised as a real number: no
    rounding, no overflow, and the inputs of every function are finite.
    This reading is faithful to the code wherever the code only compares,
    counts, branches, copies values or reads arrays, and that is what the
    properties of the code stated over it rest on.  Identities and
    inequalities that need the arithmetic itself to be exact (order
    independence of a sum, the uniqueness of the solution of a system,
    monotonicity of a cubic) are marked [In exact arithmetic]: they hold of
    the formulas, and of the code only up to rounding.

    Double.  Module [Double] gives the kriging core bit for bit in binary64,
    with the operations the language performs; it decides what rounding does
    to the statements above.

    Under the exact reading the only ways the code can leave the reals are a
    division by zero and a read outside an array, so every division of the
    source is listed here with the guard that protects it:
      - [sphericalVariogram]: [distance / range], reached only when
        [distance <> 0] and [distance < range]; with [range = 0] that needs a
        negative distance, which no caller in the module passes; the
        real-valued [sphericalVariogram] says nothing there and
        [sphericalVariogram_completion] gives the outcome;
      - [calculateSemivariogram]: [_ / binSize], unguarded, and
        [bin.sum / bin.count] behind [filter (count > 0)];
      - [gaussianElimination]: both divisions by the pivot come after the
        test [Math.abs(pivot) < 1e-10];
      - [inverseDistanceWeighting]: [1 / (distance * distance)] after
        [distance < 0.001] returned, [weightedSum / totalWeight] behind
        [totalWeight > 0];
      - [calculateRMSE]: [_ / count] behind [count > 0];
      - [calculateStdDev]: [sum / count] and [sumSquared / count], unguarded;
      - [generateSurface]: [value / maxValue], with [maxValue = 1.875];
      - [normalizeSurface]: [_ / range], unguarded;
      - the prediction effect: [rmse / targetRmse], unguarded.
    Where a division is unguarded the model says what JavaScript does with a
    zero divisor instead of using the value of [Rdiv].  Optional arguments
    ([binSize = 5], [step = 1]) are passed explicitly. *)

From Stdlib Require Import Floats.
From Stdlib Require Import Reals Lra Lia List ZArith Bool Arith.
From Stdlib Require Import Permutation Sorted.
Import ListNotations.

Open Scope R_scope.
#[global] Set Warnings "-inexact-float".

(** ** Comparisons and rounding of the source *)

Definition Req_b (a b : R) : bool := if Req_dec_T a b then true else false.
Definition Rlt_b (a b : R) : bool := if Rlt_dec a b then true else false.
Definition Rle_b (a b : R) : bool := if Rle_dec a b then true else false.

(** [Math.floor] and [Math.ceil], as integers. *)
Definition Math_floor (r : R) : Z := Int_part r.
Definition Math_ceil (r : R) : Z := (- Int_part (- r))%Z.

(** ** Arrays *)

(** [l[i] = v]; the module only assigns inside the array. *)
Fixpoint set_nth {A : Type} (i : nat) (v : A) (l : list A) : list A :=
  match l, i with
  | [], _ => []
  | _ :: l', O => v :: l'
  | a :: l', S i' => a :: set_nth i' v l'
  end.

(** [[l[i], l[j]] = [l[j], l[i]]]. *)
Definition swap {A : Type} (d : A) (i j : nat) (l : list A) : list A :=
  set_nth j (nth i l d) (set_nth i (nth j l d) l).

(** [l.map((a, k) => f k a)], counting from [k]. *)
Fixpoint mapi_from {A B : Type} (f : nat -> A -> B) (k : nat) (l : list A)
  : list B :=
  match l with
  | [] => []
  | a :: l' => f k a :: mapi_from f (S k) l'
  end.

(** ** Data model *)

Record Sample : Type := mkSample { s_x : R; s_y : R; s_z : R }.

Record VariogramParams : Type :=
  mkParams { nugget : R; sill : R; range : R }.

(** The invariant the data model asks of a [VariogramParams]. *)
Definition valid_params (p : VariogramParams) : Prop :=
  0 <= nugget p /\ nugget p <= sill p /\ 0 < range p.

Record EmpiricalPoint : Type :=
  mkPoint { distance : R; semivariance : R }.

Record Bin : Type :=
  mkBin { bin_distance : R; bin_count : nat; bin_sum : R }.

(** Outcome of a JavaScript call: a value, an exception, or no outcome. *)
Inductive JsError : Type := TypeError | InvalidArgument.

Inductive completion (A : Type) : Type :=
| Returns (a : A)
| Throws (e : JsError)
| Diverges.
Arguments Returns {A} a.
Arguments Throws {A} e.
Arguments Diverges {A}.

(** A result that may have left the reals through [0 / 0]. *)
Inductive number : Type := Fin (r : R) | NaN.

(** [Math.sqrt(dx * dx + dy * dy)] between two locations. *)
Definition euclid (x1 y1 x2 y2 : R) : R :=
  let dx := x1 - x2 in
  let dy := y1 - y2 in
  sqrt (dx * dx + dy * dy).

Definition location (s : Sample) : R * R := (s_x s, s_y s).

(** The data-model invariant of a session: no two samples share a location. *)
Definition distinct_locations (samples : list Sample) : Prop :=
  NoDup (map location samples).

(** ** [sphericalVariogram] *)

Definition sphericalVariogram (dist : R) (params : VariogramParams) : R :=
  let c := sill params - nugget params in
  if Req_b dist 0 then 0
  else if Rle_b (range params) dist then sill params
  else
    let h_a := dist / range params in
    nugget params + c * (1.5 * h_a - 0.5 * h_a ^ 3).

(** The same call with the outcomes the real-valued function cannot show:
    the source has no [throw], and its division meets a zero divisor only
    past both guards, where [h_a] is infinite and [1.5*h_a - 0.5*h_a^3] is
    [Infinity - Infinity]. *)
Definition sphericalVariogram_completion (dist : R) (params : VariogramParams)
  : completion number :=
  if Req_b dist 0 then Returns (Fin 0)
  else if Rle_b (range params) dist then Returns (Fin (sill params))
  else if Req_b (range params) 0 then Returns NaN
  else
    let c := sill params - nugget params in
    let h_a := dist / range params in
    Returns (Fin (nugget params + c * (1.5 * h_a - 0.5 * h_a ^ 3))).

(** What the error-handling design asks of a call with [range <= 0]:
    an invalid-argument signal. *)
Definition fails_fast {A : Type} (c : completion A) : Prop :=
  c = Throws InvalidArgument.

(** ** [calculateSemivariogram] *)

(** One pair of the double loop [i < j]. *)
Definition pairOf (si sj : Sample) : EmpiricalPoint :=
  mkPoint (euclid (s_x si) (s_y si) (s_x sj) (s_y sj))
          (0.5 * (s_z si - s_z sj) ^ 2).

(** The pairs in the order the loops push them. *)
Fixpoint allPairs (samples : list Sample) : list EmpiricalPoint :=
  match samples with
  | [] => []
  | si :: rest => map (pairOf si) rest ++ allPairs rest
  end.

(** [for (i = 0; i <= Math.ceil(maxDistance / binSize); i++) bins.push(..)] *)
Definition makeBins (maxDistance binSize : R) : list Bin :=
  map (fun i => mkBin ((INR i + 0.5) * binSize) 0 0)
      (seq 0 (Z.to_nat (Math_ceil (maxDistance / binSize) + 1))).

Definition addToBin (sv : R) (b : Bin) : Bin :=
  mkBin (bin_distance b) (S (bin_count b)) (bin_sum b + sv).

Definition bumpBin (k : nat) (sv : R) (bins : list Bin) : list Bin :=
  mapi_from (fun i b => if (i =? k)%nat then addToBin sv b else b) 0 bins.

(** The loop over the pairs.  [bins[binIndex]] with a negative index is
    [undefined], and [undefined.count++] is a [TypeError]. *)
Fixpoint assignPairs (binSize : R) (pairs : list EmpiricalPoint)
  (bins : list Bin) : completion (list Bin) :=
  match pairs with
  | [] => Returns bins
  | pr :: rest =>
      let binIndex := Math_floor (distance pr / binSize) in
      if (binIndex <? Z.of_nat (length bins))%Z then
        if (binIndex <? 0)%Z then Throws TypeError
        else assignPairs binSize rest
               (bumpBin (Z.to_nat binIndex) (semivariance pr) bins)
      else assignPairs binSize rest bins
  end.

Definition binPoint (bin : Bin) : EmpiricalPoint :=
  mkPoint (bin_distance bin) (bin_sum bin / INR (bin_count bin)).

Definition populated (bin : Bin) : bool := (0 <? bin_count bin)%nat.

(** The bins after the assignment loop, before [filter] and [map].  With
    [binSize = 0] the quotient [maxDistance / binSize] is [NaN] for
    [maxDistance = 0] (the loop test [0 <= NaN] fails, no bin is made and
    every [binIndex] is [NaN]) and [Infinity] otherwise (the loop test
    [i <= Infinity] never fails). *)
Definition semivariogramBins (samples : list Sample) (binSize : R)
  : completion (list Bin) :=
  if (length samples <? 2)%nat then Returns []
  else
    match allPairs samples with
    | [] => Returns []
    | p :: ps =>
        let maxDistance := fold_left Rmax (map distance ps) (distance p) in
        if Req_b binSize 0 then
          if Req_b maxDistance 0 then Returns [] else Diverges
        else assignPairs binSize (p :: ps) (makeBins maxDistance binSize)
    end.

Definition calculateSemivariogram (samples : list Sample) (binSize : R)
  : completion (list EmpiricalPoint) :=
  match semivariogramBins samples binSize with
  | Returns bins => Returns (map binPoint (filter populated bins))
  | Throws e => Throws e
  | Diverges => Diverges
  end.

(** ** [fitVariogramParams] *)

Definition fitVariogramParams (empirical : list EmpiricalPoint)
  : VariogramParams :=
  match empirical with
  | [] => mkParams 0 1 10
  | e :: es =>
      let nugget :=
        fold_left Rmin (map semivariance es) (semivariance e) * 0.1 in
      let sill :=
        fold_left Rmax (map semivariance es) (semivariance e) * 1.1 in
      let maxDistance := fold_left Rmax (map distance es) (distance e) in
      let range := maxDistance * 0.5 in
      mkParams nugget sill range
  end.

(** ** [gaussianElimination]

    Private to the module and called on the square kriging system only;
    an entry outside the matrix reads as [0] here. *)

Definition entry (matrix : list (list R)) (k j : nat) : R :=
  nth j (nth k matrix []) 0.

(** The pivot search [for (k = i + 1; k < n; k++)] over [ks]. *)
Fixpoint findPivot (matrix : list (list R)) (i maxRow : nat) (ks : list nat)
  : nat :=
  match ks with
  | [] => maxRow
  | k :: ks' =>
      if Rlt_b (Rabs (entry matrix maxRow i)) (Rabs (entry matrix k i))
      then findPivot matrix i k ks'
      else findPivot matrix i maxRow ks'
  end.

(** [for (j = i; j < n; j++) row[j] -= factor * pivotRow[j]] *)
Definition eliminateRow (n i : nat) (factor : R) (pivotRow row : list R)
  : list R :=
  mapi_from
    (fun j v =>
       if ((i <=? j) && (j <? n))%nat then v - factor * nth j pivotRow 0
       else v)
    0 row.

(** One pass of the outer loop at column [i]; [None] is [return null]. *)
Definition eliminateColumn (n i : nat) (matrix : list (list R)) (rhs : list R)
  : option (list (list R) * list R) :=
  let maxRow := findPivot matrix i i (seq (S i) (n - S i)) in
  let matrix1 := swap [] i maxRow matrix in
  let rhs1 := swap 0 i maxRow rhs in
  if Rlt_b (Rabs (entry matrix1 i i)) 1e-10 then None
  else
    let pivotRow := nth i matrix1 [] in
    let factor := fun k => entry matrix1 k i / entry matrix1 i i in
    Some
      (mapi_from
         (fun k row =>
            if ((i <? k) && (k <? n))%nat
            then eliminateRow n i (factor k) pivotRow row else row)
         0 matrix1,
       mapi_from
         (fun k v =>
            if ((i <? k) && (k <? n))%nat
            then v - factor k * nth i rhs1 0 else v)
         0 rhs1).

Fixpoint forwardElimination (n : nat) (cols : list nat)
  (matrix : list (list R)) (rhs : list R) : option (list (list R) * list R) :=
  match cols with
  | [] => Some (matrix, rhs)
  | i :: cols' =>
      match eliminateColumn n i matrix rhs with
      | None => None
      | Some (matrix', rhs') => forwardElimination n cols' matrix' rhs'
      end
  end.

(** [solution[i]] from the entries already solved. *)
Definition backStep (n : nat) (matrix : list (list R)) (rhs : list R)
  (solution : list R) (i : nat) : list R :=
  let s :=
    fold_left (fun s j => s - entry matrix i j * nth j solution 0)
              (seq (S i) (n - S i)) (nth i rhs 0) in
  set_nth i (s / entry matrix i i) solution.

Definition backSubstitution (n : nat) (matrix : list (list R)) (rhs : list R)
  : list R :=
  fold_left (backStep n matrix rhs) (rev (seq 0 n)) (repeat 0 n).

Definition gaussianElimination (A : list (list R)) (b : list R)
  : option (list R) :=
  let n := length A in
  match forwardElimination n (seq 0 n) A b with
  | None => None
  | Some (matrix, rhs) => Some (backSubstitution n matrix rhs)
  end.

(** ** [inverseDistanceWeighting] *)

Fixpoint idwLoop (x y : R) (samples : list Sample)
  (totalWeight weightedSum : R) : R :=
  match samples with
  | [] => if Rlt_b 0 totalWeight then weightedSum / totalWeight else 0
  | sample :: rest =>
      let dist := euclid x y (s_x sample) (s_y sample) in
      if Rlt_b dist 0.001 then s_z sample
      else
        let weight := 1 / (dist * dist) in
        idwLoop x y rest (totalWeight + weight)
                (weightedSum + weight * s_z sample)
  end.

Definition inverseDistanceWeighting (x y : R) (samples : list Sample) : R :=
  idwLoop x y samples 0 0.

(** ** [krigePoint] *)

Definition atLocation (x y : R) (sample : Sample) : bool :=
  Req_b (s_x sample) x && Req_b (s_y sample) y.

(** Row [i] of the system: semivariances to every sample, [0] on the
    diagonal, and the Lagrange column. *)
Definition krigingRow (samples : list Sample) (params : VariogramParams)
  (i : nat) (si : Sample) : list R :=
  mapi_from
    (fun j sj =>
       if (i =? j)%nat then 0
       else sphericalVariogram
              (euclid (s_x si) (s_y si) (s_x sj) (s_y sj)) params)
    0 samples
  ++ [1].

Definition krigingMatrix (samples : list Sample) (params : VariogramParams)
  : list (list R) :=
  mapi_from (krigingRow samples params) 0 samples
  ++ [repeat 1 (length samples) ++ [0]].

Definition krigingRhs (x y : R) (samples : list Sample)
  (params : VariogramParams) : list R :=
  map (fun si => sphericalVariogram (euclid x y (s_x si) (s_y si)) params)
      samples
  ++ [1].

(** [for (i = 0; i < n; i++) prediction += weights[i] * samples[i].z] *)
Definition predictionOf (samples : list Sample) (weights : list R) : R :=
  fold_left
    (fun prediction i =>
       prediction + nth i weights 0 * s_z (nth i samples (mkSample 0 0 0)))
    (seq 0 (length samples)) 0.

Definition krigePoint (x y : R) (samples : list Sample)
  (params : VariogramParams) : R :=
  match samples with
  | [] => 0
  | _ :: _ =>
      match find (atLocation x y) samples with
      | Some sample => s_z sample
      | None =>
          match gaussianElimination (krigingMatrix samples params)
                                    (krigingRhs x y samples params) with
          | None => inverseDistanceWeighting x y samples
          | Some weights => predictionOf samples weights
          end
      end
  end.

(** ** [calculateStdDev] *)

(** The accumulators [sum], [sumSquared], [count] after the two loops. *)
Definition surfaceSums (surface : list (list R)) : R * R * nat :=
  fold_left
    (fun acc row =>
       fold_left
         (fun '(sum, sumSquared, count) value =>
            (sum + value, sumSquared + value * value, S count))
         row acc)
    surface (0, 0, O).

(** With [count = 0] the mean is [0 / 0]; [NaN] then passes through the
    subtraction, [Math.max] and [Math.sqrt]. *)
Definition calculateStdDev (surface : list (list R)) : number :=
  let '(sum, sumSquared, count) := surfaceSums surface in
  match count with
  | O => NaN
  | S _ =>
      let mean := sum / INR count in
      let variance := sumSquared / INR count - mean * mean in
      Fin (sqrt (Rmax variance 0))
  end.

(** ** Reading the bins *)

Definition defaultBin : Bin := mkBin 0 0 0.

(** The pairs that [Math.floor(distance / binSize)] sends to bin [k]. *)
Definition pairsIn (binSize : R) (k : nat) (pairs : list EmpiricalPoint)
  : list EmpiricalPoint :=
  filter (fun pr => (Math_floor (distance pr / binSize) =? Z.of_nat k)%Z)
         pairs.

(** The mean of the contributions [0.5 * (zi - zj)^2] of a list of pairs. *)
Definition meanSemivariance (pairs : list EmpiricalPoint) : R :=
  fold_left Rplus (map semivariance pairs) 0 / INR (length pairs).

(** ** [calculateRMSE] *)

(** Arithmetic in which [NaN] is sticky. *)
Definition number_lift (f : R -> R -> R) (a b : number) : number :=
  match a, b with
  | Fin u, Fin v => Fin (f u v)
  | _, _ => NaN
  end.

(** [surface[y][x]] as an operand, for a row [y] that exists: past the end of
    the row the read gives [undefined], which arithmetic turns into [NaN]. *)
Definition cellAt (surface : list (list R)) (y x : nat) : number :=
  match nth_error (nth y surface []) x with
  | Some value => Fin value
  | None => NaN
  end.

(** [error * error] at one cell. *)
Definition squaredError (true_surface predicted_surface : list (list R))
  (y x : nat) : number :=
  let error :=
    number_lift Rminus (cellAt true_surface y x)
                (cellAt predicted_surface y x) in
  number_lift Rmult error error.

(** [minHeight] and [minWidth]; [surface[0]?.length ?? 0] is the length of
    the first row, 0 without one. *)
Definition overlapHeight (true_surface predicted_surface : list (list R))
  : nat :=
  Nat.min (length true_surface) (length predicted_surface).

Definition overlapWidth (true_surface predicted_surface : list (list R))
  : nat :=
  Nat.min (length (hd [] true_surface)) (length (hd [] predicted_surface)).

(** The sum of squares is not negative, so [Math.sqrt] is the real square
    root here. *)
Definition calculateRMSE (true_surface predicted_surface : list (list R))
  : number :=
  let minHeight := overlapHeight true_surface predicted_surface in
  let minWidth := overlapWidth true_surface predicted_surface in
  let '(sumSquaredError, count) :=
    fold_left
      (fun acc y =>
         fold_left
           (fun '(sumSquaredError, count) x =>
              (number_lift Rplus sumSquaredError
                 (squaredError true_surface predicted_surface y x),
               S count))
           (seq 0 minWidth) acc)
      (seq 0 minHeight) (Fin 0, O) in
  if (0 <? count)%nat then
    match sumSquaredError with
    | Fin total => Fin (sqrt (total / INR count))
    | NaN => NaN
    end
  else Fin 0.

(** The samples of the worked scenario: (0,0,5), (3,0,8), (6,0,5). *)
Definition scenario : list Sample :=
  [mkSample 0 0 5; mkSample 3 0 8; mkSample 6 0 5].

(** ** Shape of a linear system *)

(** An [n] by [n] matrix. *)
Definition square (n : nat) (matrix : list (list R)) : Prop :=
  length matrix = n /\
  forall k, (k < n)%nat -> length (nth k matrix []) = n.

(** Where row [k] sits after rows [i] and [j] were exchanged. *)
Definition transpose_index (i j k : nat) : nat :=
  if (k =? j)%nat then i else if (k =? i)%nat then j else k.

(** From column [i] on, two rows at or below row [i] agree, or one of them
    is zero: what elimination makes of a system with a repeated row. *)
Definition rows_agree (n i : nat) (matrix : list (list R)) : Prop :=
  exists p q, (i <= p < n)%nat /\ (i <= q < n)%nat /\ p <> q /\
    forall j, (i <= j < n)%nat -> entry matrix p j = entry matrix q j.

Definition row_zero (n i : nat) (matrix : list (list R)) : Prop :=
  exists p, (i <= p < n)%nat /\
    forall j, (i <= j < n)%nat -> entry matrix p j = 0.

Definition degenerate (n i : nat) (matrix : list (list R)) : Prop :=
  rows_agree n i matrix \/ row_zero n i matrix.

(** Two samples at (5,5), one at (0,0) and one within 0.001 of (0,0). *)
Definition nearby_and_duplicates : list Sample :=
  [mkSample 0.0005 0 7; mkSample 0 0 1; mkSample 5 5 2; mkSample 5 5 3].

(** ** Order of the samples *)

Definition Rsum (l : list R) : R := fold_right Rplus 0 l.

(** A sample that the fallback takes as being at the query point. *)
Definition near (x y : R) (s : Sample) : Prop :=
  euclid x y (s_x s) (s_y s) < 0.001.

(** Samples at the query point carry one value. *)
Definition consistent_at (x y : R) (samples : list Sample) : Prop :=
  forall s t, In s samples -> In t samples ->
              atLocation x y s = true -> atLocation x y t = true ->
              s_z s = s_z t.

(** Samples within 0.001 of the query point carry one value. *)
Definition consistent_near (x y : R) (samples : list Sample) : Prop :=
  forall s t, In s samples -> In t samples ->
              near x y s -> near x y t -> s_z s = s_z t.

Definition idwWeight (x y : R) (s : Sample) : R :=
  1 / (euclid x y (s_x s) (s_y s) * euclid x y (s_x s) (s_y s)).

(** ** Linear systems *)

(** Row [k] of [matrix * v], over [n] unknowns. *)
Definition rowDot (n : nat) (matrix : list (list R)) (v : list R) (k : nat)
  : R :=
  Rsum (map (fun j => entry matrix k j * nth j v 0) (seq 0 n)).

(** [v] solves the [n] equations [matrix * v = rhs]. *)
Definition solves (n : nat) (matrix : list (list R)) (rhs v : list R) : Prop :=
  forall k, (k < n)%nat -> rowDot n matrix v k = nth k rhs 0.

(** Zeros below the diagonal in the first [i] columns. *)
Definition lower_zero (n i : nat) (matrix : list (list R)) : Prop :=
  forall k j, (j < i)%nat -> (j < k < n)%nat -> entry matrix k j = 0.

Definition diag_nonzero (i : nat) (matrix : list (list R)) : Prop :=
  forall k, (k < i)%nat -> entry matrix k k <> 0.

(** What forward elimination keeps of the system on reaching column [i]. *)
Definition eliminated (n i : nat) (matrix : list (list R)) (rhs : list R)
  : Prop :=
  square n matrix /\ length rhs = n /\
  lower_zero n i matrix /\ diag_nonzero i matrix.

(** ** The ordinary-kriging equations *)

Definition defaultSample : Sample := mkSample 0 0 0.

Definition gammaBetween (params : VariogramParams) (s t : Sample) : R :=
  sphericalVariogram (euclid (s_x s) (s_y s) (s_x t) (s_y t)) params.

Definition gammaQuery (x y : R) (params : VariogramParams) (s : Sample) : R :=
  sphericalVariogram (euclid x y (s_x s) (s_y s)) params.

(** The system of [krigePoint] read on weighted samples, whatever their
    order: one equation per sample, with the multiplier [mu], and the
    weights summing to 1. *)
Definition krigingEquations (x y : R) (params : VariogramParams)
  (ws : list (Sample * R)) (mu : R) : Prop :=
  (forall s, In s (map fst ws) ->
     Rsum (map (fun tw => gammaBetween params s (fst tw) * snd tw) ws) + mu
     = gammaQuery x y params s) /\
  Rsum (map snd ws) = 1.

(** ** Sample lists with distinct locations on which the order shows *)

(** A sill just above the solver's tolerance. *)
Definition tiny : VariogramParams := mkParams 0 1.28e-10 2.

Definition spaced : list Sample :=
  [mkSample 3 0 0; mkSample 4 0 0; mkSample 7 0 1].

Definition spaced_rev : list Sample :=
  [mkSample 7 0 1; mkSample 4 0 0; mkSample 3 0 0].

(** A variogram that is 0 everywhere. *)
Definition flat : VariogramParams := mkParams 0 0 1.

Definition close : list Sample := [mkSample 0 0 1; mkSample 0.0005 0 2].

Definition close_rev : list Sample := [mkSample 0.0005 0 2; mkSample 0 0 1].

(** ** Changes of the data *)

(** The sample with its value sent through [z |-> a * z + b]. *)
Definition rescale (a b : R) (s : Sample) : Sample :=
  mkSample (s_x s) (s_y s) (a * s_z s + b).

(** The sample moved by [(dx, dy)]. *)
Definition shift (dx dy : R) (s : Sample) : Sample :=
  mkSample (s_x s + dx) (s_y s + dy) (s_z s).

(** ** [kригingPrediction] *)

(** The values of the loop variable of [for (v = 0; v < extent; v += step)]
    for a positive [step]: [0], [step], [2 * step], ... below [extent].  The
    code reaches them by repeated addition, which is exact in doubles for
    whole numbers below 2^53 and rounded otherwise. *)
Definition gridCoords (extent step : R) : list R :=
  map (fun k => INR k * step)
      (seq 0 (Z.to_nat (Math_ceil (extent / step)))).

(** With [height <= 0] the outer loop does not start.  Otherwise a [step]
    that is not positive never moves the loop variable past the bound. *)
Definition kригingPrediction (width height : R) (samples : list Sample)
  (params : VariogramParams) (step : R) : completion (list (list R)) :=
  if Rle_b height 0 then Returns []
  else if Rle_b step 0 then Diverges
  else
    Returns
      (map (fun y =>
              map (fun x => krigePoint x y samples params)
                  (gridCoords width step))
           (gridCoords height step)).

(** ** Reading two surfaces over their overlap *)

(** Every one of the first [h] rows has at least [w] cells. *)
Definition covers (surface : list (list R)) (h w : nat) : Prop :=
  forall y, (y < h)%nat -> (w <= length (nth y surface []))%nat.

(** The cells [(y, x)] of an [h] by [w] window, row by row. *)
Definition window (h w : nat) : list (nat * nat) :=
  flat_map (fun y => map (fun x => (y, x)) (seq 0 w)) (seq 0 h).

(** The squared difference of two surfaces at a cell both have. *)
Definition squaredDifference (s1 s2 : list (list R)) (yx : nat * nat) : R :=
  (entry s1 (fst yx) (snd yx) - entry s2 (fst yx) (snd yx))
  * (entry s1 (fst yx) (snd yx) - entry s2 (fst yx) (snd yx)).

Definition number_sum (l : list number) : number :=
  fold_left (number_lift Rplus) l (Fin 0).

(** * The surface generator (utils/surfaceGenerator) *)

(** ** [lerp], [fade], [pseudoRandom], [perlinNoise] *)

Definition lerp (a b t : R) : R := a + (b - a) * t.

Definition fade (t : R) : R := t * t * t * (t * (t * 6 - 15) + 10).

Definition pseudoRandom (x y : R) : R :=
  let n := sin (x * 12.9898 + y * 78.233) * 43758.5453 in
  n - IZR (Math_floor n).

Definition perlinNoise (x y : R) : R :=
  let xi := IZR (Math_floor x) in
  let yi := IZR (Math_floor y) in
  let xf := x - xi in
  let yf := y - yi in
  let n00 := pseudoRandom xi yi in
  let n10 := pseudoRandom (xi + 1) yi in
  let n01 := pseudoRandom xi (yi + 1) in
  let n11 := pseudoRandom (xi + 1) (yi + 1) in
  let u := fade xf in
  let v := fade yf in
  let nx0 := lerp n00 n10 u in
  let nx1 := lerp n01 n11 u in
  lerp nx0 nx1 v.

(** ** [normalizeSurface] *)

(** [Math.min(Infinity, v)] and [Math.max(-Infinity, v)] are [v], so after
    the first cell the running extremes are real numbers.  Without a cell
    the final [map] has nothing to transform.  With [range = 0] every cell
    is [0 / 0]. *)
Definition normalizeSurface (surface : list (list R)) : list (list number) :=
  match concat surface with
  | [] => map (map Fin) surface
  | first :: rest =>
      let min := fold_left Rmin rest first in
      let max := fold_left Rmax rest first in
      let range := max - min in
      map (map (fun value =>
                  if Req_b range 0 then NaN
                  else Fin ((value - min) / range * 100)))
          surface
  end.

(** ** [generateSurface] *)

(** One round of the octave loop on [value], [amplitude], [frequency],
    [maxValue]. *)
Definition octave (x y : R) (state : R * R * R * R) : R * R * R * R :=
  let '(value, amplitude, frequency, maxValue) := state in
  (value + amplitude * perlinNoise (x * frequency) (y * frequency),
   amplitude * 0.5, frequency * 2, maxValue + amplitude).

(** The cell pushed for [(x, y)]: [value / maxValue] after four octaves. *)
Definition octaves (x y : R) : R :=
  let '(value, _, _, maxValue) :=
    fold_left (fun state _ => octave x y state) (seq 0 4) (0, 1, 0.05, 0) in
  value / maxValue.

(** The values of the loop variable of [for (v = 0; v < bound; v++)]. *)
Definition loopIndices (bound : R) : list R :=
  map INR (seq 0 (Z.to_nat (Math_ceil bound))).

Definition generateSurface (width height _seed : R) : list (list number) :=
  normalizeSurface
    (map (fun y => map (fun x => octaves x y) (loopIndices width))
         (loopIndices height)).

(** * Colours of the heat map (App.tsx) *)

Record Color : Type := mkColor { c_r : Z; c_g : Z; c_b : Z }.

Definition colors : list Color :=
  [ mkColor 68 1 84; mkColor 71 16 99; mkColor 70 33 102;
    mkColor 68 51 101; mkColor 64 69 97; mkColor 57 87 100;
    mkColor 48 104 107; mkColor 37 121 110; mkColor 26 137 110;
    mkColor 16 154 108; mkColor 13 170 102; mkColor 27 186 91;
    mkColor 49 202 75; mkColor 77 216 54; mkColor 115 228 29;
    mkColor 163 238 9; mkColor 216 244 20; mkColor 254 246 52 ]%Z.

(** [Math.round]: to the nearest integer, halves upwards. *)
Definition Math_round (x : R) : Z := Math_floor (x + 0.5).

(** [a.c + (b.c - a.c) * frac], rounded, for one channel [c]. *)
Definition blend (a b : Z) (frac : R) : Z :=
  Math_round (IZR a + (IZR b - IZR a) * frac).

(** A read outside the table gives [undefined], and reading a channel of
    [undefined] throws. *)
Definition valueToColor (t : R) : completion Color :=
  let last := (Z.of_nat (length colors) - 1)%Z in
  let idx := Z.min (Z.of_nat (length colors) - 2) (Math_floor (t * IZR last)) in
  if (idx <? 0)%Z then Throws TypeError
  else
    match nth_error colors (Z.to_nat idx),
          nth_error colors (Z.to_nat (idx + 1)) with
    | Some a, Some b =>
        let frac := t * IZR last - IZR idx in
        Returns (mkColor (blend (c_r a) (c_r b) frac)
                         (blend (c_g a) (c_g b) frac)
                         (blend (c_b a) (c_b b) frac))
    | _, _ => Throws TypeError
    end.

(** A colour whose three channels fit a byte. *)
Definition byte_color (c : Color) : Prop :=
  (0 <= c_r c <= 255)%Z /\ (0 <= c_g c <= 255)%Z /\ (0 <= c_b c <= 255)%Z.

(** * The game (App.tsx) *)

(** The state of a game and the functions of the component that change it.
    A handler reads the state of the render it was created in and its update
    is applied to that state: React flushes the update of one click or one
    slider move before the next event.  The true surface of a game holds
    [SURFACE_SIZE] rows of [SURFACE_SIZE] real cells. *)
Module App.

Record GameState : Type := mkGameState {
  trueSurface : list (list R);
  samples : list Sample;
  clicksRemaining : Z;
  params : VariogramParams;
  predictedSurface : option (list (list R));
  gameOver : bool;
  won : bool;
  rmse : option number;
  targetRmse : number
}.

Definition SURFACE_SIZE : Z := 64.
Definition MAX_CLICKS : Z := 10.
Definition RMSE_THRESHOLD : R := 0.15.

(** The state that [startNewGame] sets for a generated surface. *)
Definition startNewGame (surface : list (list R)) : GameState :=
  let stdDev := calculateStdDev surface in
  let target := number_lift Rmult stdDev (Fin 0.15) in
  mkGameState surface [] MAX_CLICKS (mkParams 0.1 50 15) None false false
              None target.

Definition handleSurfaceClick (gameState : GameState) (x y : R) : GameState :=
  if gameOver gameState || (clicksRemaining gameState <=? 0)%Z then gameState
  else
    let xi := Math_round (x * IZR SURFACE_SIZE) in
    let yi := Math_round (y * IZR SURFACE_SIZE) in
    if (xi <? 0)%Z || (xi >=? SURFACE_SIZE)%Z
       || (yi <? 0)%Z || (yi >=? SURFACE_SIZE)%Z
    then gameState
    else if existsb (atLocation (IZR xi) (IZR yi)) (samples gameState)
    then gameState
    else
      let trueValue :=
        entry (trueSurface gameState) (Z.to_nat yi) (Z.to_nat xi) in
      mkGameState
        (trueSurface gameState)
        (samples gameState ++ [mkSample (IZR xi) (IZR yi) trueValue])
        (clicksRemaining gameState - 1)
        (params gameState)
        (predictedSurface gameState)
        ((clicksRemaining gameState - 1 =? 0)%Z && negb (won gameState))
        (won gameState)
        (rmse gameState)
        (targetRmse gameState).

(** [keyof VariogramParams]. *)
Inductive ParamKey : Type := Nugget | Sill | Range.

Definition updateParam (gameState : GameState) (param : ParamKey) (value : R)
  : GameState :=
  let p := params gameState in
  mkGameState
    (trueSurface gameState) (samples gameState) (clicksRemaining gameState)
    match param with
    | Nugget => mkParams value (sill p) (range p)
    | Sill => mkParams (nugget p) value (range p)
    | Range => mkParams (nugget p) (sill p) value
    end
    (predictedSurface gameState) (gameOver gameState) (won gameState)
    (rmse gameState) (targetRmse gameState).

(** [rmse / targetRmse <= RMSE_THRESHOLD].  A division by zero gives an
    infinity of the sign of [rmse], or [NaN] for [0 / 0]; a comparison with
    [NaN] is false. *)
Definition withinThreshold (rmse targetRmse : number) : bool :=
  match rmse, targetRmse with
  | Fin r, Fin t =>
      if Req_b t 0 then Rlt_b r 0 else Rle_b (r / t) RMSE_THRESHOLD
  | _, _ => false
  end.

(** The effect that runs when the samples or the parameters have changed:
    the part that sets the game state. *)
Definition predictionEffect (gameState : GameState) : completion GameState :=
  match samples gameState with
  | [] => Returns gameState
  | _ :: _ =>
      match
        kригingPrediction (IZR SURFACE_SIZE) (IZR SURFACE_SIZE)
                          (samples gameState) (params gameState) 2
      with
      | Returns newPredicted =>
          let rmse := calculateRMSE (trueSurface gameState) newPredicted in
          let reached := withinThreshold rmse (targetRmse gameState) in
          Returns
            (mkGameState
               (trueSurface gameState) (samples gameState)
               (clicksRemaining gameState) (params gameState)
               (Some newPredicted)
               (gameOver gameState || reached)
               (reached && negb (gameOver gameState))
               (Some rmse)
               (targetRmse gameState))
      | Throws e => Throws e
      | Diverges => Diverges
      end
  end.

(** What every state of a game satisfies. *)
Definition consistent (gameState : GameState) : Prop :=
  distinct_locations (samples gameState) /\
  (Z.of_nat (length (samples gameState)) + clicksRemaining gameState
   = MAX_CLICKS)%Z /\
  (0 <= clicksRemaining gameState)%Z /\
  (forall s, In s (samples gameState) ->
     exists xi yi,
       (0 <= xi < SURFACE_SIZE)%Z /\ (0 <= yi < SURFACE_SIZE)%Z /\
       s = mkSample (IZR xi) (IZR yi)
                    (entry (trueSurface gameState)
                           (Z.to_nat yi) (Z.to_nat xi))) /\
  (won gameState = true ->
   gameOver gameState = true /\ samples gameState <> []).

(** The states a game goes through: a new game, then clicks on the map,
    slider moves and runs of the effect. *)
Inductive reachable : GameState -> Prop :=
| reach_start (surface : list (list R)) :
    reachable (startNewGame surface)
| reach_click (gameState : GameState) (x y : R) :
    reachable gameState -> reachable (handleSurfaceClick gameState x y)
| reach_param (gameState : GameState) (param : ParamKey) (value : R) :
    reachable gameState -> reachable (updateParam gameState param value)
| reach_effect (gameState next : GameState) :
    reachable gameState -> predictionEffect gameState = Returns next ->
    reachable next.

End App.

(** * Double precision *)

(** The arithmetic of [kriging.ts] as JavaScript performs it.  A [number]
    is a binary64 float; [+], [-], [*], [/] and [Math.sqrt] round to nearest,
    ties to even; [===], [<], [>] and [>=] are the IEEE comparisons, false on
    [NaN].  [Math.pow(h, 3)] is implementation-approximated in ECMAScript;
    here it is the correctly rounded cube. *)
Module Double.
#[local] Open Scope float_scope.

Record Sample : Type := mkSample { s_x : float; s_y : float; s_z : float }.

Record VariogramParams : Type :=
  mkParams { nugget : float; sill : float; range : float }.

(** nugget >= 0, sill >= nugget, range > 0. *)
Definition valid_params (params : VariogramParams) : Prop :=
  (0 <=? nugget params) = true /\
  (nugget params <=? sill params) = true /\
  (0 <? range params) = true.

(** The cube of [h], rounded once. *)
Definition Math_pow3 (h : float) : float :=
  match Prim2SF h with
  | S754_finite s m e =>
      SF2Prim (binary_normalize prec emax
                 (if s then Z.neg (m * m * m) else Z.pos (m * m * m))
                 (3 * e) s)
  | _ => h * h * h
  end.

Definition sphericalVariogram (distance : float) (params : VariogramParams)
  : float :=
  let c := sill params - nugget params in
  if distance =? 0 then 0
  else if range params <=? distance then sill params
  else
    let h_a := distance / range params in
    nugget params + c * (1.5 * h_a - 0.5 * Math_pow3 h_a).

Definition euclid (x1 y1 x2 y2 : float) : float :=
  let dx := x1 - x2 in
  let dy := y1 - y2 in
  PrimFloat.sqrt (dx * dx + dy * dy).

Definition entry (matrix : list (list float)) (k j : nat) : float :=
  nth j (nth k matrix []) 0.

Fixpoint findPivot (matrix : list (list float)) (i maxRow : nat)
  (ks : list nat) : nat :=
  match ks with
  | [] => maxRow
  | k :: ks' =>
      if PrimFloat.abs (entry matrix maxRow i)
         <? PrimFloat.abs (entry matrix k i)
      then findPivot matrix i k ks'
      else findPivot matrix i maxRow ks'
  end.

Definition eliminateRow (n i : nat) (factor : float)
  (pivotRow row : list float) : list float :=
  mapi_from
    (fun j v =>
       if ((i <=? j) && (j <? n))%nat then v - factor * nth j pivotRow 0
       else v)
    0 row.

Definition eliminateColumn (n i : nat) (matrix : list (list float))
  (rhs : list float) : option (list (list float) * list float) :=
  let maxRow := findPivot matrix i i (seq (S i) (n - S i)) in
  let matrix1 := swap [] i maxRow matrix in
  let rhs1 := swap 0 i maxRow rhs in
  if PrimFloat.abs (entry matrix1 i i) <? 1e-10 then None
  else
    let pivotRow := nth i matrix1 [] in
    let factor := fun k => entry matrix1 k i / entry matrix1 i i in
    Some
      (mapi_from
         (fun k row =>
            if ((i <? k) && (k <? n))%nat
            then eliminateRow n i (factor k) pivotRow row else row)
         0 matrix1,
       mapi_from
         (fun k v =>
            if ((i <? k) && (k <? n))%nat
            then v - factor k * nth i rhs1 0 else v)
         0 rhs1).

Fixpoint forwardElimination (n : nat) (cols : list nat)
  (matrix : list (list float)) (rhs : list float)
  : option (list (list float) * list float) :=
  match cols with
  | [] => Some (matrix, rhs)
  | i :: cols' =>
      match eliminateColumn n i matrix rhs with
      | None => None
      | Some (matrix', rhs') => forwardElimination n cols' matrix' rhs'
      end
  end.

Definition backStep (n : nat) (matrix : list (list float)) (rhs : list float)
  (solution : list float) (i : nat) : list float :=
  let s :=
    fold_left (fun s j => s - entry matrix i j * nth j solution 0)
              (seq (S i) (n - S i)) (nth i rhs 0) in
  set_nth i (s / entry matrix i i) solution.

Definition backSubstitution (n : nat) (matrix : list (list float))
  (rhs : list float) : list float :=
  fold_left (backStep n matrix rhs) (rev (seq 0 n)) (repeat 0 n).

Definition gaussianElimination (A : list (list float)) (b : list float)
  : option (list float) :=
  let n := length A in
  match forwardElimination n (seq 0 n) A b with
  | None => None
  | Some (matrix, rhs) => Some (backSubstitution n matrix rhs)
  end.

Fixpoint idwLoop (x y : float) (samples : list Sample)
  (totalWeight weightedSum : float) : float :=
  match samples with
  | [] => if 0 <? totalWeight then weightedSum / totalWeight else 0
  | sample :: rest =>
      let dist := euclid x y (s_x sample) (s_y sample) in
      if dist <? 0.001 then s_z sample
      else
        let weight := 1 / (dist * dist) in
        idwLoop x y rest (totalWeight + weight)
                (weightedSum + weight * s_z sample)
  end.

Definition inverseDistanceWeighting (x y : float) (samples : list Sample)
  : float :=
  idwLoop x y samples 0 0.

(** [sample.x === x && sample.y === y] *)
Definition atLocation (x y : float) (sample : Sample) : bool :=
  (s_x sample =? x) && (s_y sample =? y).

Definition krigingRow (samples : list Sample) (params : VariogramParams)
  (i : nat) (si : Sample) : list float :=
  mapi_from
    (fun j sj =>
       if (i =? j)%nat then 0
       else sphericalVariogram
              (euclid (s_x si) (s_y si) (s_x sj) (s_y sj)) params)
    0 samples
  ++ [1].

Definition krigingMatrix (samples : list Sample) (params : VariogramParams)
  : list (list float) :=
  mapi_from (krigingRow samples params) 0 samples
  ++ [repeat 1 (length samples) ++ [0]].

Definition krigingRhs (x y : float) (samples : list Sample)
  (params : VariogramParams) : list float :=
  map (fun si => sphericalVariogram (euclid x y (s_x si) (s_y si)) params)
      samples
  ++ [1].

Definition predictionOf (samples : list Sample) (weights : list float)
  : float :=
  fold_left
    (fun prediction i =>
       prediction + nth i weights 0 * s_z (nth i samples (mkSample 0 0 0)))
    (seq 0 (length samples)) 0.

Definition krigePoint (x y : float) (samples : list Sample)
  (params : VariogramParams) : float :=
  match samples with
  | [] => 0
  | _ :: _ =>
      match find (atLocation x y) samples with
      | Some sample => s_z sample
      | None =>
          match gaussianElimination (krigingMatrix samples params)
                                    (krigingRhs x y samples params) with
          | None => inverseDistanceWeighting x y samples
          | Some weights => predictionOf samples weights
          end
      end
  end.

(** No two samples of the list share a location ([===] on both
    coordinates). *)
Fixpoint distinct_locations (samples : list Sample) : bool :=
  match samples with
  | [] => true
  | s :: rest =>
      negb (existsb (atLocation (s_x s) (s_y s)) rest)
      && distinct_locations rest
  end.


End Double.

(** * Properties *)

(** ** Booleans *)

Lemma Req_b_true (a b : R) : Req_b a b = true <-> a = b.
Proof. unfold Req_b. destruct (Req_dec_T a b); split; congruence. Qed.

Lemma Req_b_false (a b : R) : Req_b a b = false <-> a <> b.
Proof. unfold Req_b. destruct (Req_dec_T a b); split; congruence. Qed.

Lemma Rlt_b_true (a b : R) : Rlt_b a b = true <-> a < b.
Proof. unfold Rlt_b. destruct (Rlt_dec a b); split; congruence. Qed.

Lemma Rlt_b_false (a b : R) : Rlt_b a b = false <-> b <= a.
Proof. unfold Rlt_b. destruct (Rlt_dec a b); split; try congruence; lra. Qed.

Lemma Rle_b_true (a b : R) : Rle_b a b = true <-> a <= b.
Proof. unfold Rle_b. destruct (Rle_dec a b); split; congruence. Qed.

Lemma Rle_b_false (a b : R) : Rle_b a b = false <-> b < a.
Proof. unfold Rle_b. destruct (Rle_dec a b); split; try congruence; lra. Qed.

(** ** The spherical model *)

Lemma sphericalVariogram_completion_real (dist : R) (params : VariogramParams) :
  range params <> 0 \/ 0 <= dist ->
  sphericalVariogram_completion dist params
  = Returns (Fin (sphericalVariogram dist params)).
Proof.
  intros H. unfold sphericalVariogram_completion, sphericalVariogram.
  destruct (Req_b dist 0) eqn:E0; [reflexivity|].
  destruct (Rle_b (range params) dist) eqn:E1; [reflexivity|].
  destruct (Req_b (range params) 0) eqn:E2; [|reflexivity].
  apply Req_b_true in E2. apply Rle_b_false in E1. apply Req_b_false in E0.
  destruct H; [contradiction | lra].
Qed.

(** The three branches of the model. *)
Lemma sphericalVariogram_zero (p : VariogramParams) :
  sphericalVariogram 0 p = 0.
Proof.
  unfold sphericalVariogram.
  replace (Req_b 0 0) with true by (symmetry; now apply Req_b_true).
  reflexivity.
Qed.

Lemma sphericalVariogram_plateau (d : R) (p : VariogramParams) :
  d <> 0 -> range p <= d -> sphericalVariogram d p = sill p.
Proof.
  intros Hd Hr. unfold sphericalVariogram.
  replace (Req_b d 0) with false by (symmetry; now apply Req_b_false).
  replace (Rle_b (range p) d) with true by (symmetry; now apply Rle_b_true).
  reflexivity.
Qed.

Lemma sphericalVariogram_inside (d : R) (p : VariogramParams) :
  d <> 0 -> d < range p ->
  sphericalVariogram d p
  = nugget p + (sill p - nugget p)
               * (1.5 * (d / range p) - 0.5 * (d / range p) ^ 3).
Proof.
  intros Hd Hr. unfold sphericalVariogram.
  replace (Req_b d 0) with false by (symmetry; now apply Req_b_false).
  replace (Rle_b (range p) d) with false by (symmetry; now apply Rle_b_false).
  reflexivity.
Qed.

(** C3: on a non-negative distance and valid parameters the model is 0 at
    distance 0, the cubic [nugget + (sill - nugget) * (1.5 h - 0.5 h^3)] with
    [h = distance / range] strictly inside the range, and exactly [sill] from
    the range on. *)
Theorem sphericalVariogram_cases (d : R) (p : VariogramParams) :
  0 <= d -> valid_params p ->
  (d = 0 -> sphericalVariogram d p = 0) /\
  (0 < d < range p ->
   sphericalVariogram d p
   = nugget p + (sill p - nugget p)
                * (1.5 * (d / range p) - 0.5 * (d / range p) ^ 3)) /\
  (range p <= d -> sphericalVariogram d p = sill p).
Proof.
  intros Hd (Hn & Hs & Hr). repeat split.
  - intros ->. apply sphericalVariogram_zero.
  - intros [H0 H1]. apply sphericalVariogram_inside; lra.
  - intros H. apply sphericalVariogram_plateau; lra.
Qed.

Lemma sphericalVariogram_cases_witness :
  let p := mkParams 0 30 20 in
  (2 = 0 -> sphericalVariogram 2 p = 0) /\
  (0 < 2 < range p ->
   sphericalVariogram 2 p
   = nugget p + (sill p - nugget p)
                * (1.5 * (2 / range p) - 0.5 * (2 / range p) ^ 3)) /\
  (range p <= 2 -> sphericalVariogram 2 p = sill p).
Proof.
  apply (sphericalVariogram_cases 2 (mkParams 0 30 20)).
  - lra.
  - unfold valid_params; simpl; lra.
Defined.

(** The cubic [1.5 h - 0.5 h^3] on the unit interval. *)
Lemma cubic_nonneg (h : R) : 0 <= h <= 1 -> 0 <= 1.5 * h - 0.5 * h ^ 3.
Proof. intros [H0 H1]. simpl. nra. Qed.

Lemma cubic_le_1 (h : R) : 0 <= h <= 1 -> 1.5 * h - 0.5 * h ^ 3 <= 1.
Proof.
  intros [H0 H1].
  assert (0 <= (1 - h) * (1 - h) * (h + 2))
    by (apply Rmult_le_pos; [apply Rle_0_sqr || nra | lra]).
  simpl. nra.
Qed.

Lemma cubic_monotone (h1 h2 : R) :
  0 <= h1 -> h1 <= h2 -> h2 <= 1 ->
  1.5 * h1 - 0.5 * h1 ^ 3 <= 1.5 * h2 - 0.5 * h2 ^ 3.
Proof.
  intros H0 H12 H1.
  assert (E : (1.5 * h2 - 0.5 * h2 ^ 3) - (1.5 * h1 - 0.5 * h1 ^ 3)
              = (h2 - h1) * (1.5 - 0.5 * (h2 * h2 + h1 * h2 + h1 * h1)))
    by (simpl; ring).
  assert (0 <= (h2 - h1) * (1.5 - 0.5 * (h2 * h2 + h1 * h2 + h1 * h1))).
  { apply Rmult_le_pos; [lra | nra]. }
  lra.
Qed.

Lemma ratio_bounds (d r : R) : 0 < r -> 0 <= d -> d <= r -> 0 <= d / r <= 1.
Proof.
  intros Hr Hd Hdr. split.
  - apply Rmult_le_pos; [lra | left; now apply Rinv_0_lt_compat].
  - apply (Rmult_le_reg_r r); [lra |]. unfold Rdiv.
    rewrite Rmult_assoc, Rinv_l by lra. lra.
Qed.

(** The model never goes below 0 on valid parameters and a distance in
    [[0, range]]. *)
Lemma sphericalVariogram_nonneg (d : R) (p : VariogramParams) :
  valid_params p -> 0 <= d <= range p -> 0 <= sphericalVariogram d p.
Proof.
  intros (Hn & Hs & Hr) [Hd0 Hd1].
  destruct (Req_dec_T d 0) as [->|Hne].
  - rewrite sphericalVariogram_zero. lra.
  - destruct (Rle_lt_dec (range p) d) as [Hge|Hlt].
    + rewrite sphericalVariogram_plateau by assumption. lra.
    + rewrite sphericalVariogram_inside by assumption.
      pose proof (cubic_nonneg (d / range p)
                    (ratio_bounds d (range p) Hr Hd0 Hd1)) as Hc.
      assert (0 <= (sill p - nugget p)
                   * (1.5 * (d / range p) - 0.5 * (d / range p) ^ 3))
        by (apply Rmult_le_pos; lra).
      lra.
Qed.

(** In exact arithmetic:
    with [sill >= nugget], [nugget >= 0] and [range > 0] the model is
    monotonically non-decreasing in the distance on [[0, range]]. *)
Theorem sphericalVariogram_monotone (d1 d2 : R) (p : VariogramParams) :
  valid_params p -> 0 <= d1 -> d1 <= d2 -> d2 <= range p ->
  sphericalVariogram d1 p <= sphericalVariogram d2 p.
Proof.
  intros Hv H0 H12 H2. pose proof Hv as (Hn & Hs & Hr).
  destruct (Req_dec_T d1 0) as [->|Hne1].
  - rewrite sphericalVariogram_zero.
    apply sphericalVariogram_nonneg; [assumption | lra].
  - assert (Hne2 : d2 <> 0) by lra.
    destruct (Rle_lt_dec (range p) d2) as [Hge2|Hlt2].
    + rewrite (sphericalVariogram_plateau d2) by assumption.
      destruct (Rle_lt_dec (range p) d1) as [Hge1|Hlt1].
      * rewrite sphericalVariogram_plateau by assumption. lra.
      * rewrite sphericalVariogram_inside by assumption.
        assert (Hb : 0 <= d1 / range p <= 1)
          by (apply ratio_bounds; lra).
        pose proof (cubic_le_1 _ Hb) as Hc.
        assert ((sill p - nugget p)
                * (1.5 * (d1 / range p) - 0.5 * (d1 / range p) ^ 3)
                <= (sill p - nugget p) * 1)
          by (apply Rmult_le_compat_l; lra).
        lra.
    + rewrite !sphericalVariogram_inside by lra.
      assert (Hb1 : 0 <= d1 / range p <= 1) by (apply ratio_bounds; lra).
      assert (Hb2 : 0 <= d2 / range p <= 1) by (apply ratio_bounds; lra).
      assert (Hle : d1 / range p <= d2 / range p).
      { unfold Rdiv. apply Rmult_le_compat_r; [|lra].
        left. now apply Rinv_0_lt_compat. }
      pose proof (cubic_monotone _ _ (proj1 Hb1) Hle (proj2 Hb2)) as Hc.
      assert ((sill p - nugget p)
              * (1.5 * (d1 / range p) - 0.5 * (d1 / range p) ^ 3)
              <= (sill p - nugget p)
                 * (1.5 * (d2 / range p) - 0.5 * (d2 / range p) ^ 3))
        by (apply Rmult_le_compat_l; lra).
      lra.
Qed.

Lemma sphericalVariogram_monotone_witness :
  sphericalVariogram 5 (mkParams 0 30 20)
  <= sphericalVariogram 10 (mkParams 0 30 20).
Proof.
  apply (sphericalVariogram_monotone 5 10 (mkParams 0 30 20)).
  - unfold valid_params; simpl; lra.
  - lra.
  - lra.
  - simpl; lra.
Defined.

(** Evaluation at a concrete call with [range = 0]. *)
Lemma sphericalVariogram_range0 :
  sphericalVariogram_completion 1 (mkParams 0 1 0) = Returns (Fin 1).
Proof.
  unfold sphericalVariogram_completion; simpl.
  replace (Req_b 1 0) with false by (symmetry; apply Req_b_false; lra).
  replace (Rle_b 0 1) with true by (symmetry; apply Rle_b_true; lra).
  reflexivity.
Qed.

(** C4 as stated fails: with [range = 0] the call at distance 1 returns
    [sill] and signals nothing. *)
Lemma sphericalVariogram_no_fail_fast :
  ~ (forall (d : R) (p : VariogramParams),
        range p <= 0 -> fails_fast (sphericalVariogram_completion d p)).
Proof.
  intros H. specialize (H 1 (mkParams 0 1 0)). simpl in H.
  assert (H0 : 0 <= 0) by lra. specialize (H H0).
  unfold fails_fast in H. rewrite sphericalVariogram_range0 in H.
  discriminate H.
Qed.

(** C4, amended: with [range <= 0] the call signals nothing.  On a
    non-negative distance, the only kind the module passes, it returns 0 at
    distance 0 and [sill] otherwise, both before the division; on a negative
    distance it still returns, a real or [NaN]. *)
Theorem sphericalVariogram_degenerate_range (d : R) (p : VariogramParams) :
  range p <= 0 ->
  ~ fails_fast (sphericalVariogram_completion d p) /\
  (exists v, sphericalVariogram_completion d p = Returns v) /\
  (0 <= d ->
   sphericalVariogram_completion d p
   = Returns (Fin (if Req_b d 0 then 0 else sill p)) /\
   sphericalVariogram d p = (if Req_b d 0 then 0 else sill p)).
Proof.
  intros Hr.
  assert (Hex : exists v, sphericalVariogram_completion d p = Returns v).
  { unfold sphericalVariogram_completion.
    destruct (Req_b d 0); [eauto|].
    destruct (Rle_b (range p) d); [eauto|].
    destruct (Req_b (range p) 0); eauto. }
  split; [|split].
  - destruct Hex as [v Hv]. unfold fails_fast. rewrite Hv. discriminate.
  - exact Hex.
  - intros Hd.
    unfold sphericalVariogram_completion, sphericalVariogram.
    destruct (Req_b d 0) eqn:E0; [split; reflexivity|].
    replace (Rle_b (range p) d) with true
      by (symmetry; apply Rle_b_true; lra).
    split; reflexivity.
Qed.

Lemma sphericalVariogram_degenerate_range_witness :
  ~ fails_fast (sphericalVariogram_completion 1 (mkParams 0 1 0)) /\
  (exists v, sphericalVariogram_completion 1 (mkParams 0 1 0) = Returns v) /\
  (0 <= 1 ->
   sphericalVariogram_completion 1 (mkParams 0 1 0)
   = Returns (Fin (if Req_b 1 0 then 0 else sill (mkParams 0 1 0))) /\
   sphericalVariogram 1 (mkParams 0 1 0)
   = (if Req_b 1 0 then 0 else sill (mkParams 0 1 0))).
Proof.
  apply (sphericalVariogram_degenerate_range 1 (mkParams 0 1 0)).
  simpl. lra.
Defined.

(** ** Exact interpolation at a sample location *)

Lemma atLocation_true (x y : R) (s : Sample) :
  atLocation x y s = true <-> s_x s = x /\ s_y s = y.
Proof.
  unfold atLocation. rewrite andb_true_iff, !Req_b_true. reflexivity.
Qed.

Lemma atLocation_location (x y : R) (s : Sample) :
  atLocation x y s = true <-> location s = (x, y).
Proof.
  rewrite atLocation_true. unfold location. split.
  - intros [-> ->]. reflexivity.
  - intros H. inversion H. split; reflexivity.
Qed.

(** [krigePoint] past the emptiness test, on a query that a sample matches. *)
Lemma krigePoint_found (x y : R) (samples : list Sample)
  (params : VariogramParams) (s : Sample) :
  find (atLocation x y) samples = Some s ->
  krigePoint x y samples params = s_z s.
Proof.
  intros H. unfold krigePoint. destruct samples as [|s0 rest].
  - discriminate H.
  - rewrite H. reflexivity.
Qed.

Lemma find_first {A : Type} (f : A -> bool) (l : list A) (a : A) :
  In a l -> f a = true ->
  exists l1 a0 l2, l = l1 ++ a0 :: l2 /\ f a0 = true /\
                   (forall b, In b l1 -> f b = false) /\
                   find f l = Some a0.
Proof.
  induction l as [|b l IH]; intros Hin Hf; [contradiction|].
  destruct (f b) eqn:Eb.
  - exists [], b, l. simpl. rewrite Eb. repeat split; tauto.
  - destruct Hin as [->|Hin]; [congruence|].
    destruct (IH Hin Hf) as (l1 & a0 & l2 & -> & Ha0 & Hl1 & Hfind).
    exists (b :: l1), a0, l2. simpl. rewrite Eb.
    repeat split; try assumption.
    intros c [<-|Hc]; [assumption | now apply Hl1].
Qed.

Lemma distinct_locations_same (samples : list Sample) (s t : Sample) :
  distinct_locations samples -> In s samples -> In t samples ->
  location s = location t -> s = t.
Proof.
  unfold distinct_locations.
  induction samples as [|a l IH]; intros Hnd Hs Ht Hloc; [contradiction|].
  simpl in Hnd. inversion Hnd as [|? ? Hnotin Hnd']; subst.
  destruct Hs as [->|Hs], Ht as [->|Ht].
  - reflexivity.
  - exfalso. apply Hnotin. rewrite Hloc. now apply in_map.
  - exfalso. apply Hnotin. rewrite <- Hloc. now apply in_map.
  - now apply IH.
Qed.

(** Two samples at one location: the query there gets the first one's value. *)
Lemma krigePoint_duplicate (params : VariogramParams) :
  krigePoint 0 0 [mkSample 0 0 1; mkSample 0 0 2] params = 1.
Proof.
  apply (krigePoint_found 0 0 _ params (mkSample 0 0 1)).
  simpl. replace (atLocation 0 0 (mkSample 0 0 1)) with true; [reflexivity|].
  symmetry. apply atLocation_true. split; reflexivity.
Qed.

(** C1 as stated fails on a list that holds two samples at one location:
    the second sample is at the query point and its value is not returned. *)
Lemma krigePoint_exact_not_every_sample :
  ~ (forall (x y : R) (samples : list Sample) (params : VariogramParams)
            (s : Sample),
        samples <> [] -> valid_params params -> In s samples ->
        s_x s = x -> s_y s = y ->
        krigePoint x y samples params = s_z s).
Proof.
  intros H.
  specialize (H 0 0 [mkSample 0 0 1; mkSample 0 0 2] (mkParams 0 1 10)
                (mkSample 0 0 2)).
  rewrite krigePoint_duplicate in H. simpl in H.
  assert (E : 1 = 2).
  { apply H; auto.
    - discriminate.
    - unfold valid_params; simpl; lra. }
  lra.
Qed.

(** C1, amended: when the query point is the location of a sample of the
    list, [krigePoint] returns the value of the first sample of the list at
    that location, for any parameters; this is the sample's own value when no
    other sample shares its location. *)
Theorem krigePoint_exact (x y : R) (samples : list Sample)
  (params : VariogramParams) (s : Sample) :
  In s samples -> s_x s = x -> s_y s = y ->
  (exists before first after,
      samples = before ++ first :: after /\
      s_x first = x /\ s_y first = y /\
      (forall t, In t before -> atLocation x y t = false) /\
      krigePoint x y samples params = s_z first) /\
  (distinct_locations samples -> krigePoint x y samples params = s_z s).
Proof.
  intros Hin Hx Hy.
  assert (Hs : atLocation x y s = true) by (apply atLocation_true; auto).
  destruct (find_first _ _ _ Hin Hs)
    as (l1 & a0 & l2 & Heq & Ha0 & Hl1 & Hfind).
  split.
  - exists l1, a0, l2. apply atLocation_true in Ha0 as [Hx0 Hy0].
    repeat split; try assumption.
    now apply krigePoint_found.
  - intros Hnd. rewrite (krigePoint_found _ _ _ _ _ Hfind).
    f_equal. symmetry. apply (distinct_locations_same samples); auto.
    + rewrite Heq. apply in_or_app. right. now left.
    + apply atLocation_location in Ha0, Hs. congruence.
Qed.

Lemma krigePoint_exact_witness :
  let samples := [mkSample 0 0 10; mkSample 10 0 20; mkSample 0 10 15] in
  let params := mkParams 0 30 20 in
  (exists before first after,
      samples = before ++ first :: after /\
      s_x first = 10 /\ s_y first = 0 /\
      (forall t, In t before -> atLocation 10 0 t = false) /\
      krigePoint 10 0 samples params = s_z first) /\
  (distinct_locations samples -> krigePoint 10 0 samples params = 20).
Proof.
  apply (krigePoint_exact 10 0
           [mkSample 0 0 10; mkSample 10 0 20; mkSample 0 10 15]
           (mkParams 0 30 20) (mkSample 10 0 20)).
  - simpl. auto.
  - reflexivity.
  - reflexivity.
Defined.

(** ** Standard deviation of a surface *)

(** C9 at the surface with no cell: [count] stays 0, the mean is [0 / 0]
    and the result is [NaN], not a real number. *)
Theorem calculateStdDev_empty : calculateStdDev [] = NaN.
Proof. reflexivity. Qed.

Lemma calculateStdDev_empty_rows : calculateStdDev [[]; []] = NaN.
Proof. reflexivity. Qed.

Lemma Rsum_app (l1 l2 : list R) : Rsum (l1 ++ l2) = Rsum l1 + Rsum l2.
Proof.
  induction l1 as [|a l1 IH]; simpl; [lra | rewrite IH; lra].
Qed.

Lemma rowSums_spec (row : list R) (sum sumSquared : R) (count : nat) :
  fold_left
    (fun '(sum, sumSquared, count) value =>
       (sum + value, sumSquared + value * value, S count))
    row (sum, sumSquared, count)
  = (sum + Rsum row, sumSquared + Rsum (map (fun v => v * v) row),
     (count + length row)%nat).
Proof.
  revert sum sumSquared count.
  induction row as [|v row IH]; intros s q c; simpl.
  - now rewrite !Rplus_0_r, Nat.add_0_r.
  - rewrite IH. f_equal; [f_equal; lra | lia].
Qed.

(** The accumulators are the sum, the sum of squares and the number of all
    cells. *)
Lemma surfaceSums_spec (surface : list (list R)) :
  surfaceSums surface
  = (Rsum (concat surface), Rsum (map (fun v => v * v) (concat surface)),
     length (concat surface)).
Proof.
  unfold surfaceSums.
  enough (H : forall s q c,
             fold_left
               (fun acc row =>
                  fold_left
                    (fun '(sum, sumSquared, count) value =>
                       (sum + value, sumSquared + value * value, S count))
                    row acc) surface (s, q, c)
             = (s + Rsum (concat surface),
                q + Rsum (map (fun v => v * v) (concat surface)),
                (c + length (concat surface))%nat)).
  { rewrite H. now rewrite !Rplus_0_l. }
  induction surface as [|row surface IH]; intros s q c; simpl.
  - now rewrite !Rplus_0_r, Nat.add_0_r.
  - rewrite rowSums_spec, IH.
    rewrite map_app, !Rsum_app, length_app.
    f_equal; [f_equal; lra | lia].
Qed.

(** On a surface with at least one cell the result is the real
    [sqrt (max (E[x^2] - E[x]^2) 0)] over all cells, and it is not
    negative. *)
Lemma calculateStdDev_nonneg (surface : list (list R)) :
  concat surface <> [] ->
  let cells := concat surface in
  let n := INR (length cells) in
  let mean := Rsum cells / n in
  calculateStdDev surface
  = Fin (sqrt (Rmax (Rsum (map (fun v => v * v) cells) / n - mean * mean) 0))
  /\ 0 <= sqrt (Rmax (Rsum (map (fun v => v * v) cells) / n - mean * mean) 0).
Proof.
  intros Hne. cbv zeta. split; [|apply sqrt_pos].
  unfold calculateStdDev. rewrite surfaceSums_spec.
  destruct (concat surface) as [|v cells]; [contradiction | reflexivity].
Qed.

(** [NaN] comes out exactly on the surfaces without a cell. *)
Lemma calculateStdDev_NaN (surface : list (list R)) :
  calculateStdDev surface = NaN <-> concat surface = [].
Proof.
  split.
  - intros H. destruct (concat surface) eqn:E; [reflexivity|].
    destruct (calculateStdDev_nonneg surface) as [Hfin _];
      [rewrite E; discriminate|].
    rewrite H in Hfin. discriminate.
  - intros H. unfold calculateStdDev. rewrite surfaceSums_spec, H.
    reflexivity.
Qed.

(** The sibling metric guards the same division: on an empty overlap
    [count] is 0 and [calculateRMSE] returns 0. *)
Lemma calculateRMSE_empty (surface : list (list R)) :
  calculateRMSE [] surface = Fin 0.
Proof. reflexivity. Qed.

(** ** Rounding *)

Lemma Math_floor_spec (r : R) :
  IZR (Math_floor r) <= r < IZR (Math_floor r) + 1.
Proof.
  unfold Math_floor. destruct (base_Int_part r) as [H1 H2]. lra.
Qed.

Lemma Math_floor_unique (r : R) (z : Z) :
  IZR z <= r < IZR z + 1 -> Math_floor r = z.
Proof.
  intros [H1 H2]. unfold Math_floor. symmetry. apply Int_part_spec. lra.
Qed.

Lemma Math_ceil_spec (r : R) :
  IZR (Math_ceil r) - 1 < r <= IZR (Math_ceil r).
Proof.
  unfold Math_ceil. rewrite opp_IZR.
  destruct (base_Int_part (- r)) as [H1 H2]. lra.
Qed.

Lemma Math_ceil_unique (r : R) (z : Z) :
  IZR z - 1 < r <= IZR z -> Math_ceil r = z.
Proof.
  intros [H1 H2]. unfold Math_ceil.
  rewrite <- (Int_part_spec (- r) (- z)%Z).
  - lia.
  - rewrite opp_IZR. lra.
Qed.

Lemma Math_floor_IZR (z : Z) : Math_floor (IZR z) = z.
Proof. apply Math_floor_unique. lra. Qed.

Lemma Math_ceil_IZR (z : Z) : Math_ceil (IZR z) = z.
Proof. apply Math_ceil_unique. lra. Qed.

Lemma Math_floor_nonneg (r : R) : 0 <= r -> (0 <= Math_floor r)%Z.
Proof.
  intros Hr. destruct (Math_floor_spec r) as [_ H].
  apply Z.lt_succ_r. apply lt_IZR. rewrite succ_IZR. lra.
Qed.

Lemma Math_floor_le_ceil (r s : R) :
  r <= s -> (Math_floor r <= Math_ceil s)%Z.
Proof.
  intros Hrs. destruct (Math_floor_spec r) as [H1 _].
  destruct (Math_ceil_spec s) as [_ H2].
  apply le_IZR. lra.
Qed.

(** ** Arrays *)

Lemma mapi_from_length {A B : Type} (f : nat -> A -> B) (k : nat)
  (l : list A) : length (mapi_from f k l) = length l.
Proof.
  revert k. induction l as [|a l IH]; intros k; simpl; [|rewrite IH];
    reflexivity.
Qed.

Lemma nth_mapi_from {A B : Type} (f : nat -> A -> B) (k i : nat)
  (l : list A) (d : A) (d' : B) :
  (i < length l)%nat ->
  nth i (mapi_from f k l) d' = f (k + i)%nat (nth i l d).
Proof.
  revert k i. induction l as [|a l IH]; intros k i Hi; simpl in *; [lia|].
  destruct i as [|i].
  - now rewrite Nat.add_0_r.
  - rewrite IH by lia. f_equal. lia.
Qed.

Lemma mapi_from_ext {A B : Type} (f g : nat -> A -> B) (k : nat)
  (l : list A) :
  (forall i a, (k <= i)%nat -> f i a = g i a) ->
  mapi_from f k l = mapi_from g k l.
Proof.
  revert k. induction l as [|a l IH]; intros k H; simpl; [reflexivity|].
  rewrite H by lia. f_equal. apply IH. intros i b Hi. apply H. lia.
Qed.

Lemma map_mapi_from {A B C : Type} (g : B -> C) (f : nat -> A -> B)
  (k : nat) (l : list A) :
  map g (mapi_from f k l) = mapi_from (fun i a => g (f i a)) k l.
Proof.
  revert k. induction l as [|a l IH]; intros k; simpl; [|rewrite IH];
    reflexivity.
Qed.

Lemma mapi_from_map {A B : Type} (f : A -> B) (k : nat) (l : list A) :
  mapi_from (fun _ a => f a) k l = map f l.
Proof.
  revert k. induction l as [|a l IH]; intros k; simpl; [|rewrite IH];
    reflexivity.
Qed.

Lemma set_nth_length {A : Type} (i : nat) (v : A) (l : list A) :
  length (set_nth i v l) = length l.
Proof.
  revert i. induction l as [|a l IH]; intros [|i]; simpl; auto.
Qed.

Lemma nth_set_nth {A : Type} (i j : nat) (v d : A) (l : list A) :
  (i < length l)%nat ->
  nth j (set_nth i v l) d = if (j =? i)%nat then v else nth j l d.
Proof.
  revert i j. induction l as [|a l IH]; intros i j Hi; simpl in *; [lia|].
  destruct i as [|i], j as [|j]; simpl; try reflexivity.
  apply IH. lia.
Qed.

Lemma set_nth_out {A : Type} (i : nat) (v : A) (l : list A) :
  (length l <= i)%nat -> set_nth i v l = l.
Proof.
  revert i. induction l as [|a l IH]; intros [|i] Hi; simpl in *;
    try reflexivity; try lia.
  f_equal. apply IH. lia.
Qed.

(** ** The empirical semivariogram *)

Lemma bumpBin_length (k : nat) (sv : R) (bins : list Bin) :
  length (bumpBin k sv bins) = length bins.
Proof. apply mapi_from_length. Qed.

Lemma nth_bumpBin (k i : nat) (sv : R) (bins : list Bin) :
  (i < length bins)%nat ->
  nth i (bumpBin k sv bins) defaultBin
  = if (i =? k)%nat then addToBin sv (nth i bins defaultBin)
    else nth i bins defaultBin.
Proof.
  intros Hi. unfold bumpBin.
  now rewrite (nth_mapi_from _ 0 i bins defaultBin defaultBin Hi).
Qed.

Lemma bumpBin_distances (k : nat) (sv : R) (bins : list Bin) :
  map bin_distance (bumpBin k sv bins) = map bin_distance bins.
Proof.
  unfold bumpBin. rewrite map_mapi_from.
  rewrite <- (mapi_from_map bin_distance 0 bins).
  apply mapi_from_ext. intros i b _. now destruct (i =? k)%nat.
Qed.

(** The assignment loop when every index is inside the bins: it returns,
    and bin [k] has gained exactly the pairs whose index is [k], in order. *)
Lemma assignPairs_spec (binSize : R) (pairs : list EmpiricalPoint) :
  forall bins : list Bin,
    (forall pr, In pr pairs ->
                (0 <= Math_floor (distance pr / binSize)
                 < Z.of_nat (length bins))%Z) ->
    exists bins',
      assignPairs binSize pairs bins = Returns bins' /\
      length bins' = length bins /\
      map bin_distance bins' = map bin_distance bins /\
      forall k, (k < length bins)%nat ->
        bin_count (nth k bins' defaultBin)
        = (bin_count (nth k bins defaultBin)
           + length (pairsIn binSize k pairs))%nat /\
        bin_sum (nth k bins' defaultBin)
        = fold_left Rplus (map semivariance (pairsIn binSize k pairs))
                    (bin_sum (nth k bins defaultBin)).
Proof.
  induction pairs as [|pr rest IH]; intros bins Hin.
  - exists bins. simpl. repeat split; try reflexivity; lia.
  - assert (Hpr := Hin pr (or_introl eq_refl)).
    simpl.
    replace (Math_floor (distance pr / binSize) <? Z.of_nat (length bins))%Z
      with true by (symmetry; apply Z.ltb_lt; lia).
    replace (Math_floor (distance pr / binSize) <? 0)%Z
      with false by (symmetry; apply Z.ltb_ge; lia).
    set (j := Z.to_nat (Math_floor (distance pr / binSize))).
    destruct (IH (bumpBin j (semivariance pr) bins))
      as (bins' & Hret & Hlen & Hdist & Hk).
    { intros q Hq. rewrite bumpBin_length. apply Hin. now right. }
    exists bins'. rewrite bumpBin_length in Hlen.
    rewrite bumpBin_distances in Hdist.
    repeat split; try assumption.
    + rewrite bumpBin_length in Hk. destruct (Hk k H) as [Hc _].
      rewrite Hc, nth_bumpBin by assumption. unfold pairsIn. simpl.
      destruct (Nat.eqb_spec k j) as [->|Hne].
      * replace (Math_floor (distance pr / binSize) =? Z.of_nat j)%Z
          with true by (symmetry; apply Z.eqb_eq; unfold j; lia).
        simpl. lia.
      * replace (Math_floor (distance pr / binSize) =? Z.of_nat k)%Z
          with false by (symmetry; apply Z.eqb_neq; unfold j in Hne; lia).
        reflexivity.
    + rewrite bumpBin_length in Hk. destruct (Hk k H) as [_ Hs].
      rewrite Hs, nth_bumpBin by assumption. unfold pairsIn. simpl.
      destruct (Nat.eqb_spec k j) as [->|Hne].
      * replace (Math_floor (distance pr / binSize) =? Z.of_nat j)%Z
          with true by (symmetry; apply Z.eqb_eq; unfold j; lia).
        reflexivity.
      * replace (Math_floor (distance pr / binSize) =? Z.of_nat k)%Z
          with false by (symmetry; apply Z.eqb_neq; unfold j in Hne; lia).
        reflexivity.
Qed.

Lemma fold_Rmax_init (l : list R) (a : R) : a <= fold_left Rmax l a.
Proof.
  revert a. induction l as [|b l IH]; intros a; simpl; [lra|].
  apply Rle_trans with (Rmax a b); [apply Rmax_l | apply IH].
Qed.

Lemma fold_Rmax_ge (l : list R) (a x : R) :
  In x (a :: l) -> x <= fold_left Rmax l a.
Proof.
  revert a. induction l as [|b l IH]; intros a Hin; simpl in *.
  - destruct Hin as [->|[]]. lra.
  - destruct Hin as [->|[->|Hin]].
    + apply Rle_trans with (Rmax x b); [apply Rmax_l | apply fold_Rmax_init].
    + apply Rle_trans with (Rmax a x); [apply Rmax_r | apply fold_Rmax_init].
    + apply IH. now right.
Qed.

Lemma fold_Rmax_in (l : list R) (a : R) : In (fold_left Rmax l a) (a :: l).
Proof.
  revert a. induction l as [|b l IH]; intros a; simpl.
  - now left.
  - destruct (IH (Rmax a b)) as [H|H].
    + rewrite <- H. unfold Rmax. destruct (Rle_dec a b); auto.
    + right. now right.
Qed.

Lemma fold_Rmin_init (l : list R) (a : R) : fold_left Rmin l a <= a.
Proof.
  revert a. induction l as [|b l IH]; intros a; simpl; [lra|].
  apply Rle_trans with (Rmin a b); [apply IH | apply Rmin_l].
Qed.

Lemma fold_Rmin_le (l : list R) (a x : R) :
  In x (a :: l) -> fold_left Rmin l a <= x.
Proof.
  revert a. induction l as [|b l IH]; intros a Hin; simpl in *.
  - destruct Hin as [->|[]]. lra.
  - destruct Hin as [->|[->|Hin]].
    + apply Rle_trans with (Rmin x b); [apply fold_Rmin_init | apply Rmin_l].
    + apply Rle_trans with (Rmin a x); [apply fold_Rmin_init | apply Rmin_r].
    + apply IH. now right.
Qed.

Lemma fold_Rmin_in (l : list R) (a : R) : In (fold_left Rmin l a) (a :: l).
Proof.
  revert a. induction l as [|b l IH]; intros a; simpl.
  - now left.
  - destruct (IH (Rmin a b)) as [H|H].
    + rewrite <- H. unfold Rmin. destruct (Rle_dec a b); auto.
    + right. now right.
Qed.

Lemma fold_Rplus_nonneg (l : list R) (a : R) :
  0 <= a -> (forall x, In x l -> 0 <= x) -> 0 <= fold_left Rplus l a.
Proof.
  revert a. induction l as [|b l IH]; intros a Ha Hl; simpl; [assumption|].
  apply IH.
  - assert (0 <= b) by (apply Hl; now left). lra.
  - intros x Hx. apply Hl. now right.
Qed.

Lemma euclid_nonneg (x1 y1 x2 y2 : R) : 0 <= euclid x1 y1 x2 y2.
Proof. unfold euclid. apply sqrt_pos. Qed.

Lemma allPairs_nonneg (samples : list Sample) (pr : EmpiricalPoint) :
  In pr (allPairs samples) -> 0 <= distance pr /\ 0 <= semivariance pr.
Proof.
  induction samples as [|si rest IH]; simpl; [contradiction|].
  intros Hin. apply in_app_or in Hin as [Hin|Hin]; [|now apply IH].
  apply in_map_iff in Hin as (sj & <- & _). simpl. split.
  - apply euclid_nonneg.
  - assert (0 <= (s_z si - s_z sj) * (s_z si - s_z sj)) by apply Rle_0_sqr.
    lra.
Qed.

Lemma allPairs_two (samples : list Sample) :
  (2 <= length samples)%nat -> allPairs samples <> [].
Proof.
  destruct samples as [|a [|b rest]]; simpl; try lia. discriminate.
Qed.

Lemma makeBins_length (maxDistance binSize : R) :
  length (makeBins maxDistance binSize)
  = Z.to_nat (Math_ceil (maxDistance / binSize) + 1).
Proof. unfold makeBins. now rewrite length_map, length_seq. Qed.

Lemma nth_map_seq {B : Type} (f : nat -> B) (s n k : nat) (d : B) :
  (k < n)%nat -> nth k (map f (seq s n)) d = f (s + k)%nat.
Proof.
  intros Hk.
  rewrite (nth_indep _ d (f O)) by (rewrite length_map, length_seq; lia).
  rewrite (map_nth f), seq_nth by assumption. reflexivity.
Qed.

Lemma nth_makeBins (maxDistance binSize : R) (k : nat) :
  (k < length (makeBins maxDistance binSize))%nat ->
  nth k (makeBins maxDistance binSize) defaultBin
  = mkBin ((INR k + 0.5) * binSize) 0 0.
Proof.
  intros Hk. rewrite makeBins_length in Hk. unfold makeBins.
  now rewrite nth_map_seq by assumption.
Qed.

Lemma makeBins_distances (maxDistance binSize : R) :
  map bin_distance (makeBins maxDistance binSize)
  = map (fun i => (INR i + 0.5) * binSize)
        (seq 0 (length (makeBins maxDistance binSize))).
Proof.
  rewrite makeBins_length. unfold makeBins. rewrite map_map. reflexivity.
Qed.

(** With a positive bin width every pair lands inside the bins. *)
Lemma index_in_bins (d maxDistance binSize : R) :
  0 < binSize -> 0 <= d <= maxDistance ->
  (0 <= Math_floor (d / binSize)
   < Z.of_nat (Z.to_nat (Math_ceil (maxDistance / binSize) + 1)))%Z.
Proof.
  intros Hb [Hd0 Hd1].
  assert (Hi : 0 < / binSize) by now apply Rinv_0_lt_compat.
  assert (H0 : 0 <= d / binSize) by (apply Rmult_le_pos; lra).
  assert (H1 : d / binSize <= maxDistance / binSize)
    by (apply Rmult_le_compat_r; lra).
  pose proof (Math_floor_nonneg _ H0).
  pose proof (Math_floor_le_ceil _ _ H1).
  lia.
Qed.

(** The bins of a call with a positive bin width: the call returns, bin [k]
    is labelled [(k + 0.5) * binSize], counts the pairs of index [k] and
    sums their contributions. *)
Lemma semivariogramBins_spec (samples : list Sample) (binSize : R) :
  0 < binSize ->
  exists bins,
    semivariogramBins samples binSize = Returns bins /\
    map bin_distance bins
    = map (fun i => (INR i + 0.5) * binSize) (seq 0 (length bins)) /\
    forall k, (k < length bins)%nat ->
      bin_count (nth k bins defaultBin)
      = length (pairsIn binSize k (allPairs samples)) /\
      bin_sum (nth k bins defaultBin)
      = fold_left Rplus
          (map semivariance (pairsIn binSize k (allPairs samples))) 0.
Proof.
  intros Hb. unfold semivariogramBins.
  destruct (length samples <? 2)%nat.
  { exists []. simpl. repeat split; try reflexivity; lia. }
  destruct (allPairs samples) as [|p ps] eqn:Epairs.
  { exists []. simpl. repeat split; try reflexivity; lia. }
  replace (Req_b binSize 0) with false
    by (symmetry; apply Req_b_false; lra).
  set (maxDistance := fold_left Rmax (map distance ps) (distance p)).
  destruct (assignPairs_spec binSize (p :: ps)
              (makeBins maxDistance binSize))
    as (bins & Hret & Hlen & Hdist & Hk).
  { intros pr Hpr. rewrite makeBins_length.
    apply index_in_bins; [assumption|]. split.
    - apply (allPairs_nonneg samples). now rewrite Epairs.
    - unfold maxDistance. apply fold_Rmax_ge.
      change (distance p :: map distance ps) with (map distance (p :: ps)).
      now apply in_map. }
  exists bins. split; [exact Hret|]. split.
  - rewrite Hdist, Hlen. apply makeBins_distances.
  - intros k Hlt. rewrite Hlen in Hlt. destruct (Hk k Hlt) as [Hc Hs].
    rewrite Hc, Hs, nth_makeBins by assumption. simpl. split; reflexivity.
Qed.

Lemma StronglySorted_map_filter {A : Type} (f : A -> R) (p : A -> bool)
  (l : list A) :
  StronglySorted Rlt (map f l) -> StronglySorted Rlt (map f (filter p l)).
Proof.
  induction l as [|a l IH]; simpl; intros H; [constructor|].
  inversion H as [|? ? Hs Hf]; subst.
  destruct (p a); simpl; [|now apply IH].
  constructor; [now apply IH|].
  rewrite Forall_forall in *. intros x Hx. apply Hf.
  apply in_map_iff in Hx as (b & <- & Hb). apply filter_In in Hb as [Hb _].
  now apply in_map.
Qed.

Lemma midpoints_sorted (binSize : R) (s n : nat) :
  0 < binSize ->
  StronglySorted Rlt (map (fun i => (INR i + 0.5) * binSize) (seq s n)).
Proof.
  intros Hb. revert s. induction n as [|n IH]; intros s; simpl.
  - constructor.
  - constructor; [apply IH|].
    rewrite Forall_forall. intros x Hx.
    apply in_map_iff in Hx as (i & <- & Hi). apply in_seq in Hi.
    assert (INR s < INR i) by (apply lt_INR; lia).
    apply Rmult_lt_compat_r; lra.
Qed.

Lemma filter_nonempty {A : Type} (p : A -> bool) (l : list A) :
  (0 < length (filter p l))%nat -> exists a, In a l /\ p a = true.
Proof.
  destruct (filter p l) as [|a l'] eqn:E; simpl; [lia|]. intros _.
  exists a. apply filter_In. rewrite E. now left.
Qed.

(** The result of a call with a positive bin width: every returned point
    is the midpoint label of a bin that holds at least one pair, with the
    mean contribution of that bin's pairs, and the labels ascend strictly. *)
Lemma calculateSemivariogram_spec (samples : list Sample) (binSize : R) :
  0 < binSize ->
  exists points,
    calculateSemivariogram samples binSize = Returns points /\
    (forall e, In e points ->
       exists k,
         (0 < length (pairsIn binSize k (allPairs samples)))%nat /\
         distance e = (INR k + 0.5) * binSize /\
         semivariance e
         = meanSemivariance (pairsIn binSize k (allPairs samples))) /\
    StronglySorted Rlt (map distance points).
Proof.
  intros Hb.
  destruct (semivariogramBins_spec samples binSize Hb)
    as (bins & Hret & Hdist & Hk).
  unfold calculateSemivariogram. rewrite Hret.
  eexists. split; [reflexivity|]. split.
  - intros e He. apply in_map_iff in He as (b & <- & Hbin).
    apply filter_In in Hbin as [Hin Hpop].
    destruct (In_nth _ _ defaultBin Hin) as (k & Hlt & Hnth).
    destruct (Hk k Hlt) as [Hc Hs]. rewrite Hnth in Hc, Hs.
    exists k. unfold populated in Hpop. apply Nat.ltb_lt in Hpop.
    split; [lia|]. split.
    + simpl. rewrite <- Hnth.
      rewrite <- (map_nth bin_distance), Hdist.
      change (bin_distance defaultBin) with 0.
      now rewrite nth_map_seq.
    + simpl. unfold meanSemivariance. now rewrite Hs, Hc.
  - rewrite map_map. simpl.
    change (fun x : Bin => bin_distance x) with bin_distance.
    apply StronglySorted_map_filter. rewrite Hdist.
    now apply midpoints_sorted.
Qed.

Lemma calculateSemivariogram_few (samples : list Sample) (binSize : R) :
  (length samples < 2)%nat ->
  calculateSemivariogram samples binSize = Returns [].
Proof.
  intros H. unfold calculateSemivariogram, semivariogramBins.
  replace (length samples <? 2)%nat with true
    by (symmetry; now apply Nat.ltb_lt).
  reflexivity.
Qed.

(** C6: with fewer than 2 samples the result is the empty sequence; with
    at least 2 samples and a positive bin width the call returns, every
    returned bin is the bin of at least one pair (and carries the mean of its
    pairs), and the returned distances are strictly ascending. *)
Theorem calculateSemivariogram_bins (samples : list Sample) (binSize : R) :
  ((length samples < 2)%nat ->
   calculateSemivariogram samples binSize = Returns []) /\
  ((2 <= length samples)%nat -> 0 < binSize ->
   exists points,
     calculateSemivariogram samples binSize = Returns points /\
     (forall e, In e points ->
        exists k pr,
          In pr (allPairs samples) /\
          Math_floor (distance pr / binSize) = Z.of_nat k /\
          distance e = (INR k + 0.5) * binSize /\
          semivariance e
          = meanSemivariance (pairsIn binSize k (allPairs samples))) /\
     StronglySorted Rlt (map distance points)).
Proof.
  split; [apply calculateSemivariogram_few|].
  intros _ Hb.
  destruct (calculateSemivariogram_spec samples binSize Hb)
    as (points & Hret & Hpts & Hsorted).
  exists points. repeat split; try assumption.
  intros e He. destruct (Hpts e He) as (k & Hpos & Hd & Hs).
  destruct (filter_nonempty _ _ Hpos) as (pr & Hin & Hidx).
  exists k, pr. apply Z.eqb_eq in Hidx. auto.
Qed.

Lemma calculateSemivariogram_bins_witness :
  let samples := [mkSample 0 0 5; mkSample 3 0 8] in
  exists points,
    calculateSemivariogram samples 3 = Returns points /\
    (forall e, In e points ->
       exists k pr,
         In pr (allPairs samples) /\
         Math_floor (distance pr / 3) = Z.of_nat k /\
         distance e = (INR k + 0.5) * 3 /\
         semivariance e
         = meanSemivariance (pairsIn 3 k (allPairs samples))) /\
    StronglySorted Rlt (map distance points).
Proof.
  apply (proj2 (calculateSemivariogram_bins
                  [mkSample 0 0 5; mkSample 3 0 8] 3)).
  - simpl. lia.
  - lra.
Defined.

(** ** The heuristic fit *)

Lemma fitVariogramParams_valid_on (empirical : list EmpiricalPoint) :
  (forall e, In e empirical -> 0 <= semivariance e /\ 0 < distance e) ->
  valid_params (fitVariogramParams empirical).
Proof.
  intros H. destruct empirical as [|e es]; unfold valid_params; simpl.
  - lra.
  - set (lo := fold_left Rmin (map semivariance es) (semivariance e)).
    set (hi := fold_left Rmax (map semivariance es) (semivariance e)).
    set (far := fold_left Rmax (map distance es) (distance e)).
    assert (Hlo : 0 <= lo).
    { pose proof (fold_Rmin_in (map semivariance es) (semivariance e)) as Hin.
      change (semivariance e :: map semivariance es)
        with (map semivariance (e :: es)) in Hin.
      apply in_map_iff in Hin as (e' & He' & Hin).
      fold lo in He'. rewrite <- He'. now apply H. }
    assert (Hlohi : lo <= hi).
    { apply Rle_trans with (semivariance e);
        [apply fold_Rmin_init | apply fold_Rmax_init]. }
    assert (Hfar : 0 < far).
    { apply Rlt_le_trans with (distance e);
        [apply H; now left | apply fold_Rmax_init]. }
    lra.
Qed.

Lemma meanSemivariance_nonneg (pairs : list EmpiricalPoint) :
  (forall pr, In pr pairs -> 0 <= semivariance pr) ->
  (0 < length pairs)%nat -> 0 <= meanSemivariance pairs.
Proof.
  intros Hp Hlen. unfold meanSemivariance.
  apply Rmult_le_pos.
  - apply fold_Rplus_nonneg; [lra|]. intros x Hx.
    apply in_map_iff in Hx as (pr & <- & Hpr). now apply Hp.
  - left. apply Rinv_0_lt_compat. now apply lt_0_INR.
Qed.

(** C10: for every sample list and positive bin width the semivariogram call
    returns, and the parameters fitted to its result are valid: [nugget >= 0],
    [sill >= nugget] and [range > 0]. *)
Theorem fitVariogramParams_valid (samples : list Sample) (binSize : R) :
  0 < binSize ->
  exists empirical,
    calculateSemivariogram samples binSize = Returns empirical /\
    valid_params (fitVariogramParams empirical).
Proof.
  intros Hb.
  destruct (calculateSemivariogram_spec samples binSize Hb)
    as (points & Hret & Hpts & _).
  exists points. split; [assumption|].
  apply fitVariogramParams_valid_on. intros e He.
  destruct (Hpts e He) as (k & Hpos & Hd & Hs). split.
  - rewrite Hs. apply meanSemivariance_nonneg; [|assumption].
    intros pr Hpr. apply filter_In in Hpr as [Hpr _].
    now apply (allPairs_nonneg samples).
  - rewrite Hd. apply Rmult_lt_0_compat; [|assumption].
    pose proof (pos_INR k). lra.
Qed.

Lemma fitVariogramParams_valid_witness :
  exists empirical,
    calculateSemivariogram [mkSample 0 0 5; mkSample 3 0 8; mkSample 6 0 5] 3
    = Returns empirical /\
    valid_params (fitVariogramParams empirical).
Proof.
  apply (fitVariogramParams_valid
           [mkSample 0 0 5; mkSample 3 0 8; mkSample 6 0 5] 3).
  lra.
Defined.

(** ** The three-sample scenario *)

Lemma euclid_axis (a b y : R) : a <= b -> euclid a y b y = b - a.
Proof.
  intros H. unfold euclid.
  replace ((a - b) * (a - b) + (y - y) * (y - y))
    with ((b - a) * (b - a)) by ring.
  apply sqrt_square. lra.
Qed.

Lemma mkPoint_eq (d d' s s' : R) :
  d = d' -> s = s' -> mkPoint d s = mkPoint d' s'.
Proof. intros -> ->. reflexivity. Qed.

Lemma scenario_pairs :
  allPairs scenario = [mkPoint 3 4.5; mkPoint 6 0; mkPoint 3 4.5].
Proof.
  unfold scenario, allPairs, pairOf. cbn [map app s_x s_y s_z].
  rewrite !euclid_axis by lra.
  repeat (apply (f_equal2 cons); [apply mkPoint_eq; simpl; lra|]).
  reflexivity.
Qed.

(** The bins before the filter: the two pairs at distance 3 are in bin 1,
    which covers [[3, 6)], the pair at distance 6 in bin 2, and bin 0 is
    empty. *)
Lemma scenario_bins :
  semivariogramBins scenario 3
  = Returns [mkBin 1.5 0 0; mkBin 4.5 2 9; mkBin 7.5 1 0].
Proof.
  unfold semivariogramBins. rewrite scenario_pairs.
  change (length scenario <? 2)%nat with false. cbv iota.
  replace (Req_b 3 0) with false by (symmetry; apply Req_b_false; lra).
  cbn [map distance fold_left].
  replace (Rmax (Rmax 3 6) 3) with 6.
  2:{ rewrite (Rmax_right 3 6) by lra. rewrite Rmax_left by lra.
      reflexivity. }
  unfold makeBins.
  replace (6 / 3) with (IZR 2) by lra. rewrite Math_ceil_IZR.
  change (Z.to_nat (2 + 1)) with 3%nat. cbn [seq map].
  cbn [assignPairs distance semivariance].
  replace (3 / 3) with (IZR 1) by lra. replace (6 / 3) with (IZR 2) by lra.
  rewrite !Math_floor_IZR.
  change (Z.to_nat 1) with 1%nat. change (Z.to_nat 2) with 2%nat.
  cbn [length Z.of_nat].
  cbn -[Rplus Rmult Rdiv INR IZR].
  unfold addToBin; cbn [bin_distance bin_count bin_sum].
  replace ((INR 0 + 0.5) * 3) with 1.5 by (simpl; lra).
  replace ((INR 1 + 0.5) * 3) with 4.5 by (simpl; lra).
  replace ((INR 2 + 0.5) * 3) with 7.5 by (simpl; lra).
  replace (0 + 4.5 + 4.5) with 9 by lra.
  replace (0 + 0) with 0 by lra.
  reflexivity.
Qed.

Lemma scenario_points :
  calculateSemivariogram scenario 3
  = Returns [mkPoint 4.5 4.5; mkPoint 7.5 0].
Proof.
  unfold calculateSemivariogram. rewrite scenario_bins.
  cbn [filter populated bin_count Nat.ltb Nat.leb map].
  unfold binPoint; cbn [bin_distance bin_sum bin_count].
  replace (9 / INR 2) with 4.5 by (simpl; lra).
  replace (0 / INR 1) with 0 by (simpl; lra).
  reflexivity.
Qed.

(** C7 as stated fails: the two returned distances are not 3 and 6. *)
Lemma scenario_not_at_3_and_6 :
  ~ (exists sv1 sv2,
       calculateSemivariogram scenario 3
       = Returns [mkPoint 3 sv1; mkPoint 6 sv2]).
Proof.
  intros (sv1 & sv2 & H). rewrite scenario_points in H.
  inversion H as [[H1 H2 H3 H4]]. lra.
Qed.

(** C7, amended: on the samples (0,0,5), (3,0,8), (6,0,5) with bin width 3
    the pairs have distances 3, 6, 3 and contributions 4.5, 0, 4.5;
    [floor(distance / 3)] puts two pairs in bin 1 and one in bin 2; the
    call returns exactly two bins, labelled with the midpoints 4.5 and 7.5,
    with the means 4.5 and 0 of their pairs' contributions. *)
Theorem scenario_semivariogram :
  allPairs scenario = [mkPoint 3 4.5; mkPoint 6 0; mkPoint 3 4.5] /\
  semivariogramBins scenario 3
  = Returns [mkBin 1.5 0 0; mkBin 4.5 2 9; mkBin 7.5 1 0] /\
  calculateSemivariogram scenario 3
  = Returns [mkPoint 4.5 (9 / 2); mkPoint 7.5 (0 / 1)] /\
  pairsIn 3 1 (allPairs scenario) = [mkPoint 3 4.5; mkPoint 3 4.5] /\
  pairsIn 3 2 (allPairs scenario) = [mkPoint 6 0].
Proof.
  split; [exact scenario_pairs|]. split; [exact scenario_bins|]. split.
  - rewrite scenario_points. replace (9 / 2) with 4.5 by lra.
    replace (0 / 1) with 0 by lra. reflexivity.
  - rewrite scenario_pairs. unfold pairsIn. cbn [filter distance].
    replace (3 / 3) with (IZR 1) by lra. replace (6 / 3) with (IZR 2) by lra.
    rewrite !Math_floor_IZR. split; reflexivity.
Qed.

(** ** Gaussian elimination on a system with a repeated row *)

Lemma findPivot_in (matrix : list (list R)) (i maxRow : nat) (ks : list nat) :
  In (findPivot matrix i maxRow ks) (maxRow :: ks).
Proof.
  revert maxRow. induction ks as [|k ks IH]; intros maxRow; simpl.
  - now left.
  - destruct (Rlt_b _ _).
    + right. apply IH.
    + destruct (IH maxRow) as [H|H]; [now left | right; now right].
Qed.

Lemma findPivot_range (matrix : list (list R)) (n i : nat) :
  (i < n)%nat ->
  (i <= findPivot matrix i i (seq (S i) (n - S i)) < n)%nat.
Proof.
  intros Hi.
  destruct (findPivot_in matrix i i (seq (S i) (n - S i))) as [<-|H].
  - lia.
  - apply in_seq in H. lia.
Qed.


Lemma swap_length {A : Type} (d : A) (i j : nat) (l : list A) :
  length (swap d i j l) = length l.
Proof. unfold swap. now rewrite !set_nth_length. Qed.

Lemma nth_swap {A : Type} (d : A) (i j k : nat) (l : list A) :
  (i < length l)%nat -> (j < length l)%nat ->
  nth k (swap d i j l) d = nth (transpose_index i j k) l d.
Proof.
  intros Hi Hj. unfold swap, transpose_index.
  rewrite nth_set_nth by now rewrite set_nth_length.
  destruct (k =? j)%nat; [reflexivity|].
  rewrite nth_set_nth by assumption.
  destruct (Nat.eqb_spec k i) as [->|]; reflexivity.
Qed.

Lemma transpose_index_range (n i j k : nat) :
  (i <= j < n)%nat -> (i <= k < n)%nat ->
  (i <= transpose_index i j k < n)%nat.
Proof.
  intros Hj Hk. unfold transpose_index.
  destruct (k =? j)%nat; [lia|]. destruct (k =? i)%nat; lia.
Qed.

Lemma transpose_index_involutive (i j k : nat) :
  transpose_index i j (transpose_index i j k) = k.
Proof.
  unfold transpose_index.
  destruct (Nat.eqb_spec k j) as [->|Hkj].
  - destruct (Nat.eqb_spec i j) as [->|Hij]; [reflexivity|].
    now rewrite Nat.eqb_refl.
  - destruct (Nat.eqb_spec k i) as [->|Hki].
    + now rewrite Nat.eqb_refl.
    + destruct (Nat.eqb_spec k j); [contradiction|].
      destruct (Nat.eqb_spec k i); [contradiction | reflexivity].
Qed.

Lemma entry_swap (n i m k j : nat) (matrix : list (list R)) :
  length matrix = n -> (i < n)%nat -> (m < n)%nat ->
  entry (swap [] i m matrix) k j = entry matrix (transpose_index i m k) j.
Proof.
  intros Hlen Hi Hm. unfold entry. now rewrite nth_swap by lia.
Qed.

Lemma square_swap (n i m : nat) (matrix : list (list R)) :
  (i < n)%nat -> (i <= m < n)%nat -> square n matrix ->
  square n (swap [] i m matrix).
Proof.
  intros Hi Hm [Hlen Hrows]. split.
  - now rewrite swap_length.
  - intros k Hk. rewrite nth_swap by lia. apply Hrows.
    unfold transpose_index.
    destruct (k =? m)%nat; [lia|]. destruct (k =? i)%nat; lia.
Qed.

Lemma degenerate_swap (n i m : nat) (matrix : list (list R)) :
  (i < n)%nat -> (i <= m < n)%nat -> length matrix = n ->
  degenerate n i matrix -> degenerate n i (swap [] i m matrix).
Proof.
  intros Hi Hm Hlen [(p & q & Hp & Hq & Hpq & Heq) | (p & Hp & Hz)].
  - left. exists (transpose_index i m p), (transpose_index i m q).
    split; [apply transpose_index_range; lia|].
    split; [apply transpose_index_range; lia|]. split.
    + intros E. apply Hpq.
      rewrite <- (transpose_index_involutive i m p),
              <- (transpose_index_involutive i m q).
      now rewrite E.
    + intros j Hj.
      rewrite !(entry_swap n), !transpose_index_involutive by lia.
      now apply Heq.
  - right. exists (transpose_index i m p).
    split; [apply transpose_index_range; lia|].
    intros j Hj.
    rewrite (entry_swap n), transpose_index_involutive by lia.
    now apply Hz.
Qed.

Lemma eliminateRow_length (n i : nat) (factor : R) (pivotRow row : list R) :
  length (eliminateRow n i factor pivotRow row) = length row.
Proof. apply mapi_from_length. Qed.

Lemma nth_eliminateRow (n i j : nat) (factor : R) (pivotRow row : list R) :
  (j < length row)%nat ->
  nth j (eliminateRow n i factor pivotRow row) 0
  = if ((i <=? j) && (j <? n))%nat
    then nth j row 0 - factor * nth j pivotRow 0
    else nth j row 0.
Proof.
  intros Hj. unfold eliminateRow.
  now rewrite (nth_mapi_from _ 0 j row 0 0 Hj).
Qed.

(** The matrix that one pass of the outer loop leaves, entry by entry. *)
Lemma eliminateColumn_entry (n i : nat) (matrix : list (list R))
  (rhs : list R) (matrix' : list (list R)) (rhs' : list R) :
  (i < n)%nat -> square n matrix ->
  eliminateColumn n i matrix rhs = Some (matrix', rhs') ->
  let m1 := swap [] i (findPivot matrix i i (seq (S i) (n - S i))) matrix in
  1e-10 <= Rabs (entry m1 i i) /\
  square n matrix' /\
  forall k j, (k < n)%nat -> (j < n)%nat ->
    entry matrix' k j
    = if ((i <? k) && (i <=? j))%nat
      then entry m1 k j - entry m1 k i / entry m1 i i * entry m1 i j
      else entry m1 k j.
Proof.
  intros Hi Hsq Hstep m1. unfold eliminateColumn in Hstep. fold m1 in Hstep.
  destruct (Rlt_b (Rabs (entry m1 i i)) 1e-10) eqn:Epiv; [discriminate|].
  apply Rlt_b_false in Epiv. inversion Hstep as [[Hm Hr]]. clear Hstep Hr.
  pose proof (findPivot_range matrix n i Hi) as Hmax.
  assert (Hsq1 : square n m1) by (apply square_swap; assumption).
  destruct Hsq1 as [Hlen1 Hrows1].
  split; [assumption|]. split.
  - split.
    + now rewrite mapi_from_length.
    + intros k Hk.
      rewrite (nth_mapi_from _ 0 k m1 [] []) by lia. simpl.
      destruct ((i <? k) && (k <? n))%nat.
      * rewrite eliminateRow_length. now apply Hrows1.
      * now apply Hrows1.
  - intros k j Hk Hj. unfold entry at 1.
    rewrite (nth_mapi_from _ 0 k m1 [] []) by lia. simpl.
    replace (k <? n)%nat with true by (symmetry; now apply Nat.ltb_lt).
    rewrite andb_true_r.
    destruct (i <? k)%nat; simpl; [|reflexivity].
    rewrite nth_eliminateRow by (rewrite Hrows1; lia).
    replace (j <? n)%nat with true by (symmetry; now apply Nat.ltb_lt).
    rewrite andb_true_r. reflexivity.
Qed.

(** One pass keeps the system degenerate, unless it already stops. *)
Lemma eliminateColumn_degenerate (n i : nat) (matrix : list (list R))
  (rhs : list R) :
  (i < n)%nat -> square n matrix -> degenerate n i matrix ->
  eliminateColumn n i matrix rhs = None \/
  exists matrix' rhs',
    eliminateColumn n i matrix rhs = Some (matrix', rhs') /\
    square n matrix' /\ degenerate n (S i) matrix'.
Proof.
  intros Hi Hsq Hdeg.
  destruct (eliminateColumn n i matrix rhs) as [[matrix' rhs']|] eqn:Hstep;
    [right | now left].
  exists matrix', rhs'. split; [reflexivity|].
  destruct (eliminateColumn_entry n i matrix rhs matrix' rhs' Hi Hsq Hstep)
    as (Hpiv & Hsq' & Hentry).
  split; [assumption|].
  pose proof (findPivot_range matrix n i Hi) as Hmax.
  set (m1 := swap [] i (findPivot matrix i i (seq (S i) (n - S i))) matrix)
    in *.
  assert (Hpiv0 : entry m1 i i <> 0).
  { intros E. rewrite E, Rabs_R0 in Hpiv. lra. }
  assert (Hdeg1 : degenerate n i m1)
    by (apply degenerate_swap; try assumption; apply Hsq).
  assert (Hzero : forall p, (i < p < n)%nat ->
            (forall j, (i <= j < n)%nat ->
               entry m1 p j
               = entry m1 p i / entry m1 i i * entry m1 i j) ->
            row_zero n (S i) matrix').
  { intros p Hp Hrow. exists p. split; [lia|]. intros j Hj.
    rewrite Hentry by lia.
    replace (i <? p)%nat with true by (symmetry; apply Nat.ltb_lt; lia).
    replace (i <=? j)%nat with true by (symmetry; apply Nat.leb_le; lia).
    simpl. rewrite (Hrow j) at 1 by lia. lra. }
  destruct Hdeg1 as [(p & q & Hp & Hq & Hpq & Heq) | (p & Hp & Hz)].
  - destruct (Nat.eq_dec p i) as [->|Hpi];
      [|destruct (Nat.eq_dec q i) as [->|Hqi]].
    + right. apply (Hzero q); [lia|]. intros j Hj.
      rewrite <- !Heq by lia. field. assumption.
    + right. apply (Hzero p); [lia|]. intros j Hj.
      rewrite !Heq by lia. field. assumption.
    + left. exists p, q. repeat split; try lia. intros j Hj.
      rewrite !Hentry by lia.
      replace (i <? p)%nat with true by (symmetry; apply Nat.ltb_lt; lia).
      replace (i <? q)%nat with true by (symmetry; apply Nat.ltb_lt; lia).
      replace (i <=? j)%nat with true by (symmetry; apply Nat.leb_le; lia).
      simpl. rewrite (Heq j), (Heq i) by lia. reflexivity.
  - destruct (Nat.eq_dec p i) as [->|Hpi].
    + exfalso. apply Hpiv0. apply Hz. lia.
    + right. apply (Hzero p); [lia|]. intros j Hj.
      rewrite !Hz by lia. unfold Rdiv. ring.
Qed.

(** Forward elimination of a square system with a repeated row stops at a
    pivot below the tolerance. *)
Lemma forwardElimination_degenerate (n m : nat) :
  forall (i : nat) (matrix : list (list R)) (rhs : list R),
    (i + m = n)%nat -> square n matrix -> degenerate n i matrix ->
    forwardElimination n (seq i m) matrix rhs = None.
Proof.
  induction m as [|m IH]; intros i matrix rhs Him Hsq Hdeg.
  - exfalso.
    destruct Hdeg as [(p & q & Hp & _) | (p & Hp & _)]; lia.
  - simpl.
    destruct (eliminateColumn_degenerate n i matrix rhs)
      as [-> | (matrix' & rhs' & -> & Hsq' & Hdeg')];
      try assumption; try lia; [reflexivity|].
    apply IH; [lia | assumption | assumption].
Qed.

Lemma gaussianElimination_repeated_row (A : list (list R)) (b : list R) :
  square (length A) A -> rows_agree (length A) 0 A ->
  gaussianElimination A b = None.
Proof.
  intros Hsq Hrows. unfold gaussianElimination.
  rewrite (forwardElimination_degenerate (length A) (length A) 0 A b);
    [reflexivity | lia | assumption | now left].
Qed.

(** ** The kriging system *)

Lemma krigingRow_length (samples : list Sample) (params : VariogramParams)
  (i : nat) (si : Sample) :
  length (krigingRow samples params i si) = S (length samples).
Proof.
  unfold krigingRow. rewrite length_app, mapi_from_length. simpl. lia.
Qed.

Lemma krigingMatrix_length (samples : list Sample) (params : VariogramParams) :
  length (krigingMatrix samples params) = S (length samples).
Proof.
  unfold krigingMatrix. rewrite length_app, mapi_from_length. simpl. lia.
Qed.

Lemma krigingMatrix_row (samples : list Sample) (params : VariogramParams)
  (i : nat) (si : Sample) :
  nth_error samples i = Some si ->
  nth i (krigingMatrix samples params) [] = krigingRow samples params i si.
Proof.
  intros Hi. assert (Hlt : (i < length samples)%nat)
    by (apply nth_error_Some; congruence).
  unfold krigingMatrix.
  rewrite app_nth1 by now rewrite mapi_from_length.
  rewrite (nth_mapi_from _ 0 i samples si []) by assumption. simpl.
  f_equal. now apply nth_error_nth.
Qed.

Lemma krigingMatrix_last_row (samples : list Sample)
  (params : VariogramParams) :
  nth (length samples) (krigingMatrix samples params) []
  = repeat 1 (length samples) ++ [0].
Proof.
  unfold krigingMatrix.
  rewrite app_nth2 by (rewrite mapi_from_length; lia).
  rewrite mapi_from_length, Nat.sub_diag. reflexivity.
Qed.

Lemma krigingMatrix_square (samples : list Sample) (params : VariogramParams) :
  square (S (length samples)) (krigingMatrix samples params).
Proof.
  split; [apply krigingMatrix_length|].
  intros k Hk. destruct (Nat.eq_dec k (length samples)) as [->|Hne].
  - rewrite krigingMatrix_last_row, length_app, repeat_length. simpl. lia.
  - destruct (nth_error samples k) as [sk|] eqn:Ek.
    + rewrite (krigingMatrix_row _ _ _ _ Ek). apply krigingRow_length.
    + apply nth_error_None in Ek. lia.
Qed.

(** The entries of a sample's row: 0 on the diagonal, the semivariance to
    sample [j] elsewhere, 1 in the Lagrange column. *)
Lemma krigingMatrix_entry (samples : list Sample) (params : VariogramParams)
  (i j : nat) (si sj : Sample) :
  nth_error samples i = Some si -> nth_error samples j = Some sj ->
  entry (krigingMatrix samples params) i j
  = if (i =? j)%nat then 0
    else sphericalVariogram
           (euclid (s_x si) (s_y si) (s_x sj) (s_y sj)) params.
Proof.
  intros Hi Hj. unfold entry. rewrite (krigingMatrix_row _ _ _ _ Hi).
  assert (Hlt : (j < length samples)%nat)
    by (apply nth_error_Some; congruence).
  unfold krigingRow. rewrite app_nth1 by now rewrite mapi_from_length.
  rewrite (nth_mapi_from _ 0 j samples sj 0) by assumption. simpl.
  now rewrite (nth_error_nth _ _ _ Hj).
Qed.

Lemma krigingMatrix_entry_lagrange (samples : list Sample)
  (params : VariogramParams) (i : nat) (si : Sample) :
  nth_error samples i = Some si ->
  entry (krigingMatrix samples params) i (length samples) = 1.
Proof.
  intros Hi. unfold entry. rewrite (krigingMatrix_row _ _ _ _ Hi).
  unfold krigingRow. rewrite app_nth2 by (rewrite mapi_from_length; lia).
  now rewrite mapi_from_length, Nat.sub_diag.
Qed.

Lemma euclid_same (x y : R) : euclid x y x y = 0.
Proof.
  unfold euclid.
  replace ((x - x) * (x - x) + (y - y) * (y - y)) with 0 by ring.
  apply sqrt_0.
Qed.

(** Two samples at one location give the system two equal rows. *)
Lemma krigingMatrix_repeated_row (samples : list Sample)
  (params : VariogramParams) (p q : nat) (sp sq : Sample) :
  nth_error samples p = Some sp -> nth_error samples q = Some sq ->
  p <> q -> location sp = location sq ->
  rows_agree (S (length samples)) 0 (krigingMatrix samples params).
Proof.
  intros Hp Hq Hpq Hloc.
  assert (Hpl : (p < length samples)%nat)
    by (apply nth_error_Some; congruence).
  assert (Hql : (q < length samples)%nat)
    by (apply nth_error_Some; congruence).
  unfold location in Hloc. inversion Hloc as [[Hx Hy]].
  exists p, q. split; [lia|]. split; [lia|]. split; [assumption|].
  intros j Hj. destruct (Nat.eq_dec j (length samples)) as [->|Hne].
  - now rewrite (krigingMatrix_entry_lagrange _ _ _ _ Hp),
                (krigingMatrix_entry_lagrange _ _ _ _ Hq).
  - destruct (nth_error samples j) as [sj|] eqn:Ej.
    2:{ apply nth_error_None in Ej. lia. }
    rewrite (krigingMatrix_entry _ _ _ _ _ _ Hp Ej),
            (krigingMatrix_entry _ _ _ _ _ _ Hq Ej).
    rewrite Hx, Hy.
    destruct (Nat.eqb_spec p j) as [->|Hpj];
      destruct (Nat.eqb_spec q j) as [->|Hqj].
    + contradiction.
    + assert (sj = sp) by congruence. subst sj.
      now rewrite Hx, Hy, euclid_same, sphericalVariogram_zero.
    + assert (sj = sq) by congruence. subst sj.
      now rewrite euclid_same, sphericalVariogram_zero.
    + reflexivity.
Qed.

Lemma find_none_iff {A : Type} (f : A -> bool) (l : list A) :
  find f l = None <-> forall a, In a l -> f a = false.
Proof.
  split.
  - apply find_none.
  - induction l as [|a l IH]; intros H; simpl; [reflexivity|].
    rewrite (H a) by now left. apply IH. intros b Hb. apply H. now right.
Qed.

(** [krigePoint] when no sample is at the query point and the solver gives
    up. *)
Lemma krigePoint_singular (x y : R) (samples : list Sample)
  (params : VariogramParams) :
  (forall s, In s samples -> atLocation x y s = false) ->
  gaussianElimination (krigingMatrix samples params)
                      (krigingRhs x y samples params) = None ->
  krigePoint x y samples params = inverseDistanceWeighting x y samples.
Proof.
  intros Hnone Hge. unfold krigePoint. destruct samples as [|s0 rest].
  - unfold inverseDistanceWeighting. simpl.
    replace (Rlt_b 0 0) with false by (symmetry; apply Rlt_b_false; lra).
    reflexivity.
  - apply find_none_iff in Hnone. rewrite Hnone, Hge. reflexivity.
Qed.

(** The solver gives up on the system of a list with two samples at one
    location, whatever the query point. *)
Lemma krigingSystem_singular (x y : R) (samples : list Sample)
  (params : VariogramParams) (p q : nat) (sp sq : Sample) :
  nth_error samples p = Some sp -> nth_error samples q = Some sq ->
  p <> q -> location sp = location sq ->
  gaussianElimination (krigingMatrix samples params)
                      (krigingRhs x y samples params) = None.
Proof.
  intros Hp Hq Hpq Hloc.
  apply gaussianElimination_repeated_row; rewrite krigingMatrix_length.
  - apply krigingMatrix_square.
  - now apply (krigingMatrix_repeated_row samples params p q sp sq).
Qed.

(** [return null] is reached only through the pivot test: after some
    columns were eliminated, the pivot of the next one is below 1e-10. *)
Lemma forwardElimination_none (n : nat) (cols : list nat) :
  forall (matrix : list (list R)) (rhs : list R),
    forwardElimination n cols matrix rhs = None ->
    exists done i rest matrix' rhs',
      cols = done ++ i :: rest /\
      forwardElimination n done matrix rhs = Some (matrix', rhs') /\
      Rabs (entry (swap [] i (findPivot matrix' i i (seq (S i) (n - S i)))
                        matrix') i i) < 1e-10.
Proof.
  induction cols as [|i cols IH]; intros matrix rhs H; simpl in H;
    [discriminate|].
  destruct (eliminateColumn n i matrix rhs) as [[m1 r1]|] eqn:Hstep.
  - destruct (IH m1 r1 H) as (done & i' & rest & m' & r' & -> & Hfwd & Hp).
    exists (i :: done), i', rest, m', r'. simpl. rewrite Hstep.
    repeat split; assumption.
  - exists [], i, cols, matrix, rhs. repeat split.
    unfold eliminateColumn in Hstep.
    destruct (Rlt_b _ _) eqn:E; [now apply Rlt_b_true in E | discriminate].
Qed.

(** C2, amended: when two samples of the list share a location and the
    query point is not the location of any sample, the kriging system is
    singular for the solver (after some columns, forward elimination with
    partial pivoting meets a pivot of magnitude below 1e-10 and returns
    null) and [krigePoint] returns the inverse-distance-weighting result, a
    real number. *)
Theorem krigePoint_duplicate_fallback (x y : R) (samples : list Sample)
  (params : VariogramParams) (p q : nat) (sp sq : Sample) :
  nth_error samples p = Some sp -> nth_error samples q = Some sq ->
  p <> q -> location sp = location sq ->
  (forall s, In s samples -> atLocation x y s = false) ->
  let A := krigingMatrix samples params in
  let b := krigingRhs x y samples params in
  gaussianElimination A b = None /\
  (exists done i rest matrix rhs,
      seq 0 (length A) = done ++ i :: rest /\
      forwardElimination (length A) done A b = Some (matrix, rhs) /\
      Rabs (entry (swap [] i
                     (findPivot matrix i i (seq (S i) (length A - S i)))
                     matrix) i i) < 1e-10) /\
  krigePoint x y samples params = inverseDistanceWeighting x y samples.
Proof.
  intros Hp Hq Hpq Hloc Hnone A b.
  pose proof (krigingSystem_singular x y samples params p q sp sq
                Hp Hq Hpq Hloc) as Hge.
  split; [assumption|]. split; [|now apply krigePoint_singular].
  apply forwardElimination_none. fold A b in Hge.
  unfold gaussianElimination in Hge.
  destruct (forwardElimination (length A) (seq 0 (length A)) A b)
    as [[U c]|]; [discriminate | reflexivity].
Qed.

Lemma euclid_axis_rev (a b y : R) : b <= a -> euclid a y b y = a - b.
Proof.
  intros H. unfold euclid.
  replace ((a - b) * (a - b) + (y - y) * (y - y))
    with ((a - b) * (a - b)) by ring.
  apply sqrt_square. lra.
Qed.

Lemma atLocation_false_x (x y : R) (s : Sample) :
  s_x s <> x -> atLocation x y s = false.
Proof.
  intros H. unfold atLocation.
  replace (Req_b (s_x s) x) with false by (symmetry; now apply Req_b_false).
  reflexivity.
Qed.

Lemma krigePoint_duplicate_fallback_witness :
  let samples := [mkSample 0 0 1; mkSample 0 0 2] in
  let A := krigingMatrix samples (mkParams 0 30 20) in
  let b := krigingRhs 1 0 samples (mkParams 0 30 20) in
  gaussianElimination A b = None /\
  (exists done i rest matrix rhs,
      seq 0 (length A) = done ++ i :: rest /\
      forwardElimination (length A) done A b = Some (matrix, rhs) /\
      Rabs (entry (swap [] i
                     (findPivot matrix i i (seq (S i) (length A - S i)))
                     matrix) i i) < 1e-10) /\
  krigePoint 1 0 samples (mkParams 0 30 20)
  = inverseDistanceWeighting 1 0 samples.
Proof.
  apply (krigePoint_duplicate_fallback 1 0
           [mkSample 0 0 1; mkSample 0 0 2] (mkParams 0 30 20)
           0 1 (mkSample 0 0 1) (mkSample 0 0 2)).
  - reflexivity.
  - reflexivity.
  - discriminate.
  - reflexivity.
  - intros s [<-|[<-|[]]]; apply atLocation_false_x; simpl; lra.
Defined.

(** The fallback value on that input: both samples are at distance 1, so the
    weights are equal and the result is the mean of 1 and 2. *)
Lemma inverseDistanceWeighting_two :
  inverseDistanceWeighting 1 0 [mkSample 0 0 1; mkSample 0 0 2] = 1.5.
Proof.
  unfold inverseDistanceWeighting, idwLoop. cbn [s_x s_y s_z].
  rewrite !euclid_axis_rev by lra.
  replace (Rlt_b (1 - 0) 0.001) with false
    by (symmetry; apply Rlt_b_false; lra).
  replace (Rlt_b 0 (0 + 1 / ((1 - 0) * (1 - 0)) + 1 / ((1 - 0) * (1 - 0))))
    with true by (symmetry; apply Rlt_b_true; lra).
  lra.
Qed.

(** A list with two samples at (5,5) and a query at (0,0): the second sample
    is exactly there, the first is within 0.001 of it. *)
Lemma krigePoint_shortcut_first :
  krigePoint 0 0 nearby_and_duplicates (mkParams 0 30 20) = 1.
Proof.
  apply (krigePoint_found 0 0 _ _ (mkSample 0 0 1)).
  unfold nearby_and_duplicates. cbn [find].
  rewrite atLocation_false_x by (simpl; lra).
  replace (atLocation 0 0 (mkSample 0 0 1)) with true; [reflexivity|].
  symmetry. apply atLocation_true. split; reflexivity.
Qed.

Lemma inverseDistanceWeighting_nearby :
  inverseDistanceWeighting 0 0 nearby_and_duplicates = 7.
Proof.
  unfold inverseDistanceWeighting, nearby_and_duplicates, idwLoop.
  cbn [s_x s_y s_z]. rewrite euclid_axis by lra.
  replace (Rlt_b (0.0005 - 0) 0.001) with true
    by (symmetry; apply Rlt_b_true; lra).
  reflexivity.
Qed.

(** C2 as stated fails at a query point that is another sample's location:
    [krigePoint] returns that sample's value before any system is built, and
    it is not the inverse-distance-weighting result. *)
Lemma krigePoint_duplicate_not_always_fallback :
  ~ (forall (x y : R) (samples : list Sample) (params : VariogramParams)
            (p q : nat) (sp sq : Sample),
        nth_error samples p = Some sp -> nth_error samples q = Some sq ->
        p <> q -> location sp = location sq -> s_z sp <> s_z sq ->
        (x, y) <> location sp ->
        gaussianElimination (krigingMatrix samples params)
                            (krigingRhs x y samples params) = None /\
        krigePoint x y samples params
        = inverseDistanceWeighting x y samples).
Proof.
  intros H.
  destruct (H 0 0 nearby_and_duplicates (mkParams 0 30 20) 2%nat 3%nat
              (mkSample 5 5 2) (mkSample 5 5 3)) as [_ E].
  - reflexivity.
  - reflexivity.
  - discriminate.
  - reflexivity.
  - simpl. lra.
  - unfold location. simpl. intros E. inversion E. lra.
  - rewrite krigePoint_shortcut_first, inverseDistanceWeighting_nearby in E.
    lra.
Qed.

(** ** Order of the samples: exact match and fallback *)

Lemma Rsum_permutation (l1 l2 : list R) :
  Permutation l1 l2 -> Rsum l1 = Rsum l2.
Proof.
  induction 1; simpl; lra.
Qed.

Lemma Rsum_map_permutation {A : Type} (f : A -> R) (l1 l2 : list A) :
  Permutation l1 l2 -> Rsum (map f l1) = Rsum (map f l2).
Proof.
  intros H. apply Rsum_permutation. now apply Permutation_map.
Qed.

Lemma Rsum_map_ext {A : Type} (f g : A -> R) (l : list A) :
  (forall a, In a l -> f a = g a) -> Rsum (map f l) = Rsum (map g l).
Proof.
  induction l as [|a l IH]; intros H; simpl; [reflexivity|].
  rewrite (H a) by now left. rewrite IH; [reflexivity|].
  intros b Hb. apply H. now right.
Qed.

Lemma distinct_locations_consistent (x y : R) (samples : list Sample) :
  distinct_locations samples -> consistent_at x y samples.
Proof.
  intros Hnd s t Hs Ht Has Hat. f_equal.
  apply (distinct_locations_same samples); auto.
  apply atLocation_location in Has, Hat. congruence.
Qed.

(** The exact-match loop does not depend on the order when the samples at
    the query point carry one value. *)
Lemma krigePoint_exact_permutation (x y : R) (samples samples' : list Sample)
  (params : VariogramParams) (s : Sample) :
  Permutation samples samples' -> consistent_at x y samples ->
  In s samples -> atLocation x y s = true ->
  krigePoint x y samples params = s_z s /\
  krigePoint x y samples' params = s_z s.
Proof.
  intros Hperm Hcons Hin Hat.
  assert (Hone : forall l, (forall t, In t l -> In t samples) -> In s l ->
                           krigePoint x y l params = s_z s).
  { intros l Hsub Hl.
    destruct (find_first _ _ _ Hl Hat) as (l1 & a0 & l2 & Heq & Ha0 & _ & Hf).
    rewrite (krigePoint_found _ _ _ _ _ Hf). apply Hcons; auto.
    apply Hsub. rewrite Heq. apply in_or_app. right. now left. }
  split.
  - apply Hone; auto.
  - apply Hone.
    + intros t Ht. apply (Permutation_in t (Permutation_sym Hperm) Ht).
    + apply (Permutation_in s Hperm Hin).
Qed.

Lemma idwLoop_near (x y : R) (samples : list Sample) (s : Sample) :
  forall totalWeight weightedSum,
    consistent_near x y samples -> In s samples -> near x y s ->
    idwLoop x y samples totalWeight weightedSum = s_z s.
Proof.
  induction samples as [|a l IH]; intros tw ws Hcons Hin Hnear;
    [contradiction|].
  simpl. destruct (Rlt_b _ _) eqn:E.
  - apply Rlt_b_true in E. apply Hcons; auto. now left.
  - destruct Hin as [->|Hin].
    + apply Rlt_b_false in E. unfold near in Hnear. lra.
    + apply IH; try assumption.
      intros u v Hu Hv. apply Hcons; now right.
Qed.

Lemma idwLoop_far (x y : R) (samples : list Sample) :
  forall totalWeight weightedSum,
    (forall s, In s samples -> ~ near x y s) ->
    idwLoop x y samples totalWeight weightedSum
    = if Rlt_b 0 (totalWeight + Rsum (map (idwWeight x y) samples))
      then (weightedSum
            + Rsum (map (fun s => idwWeight x y s * s_z s) samples))
           / (totalWeight + Rsum (map (idwWeight x y) samples))
      else 0.
Proof.
  induction samples as [|a l IH]; intros tw ws Hfar; simpl.
  - now rewrite !Rplus_0_r.
  - replace (Rlt_b (euclid x y (s_x a) (s_y a)) 0.001) with false.
    2:{ symmetry. apply Rlt_b_false. apply Rnot_lt_le.
        apply (Hfar a). now left. }
    rewrite IH by (intros s Hs; apply Hfar; now right).
    fold (idwWeight x y a). now rewrite <- !Rplus_assoc.
Qed.

(** The fallback does not depend on the order when the samples within
    0.001 of the query carry one value. *)
Lemma inverseDistanceWeighting_permutation (x y : R)
  (samples samples' : list Sample) :
  Permutation samples samples' -> consistent_near x y samples ->
  inverseDistanceWeighting x y samples
  = inverseDistanceWeighting x y samples'.
Proof.
  intros Hperm Hcons. unfold inverseDistanceWeighting.
  assert (Hcons' : consistent_near x y samples').
  { intros s t Hs Ht. apply Hcons;
      apply (Permutation_in _ (Permutation_sym Hperm)); assumption. }
  destruct (Exists_dec (near x y) samples) as [Hex|Hnone].
  { intros s. apply Rlt_dec. }
  - apply Exists_exists in Hex as (s & Hin & Hnear).
    rewrite (idwLoop_near x y samples s) by assumption.
    rewrite (idwLoop_near x y samples' s); try assumption; [reflexivity|].
    apply (Permutation_in s Hperm Hin).
  - assert (Hfar : forall s, In s samples -> ~ near x y s).
    { intros s Hs Hn. apply Hnone. apply Exists_exists. eauto. }
    rewrite !idwLoop_far.
    + rewrite (Rsum_map_permutation (idwWeight x y) _ _ Hperm).
      now rewrite (Rsum_map_permutation
                     (fun s => idwWeight x y s * s_z s) _ _ Hperm).
    + intros s Hs. apply Hfar.
      apply (Permutation_in s (Permutation_sym Hperm) Hs).
    + assumption.
Qed.

(** ** Gaussian elimination solves the system *)

Lemma Rsum_map_combine {A : Type} (f g : A -> R) (c : R) (l : list A) :
  Rsum (map (fun a => f a - c * g a) l)
  = Rsum (map f l) - c * Rsum (map g l).
Proof.
  induction l as [|a l IH]; simpl; [lra | rewrite IH; lra].
Qed.

Lemma Rsum_map_zero {A : Type} (f : A -> R) (l : list A) :
  (forall a, In a l -> f a = 0) -> Rsum (map f l) = 0.
Proof.
  induction l as [|a l IH]; intros H; simpl; [reflexivity|].
  rewrite (H a) by now left. rewrite IH; [lra|].
  intros b Hb. apply H. now right.
Qed.

Lemma rowDot_ext (n : nat) (M M' : list (list R)) (v v' : list R)
  (k k' : nat) :
  (forall j, (j < n)%nat ->
             entry M k j * nth j v 0 = entry M' k' j * nth j v' 0) ->
  rowDot n M v k = rowDot n M' v' k'.
Proof.
  intros H. unfold rowDot. apply Rsum_map_ext.
  intros j Hj. apply in_seq in Hj. apply H. lia.
Qed.

Lemma transpose_index_low (i m k : nat) :
  (i <= m)%nat -> (k < i)%nat -> transpose_index i m k = k.
Proof.
  intros Hm Hk. unfold transpose_index.
  destruct (Nat.eqb_spec k m); [lia|]. destruct (Nat.eqb_spec k i); [lia|].
  reflexivity.
Qed.

Lemma transpose_index_pivot (i m : nat) : transpose_index i m i = m.
Proof.
  unfold transpose_index. destruct (Nat.eqb_spec i m) as [->|];
    [reflexivity|]. now rewrite Nat.eqb_refl.
Qed.

(** The right-hand side that one pass of the outer loop leaves. *)
Lemma eliminateColumn_rhs (n i : nat) (matrix : list (list R))
  (rhs : list R) (matrix' : list (list R)) (rhs' : list R) :
  (i < n)%nat -> square n matrix -> length rhs = n ->
  eliminateColumn n i matrix rhs = Some (matrix', rhs') ->
  let r := findPivot matrix i i (seq (S i) (n - S i)) in
  let m1 := swap [] i r matrix in
  length rhs' = n /\
  forall k, (k < n)%nat ->
    nth k rhs' 0
    = if (i <? k)%nat
      then nth (transpose_index i r k) rhs 0
           - entry m1 k i / entry m1 i i * nth r rhs 0
      else nth (transpose_index i r k) rhs 0.
Proof.
  intros Hi Hsq Hlen Hstep r m1. unfold eliminateColumn in Hstep.
  fold r in Hstep. fold m1 in Hstep.
  destruct (Rlt_b (Rabs (entry m1 i i)) 1e-10); [discriminate|].
  inversion Hstep as [[Hm Hr]]. clear Hstep Hm.
  pose proof (findPivot_range matrix n i Hi) as Hmax. fold r in Hmax.
  split.
  - now rewrite mapi_from_length, swap_length.
  - intros k Hk.
    rewrite (nth_mapi_from _ 0 k _ 0 0) by (rewrite swap_length; lia).
    simpl.
    replace (k <? n)%nat with true by (symmetry; now apply Nat.ltb_lt).
    rewrite andb_true_r, !nth_swap by lia.
    now rewrite transpose_index_pivot.
Qed.

(** One pass of the outer loop keeps the solutions of the system. *)
Lemma eliminateColumn_sound (n i : nat) (matrix : list (list R))
  (rhs : list R) (matrix' : list (list R)) (rhs' : list R) :
  (i < n)%nat -> eliminated n i matrix rhs ->
  eliminateColumn n i matrix rhs = Some (matrix', rhs') ->
  eliminated n (S i) matrix' rhs' /\
  forall v, solves n matrix rhs v <-> solves n matrix' rhs' v.
Proof.
  intros Hi (Hsq & Hlen & Hlow & Hdiag) Hstep.
  destruct (eliminateColumn_entry n i matrix rhs matrix' rhs' Hi Hsq Hstep)
    as (Hpiv & Hsq' & Hentry).
  destruct (eliminateColumn_rhs n i matrix rhs matrix' rhs' Hi Hsq Hlen Hstep)
    as (Hlen' & Hrhs).
  pose proof (findPivot_range matrix n i Hi) as Hmax.
  set (r := findPivot matrix i i (seq (S i) (n - S i))) in *.
  set (m1 := swap [] i r matrix) in *.
  assert (Hpiv0 : entry m1 i i <> 0).
  { intros E. rewrite E, Rabs_R0 in Hpiv. lra. }
  assert (Hm1 : forall k j, entry m1 k j
                            = entry matrix (transpose_index i r k) j).
  { intros k j. apply (entry_swap n); try lia. apply Hsq. }
  assert (Hlow1 : forall k j, (j < i)%nat -> (j < k < n)%nat ->
                              entry m1 k j = 0).
  { intros k j Hj Hk. rewrite Hm1. apply Hlow; [assumption|].
    destruct (Nat.lt_ge_cases k i) as [Hki|Hki].
    - rewrite transpose_index_low by lia. lia.
    - pose proof (transpose_index_range n i r k). lia. }
  split.
  - split; [assumption|]. split; [assumption|]. split.
    + intros k j Hj Hk. rewrite Hentry by lia.
      destruct (Nat.ltb_spec i k) as [Hik|Hik];
        destruct (Nat.leb_spec i j) as [Hij|Hij]; simpl;
        try (apply Hlow1; lia).
      assert (j = i) by lia. subst j. field. assumption.
    + intros k Hk. rewrite Hentry by lia.
      replace (i <? k)%nat with false by (symmetry; apply Nat.ltb_ge; lia).
      simpl. destruct (Nat.eq_dec k i) as [->|Hne]; [assumption|].
      rewrite Hm1, transpose_index_low by lia. apply Hdiag. lia.
  - intros v.
    assert (Hrow1 : forall k, (k < n)%nat ->
              rowDot n m1 v k = rowDot n matrix v (transpose_index i r k)).
    { intros k Hk. apply rowDot_ext. intros j Hj. now rewrite Hm1. }
    assert (Hrow' : forall k, (k < n)%nat ->
              rowDot n matrix' v k
              = if (i <? k)%nat
                then rowDot n m1 v k
                     - entry m1 k i / entry m1 i i * rowDot n m1 v i
                else rowDot n m1 v k).
    { intros k Hk. destruct (Nat.ltb_spec i k) as [Hik|Hik].
      - unfold rowDot. rewrite <- Rsum_map_combine. apply Rsum_map_ext.
        intros j Hj. apply in_seq in Hj. rewrite Hentry by lia.
        replace (i <? k)%nat with true by (symmetry; apply Nat.ltb_lt; lia).
        destruct (Nat.leb_spec i j) as [Hij|Hij]; simpl; [ring|].
        rewrite (Hlow1 i j) by lia. ring.
      - apply rowDot_ext. intros j Hj. rewrite Hentry by lia.
        replace (i <? k)%nat with false by (symmetry; apply Nat.ltb_ge; lia).
        reflexivity. }
    assert (Hpivot_row : rowDot n m1 v i = rowDot n matrix v r).
    { rewrite Hrow1 by lia. now rewrite transpose_index_pivot. }
    split.
    + intros Hsol k Hk. rewrite Hrow', Hrhs by assumption.
      pose proof (transpose_index_range n i r) as Hrange.
      destruct (Nat.ltb_spec i k) as [Hik|Hik].
      * rewrite Hpivot_row, Hrow1 by assumption.
        rewrite (Hsol r) by lia.
        rewrite (Hsol (transpose_index i r k)); [reflexivity|].
        specialize (Hrange k). lia.
      * rewrite Hrow1 by assumption. apply Hsol.
        destruct (Nat.eq_dec k i) as [->|Hne].
        -- rewrite transpose_index_pivot. lia.
        -- rewrite transpose_index_low by lia. lia.
    + intros Hsol.
      assert (Hr : rowDot n matrix v r = nth r rhs 0).
      { specialize (Hsol i Hi). rewrite Hrow', Hrhs in Hsol by assumption.
        rewrite Nat.ltb_irrefl in Hsol.
        now rewrite Hpivot_row, transpose_index_pivot in Hsol. }
      assert (Hall : forall k, (k < n)%nat ->
                rowDot n matrix v (transpose_index i r k)
                = nth (transpose_index i r k) rhs 0).
      { intros k Hk. specialize (Hsol k Hk).
        rewrite Hrow', Hrhs in Hsol by assumption.
        destruct (i <? k)%nat.
        - rewrite Hpivot_row, Hr, Hrow1 in Hsol by assumption. lra.
        - now rewrite Hrow1 in Hsol by assumption. }
      intros k Hk. rewrite <- (transpose_index_involutive i r k).
      apply Hall. unfold transpose_index.
      destruct (k =? r)%nat; [lia|]. destruct (k =? i)%nat; lia.
Qed.

Lemma forwardElimination_sound (n m : nat) :
  forall (i : nat) (matrix : list (list R)) (rhs : list R)
         (U : list (list R)) (c : list R),
    (i + m = n)%nat -> eliminated n i matrix rhs ->
    forwardElimination n (seq i m) matrix rhs = Some (U, c) ->
    eliminated n n U c /\
    forall v, solves n matrix rhs v <-> solves n U c v.
Proof.
  induction m as [|m IH]; intros i matrix rhs U c Him Hel Hfwd.
  - simpl in Hfwd. inversion Hfwd; subst.
    replace (i + 0)%nat with i in * by lia.
    split; [assumption | intros v; reflexivity].
  - simpl in Hfwd.
    destruct (eliminateColumn n i matrix rhs) as [[matrix' rhs']|] eqn:Hstep;
      [|discriminate].
    destruct (eliminateColumn_sound n i matrix rhs matrix' rhs')
      as [Hel' Hsol]; try assumption; try lia.
    destruct (IH (S i) matrix' rhs' U c) as [HelU HsolU];
      try assumption; try lia.
    split; [assumption|].
    intros v. rewrite Hsol. apply HsolU.
Qed.

Lemma fold_left_minus {A : Type} (g : A -> R) (l : list A) (a : R) :
  fold_left (fun s j => s - g j) l a = a - Rsum (map g l).
Proof.
  revert a. induction l as [|b l IH]; intros a; simpl; [lra|].
  rewrite IH. lra.
Qed.

(** Back substitution, entry by entry: once the indices from [m] down to 0
    are processed, entry [i < m] is the quotient the loop assigns and the
    entries from [m] on are untouched. *)
Lemma backSubstitution_fold (n : nat) (U : list (list R)) (c : list R)
  (m : nat) :
  forall solution : list R,
    length solution = n -> (m <= n)%nat ->
    let x := fold_left (backStep n U c) (rev (seq 0 m)) solution in
    length x = n /\
    (forall j, (m <= j)%nat -> nth j x 0 = nth j solution 0) /\
    (forall i, (i < m)%nat ->
       nth i x 0
       = (nth i c 0
          - Rsum (map (fun j => entry U i j * nth j x 0)
                      (seq (S i) (n - S i))))
         / entry U i i).
Proof.
  induction m as [|m IH]; intros solution Hlen Hm x.
  - subst x. simpl. repeat split; try assumption; try reflexivity.
    intros i Hi. lia.
  - subst x. rewrite seq_S, rev_app_distr. simpl.
    set (sol1 := backStep n U c solution m).
    assert (Hlen1 : length sol1 = n)
      by (unfold sol1, backStep; now rewrite set_nth_length).
    destruct (IH sol1 Hlen1 ltac:(lia)) as (Hl & Hhigh & Hlow).
    set (x := fold_left (backStep n U c) (rev (seq 0 m)) sol1) in *.
    assert (Hsol1 : forall j, nth j sol1 0
              = if (j =? m)%nat
                then (nth m c 0
                      - Rsum (map (fun j => entry U m j * nth j solution 0)
                                  (seq (S m) (n - S m))))
                     / entry U m m
                else nth j solution 0).
    { intros j. unfold sol1, backStep.
      rewrite nth_set_nth by lia. now rewrite fold_left_minus. }
    split; [assumption|]. split.
    + intros j Hj. rewrite Hhigh by lia. rewrite Hsol1.
      replace (j =? m)%nat with false by (symmetry; apply Nat.eqb_neq; lia).
      reflexivity.
    + intros i Hi. destruct (Nat.eq_dec i m) as [->|Hne].
      * rewrite Hhigh by lia. rewrite Hsol1, Nat.eqb_refl.
        f_equal. f_equal. apply Rsum_map_ext. intros j Hj.
        apply in_seq in Hj. rewrite Hhigh by lia. rewrite Hsol1.
        replace (j =? m)%nat with false
          by (symmetry; apply Nat.eqb_neq; lia).
        reflexivity.
      * apply Hlow. lia.
Qed.

Lemma backSubstitution_spec (n : nat) (U : list (list R)) (c : list R) :
  let x := backSubstitution n U c in
  length x = n /\
  forall i, (i < n)%nat ->
    nth i x 0
    = (nth i c 0
       - Rsum (map (fun j => entry U i j * nth j x 0) (seq (S i) (n - S i))))
      / entry U i i.
Proof.
  destruct (backSubstitution_fold n U c n (repeat 0 n))
    as (Hl & _ & Hlow); [apply repeat_length | lia |].
  split; assumption.
Qed.

(** A row of an upper-triangular system: diagonal term plus the tail. *)
Lemma rowDot_upper (n : nat) (U : list (list R)) (v : list R) (i : nat) :
  (i < n)%nat -> lower_zero n n U ->
  rowDot n U v i
  = entry U i i * nth i v 0
    + Rsum (map (fun j => entry U i j * nth j v 0) (seq (S i) (n - S i))).
Proof.
  intros Hi Hlow. unfold rowDot.
  assert (E : seq 0 (i + S (n - S i)) = seq 0 i ++ [i] ++ seq (S i) (n - S i))
    by (rewrite seq_app; reflexivity).
  replace (i + S (n - S i))%nat with n in E by lia. rewrite E.
  rewrite !map_app, !Rsum_app.
  rewrite Rsum_map_zero.
  - simpl. lra.
  - intros j Hj. apply in_seq in Hj. rewrite (Hlow i j) by lia. ring.
Qed.

Lemma backSubstitution_solves (n : nat) (U : list (list R)) (c : list R) :
  lower_zero n n U -> diag_nonzero n U ->
  solves n U c (backSubstitution n U c).
Proof.
  intros Hlow Hdiag i Hi.
  destruct (backSubstitution_spec n U c) as [_ Hx].
  rewrite rowDot_upper by assumption.
  rewrite (Hx i Hi) at 1. field. now apply Hdiag.
Qed.

Lemma upper_solution_unique (n : nat) (U : list (list R)) (c v w : list R) :
  lower_zero n n U -> diag_nonzero n U ->
  solves n U c v -> solves n U c w ->
  forall i, (i < n)%nat -> nth i v 0 = nth i w 0.
Proof.
  intros Hlow Hdiag Hv Hw.
  enough (H : forall d i, (n - i <= d)%nat -> (i < n)%nat ->
                          nth i v 0 = nth i w 0)
    by (intros i Hi; apply (H n i); lia).
  induction d as [|d IH]; intros i Hd Hi; [lia|].
  pose proof (Hv i Hi) as Ev. pose proof (Hw i Hi) as Ew.
  rewrite rowDot_upper in Ev, Ew by assumption.
  assert (Etail : Rsum (map (fun j => entry U i j * nth j v 0)
                            (seq (S i) (n - S i)))
                  = Rsum (map (fun j => entry U i j * nth j w 0)
                              (seq (S i) (n - S i)))).
  { apply Rsum_map_ext. intros j Hj. apply in_seq in Hj.
    rewrite (IH j) by lia. reflexivity. }
  rewrite Etail in Ev.
  apply (Rmult_eq_reg_l (entry U i i)); [lra | now apply Hdiag].
Qed.

(** When the solver returns, its result solves the system and is the only
    solution. *)
Lemma gaussianElimination_solution (A : list (list R)) (b x : list R) :
  square (length A) A -> length b = length A ->
  gaussianElimination A b = Some x ->
  length x = length A /\
  solves (length A) A b x /\
  forall v, solves (length A) A b v ->
            forall i, (i < length A)%nat -> nth i v 0 = nth i x 0.
Proof.
  intros Hsq Hlen Hge. unfold gaussianElimination in Hge.
  set (n := length A) in *.
  destruct (forwardElimination n (seq 0 n) A b) as [[U c]|] eqn:Hfwd;
    [|discriminate].
  inversion Hge; subst x. clear Hge.
  destruct (forwardElimination_sound n n 0 A b U c) as [HelU Hsol];
    try assumption; try lia.
  { split; [assumption|]. split; [assumption|]. split.
    - intros k j Hj. lia.
    - intros k Hk. lia. }
  destruct HelU as (HsqU & HlenU & Hlow & Hdiag).
  pose proof (backSubstitution_solves n U c Hlow Hdiag) as Hx.
  split; [apply backSubstitution_spec|]. split.
  - now apply Hsol.
  - intros v Hv.
    apply (upper_solution_unique n U c); try assumption. now apply Hsol.
Qed.

(** ** Order of the samples: the kriging solve *)

Lemma Rsum_seq_combine {A : Type} (F : A -> R -> R) (d : A) (l : list A) :
  forall v : list R,
    (length l <= length v)%nat ->
    Rsum (map (fun j => F (nth j l d) (nth j v 0)) (seq 0 (length l)))
    = Rsum (map (fun tw => F (fst tw) (snd tw)) (combine l v)).
Proof.
  induction l as [|a l IH]; intros v Hlen; [reflexivity|].
  destruct v as [|b v]; simpl in Hlen; [lia|].
  simpl. rewrite <- seq_shift, map_map. simpl.
  rewrite IH by lia. reflexivity.
Qed.

Lemma map_fst_combine {A B : Type} (l : list A) (v : list B) :
  (length l <= length v)%nat -> map fst (combine l v) = l.
Proof.
  revert v. induction l as [|a l IH]; intros [|b v] Hlen; simpl in *;
    try reflexivity; try lia.
  f_equal. apply IH. lia.
Qed.

Lemma combine_fst_snd {A B : Type} (l : list (A * B)) (r : list B) :
  combine (map fst l) (map snd l ++ r) = l.
Proof.
  induction l as [|[a b] l IH]; simpl; [reflexivity | now rewrite IH].
Qed.

Lemma fold_left_plus {A : Type} (g : A -> R) (l : list A) (a : R) :
  fold_left (fun s j => s + g j) l a = a + Rsum (map g l).
Proof.
  revert a. induction l as [|b l IH]; intros a; simpl; [lra|].
  rewrite IH. lra.
Qed.

Lemma gammaBetween_same (params : VariogramParams) (s : Sample) :
  gammaBetween params s s = 0.
Proof.
  unfold gammaBetween. now rewrite euclid_same, sphericalVariogram_zero.
Qed.

Lemma krigingMatrix_entry_gamma (samples : list Sample)
  (params : VariogramParams) (i j : nat) :
  (i < length samples)%nat -> (j < length samples)%nat ->
  entry (krigingMatrix samples params) i j
  = gammaBetween params (nth i samples defaultSample)
                 (nth j samples defaultSample).
Proof.
  intros Hi Hj.
  rewrite (krigingMatrix_entry samples params i j
             (nth i samples defaultSample) (nth j samples defaultSample))
    by (now apply nth_error_nth').
  destruct (Nat.eqb_spec i j) as [->|]; [|reflexivity].
  now rewrite gammaBetween_same.
Qed.

Lemma krigingMatrix_entry_last (samples : list Sample)
  (params : VariogramParams) (j : nat) :
  (j <= length samples)%nat ->
  entry (krigingMatrix samples params) (length samples) j
  = if (j =? length samples)%nat then 0 else 1.
Proof.
  intros Hj. unfold entry. rewrite krigingMatrix_last_row.
  destruct (Nat.eqb_spec j (length samples)) as [->|Hne].
  - rewrite app_nth2 by (rewrite repeat_length; lia).
    now rewrite repeat_length, Nat.sub_diag.
  - rewrite app_nth1 by (rewrite repeat_length; lia).
    apply nth_repeat_lt. lia.
Qed.

Lemma krigingRhs_length (x y : R) (samples : list Sample)
  (params : VariogramParams) :
  length (krigingRhs x y samples params) = S (length samples).
Proof. unfold krigingRhs. rewrite length_app, length_map. simpl. lia. Qed.

Lemma krigingRhs_nth (x y : R) (samples : list Sample)
  (params : VariogramParams) (i : nat) :
  (i <= length samples)%nat ->
  nth i (krigingRhs x y samples params) 0
  = if (i =? length samples)%nat then 1
    else gammaQuery x y params (nth i samples defaultSample).
Proof.
  intros Hi. unfold krigingRhs.
  destruct (Nat.eqb_spec i (length samples)) as [->|Hne].
  - rewrite app_nth2 by (rewrite length_map; lia).
    now rewrite length_map, Nat.sub_diag.
  - rewrite app_nth1 by (rewrite length_map; lia).
    rewrite (nth_indep _ 0 (gammaQuery x y params defaultSample))
      by (rewrite length_map; lia).
    apply (map_nth (gammaQuery x y params)).
Qed.

(** The rows of the system of [krigePoint], as sums over weighted samples. *)
Lemma krigingMatrix_rowDot (samples : list Sample) (params : VariogramParams)
  (v : list R) (i : nat) :
  (length samples < length v)%nat -> (i < length samples)%nat ->
  rowDot (S (length samples)) (krigingMatrix samples params) v i
  = Rsum (map (fun tw => gammaBetween params (nth i samples defaultSample)
                                      (fst tw) * snd tw)
              (combine samples v))
    + nth (length samples) v 0.
Proof.
  intros Hv Hi. unfold rowDot. rewrite seq_S, map_app, Rsum_app. simpl.
  rewrite (krigingMatrix_entry_lagrange samples params i
             (nth i samples defaultSample)) by (now apply nth_error_nth').
  rewrite <- (Rsum_seq_combine
                (fun t w => gammaBetween params
                              (nth i samples defaultSample) t * w)
                defaultSample samples v) by lia.
  rewrite (Rsum_map_ext
             (fun j => entry (krigingMatrix samples params) i j * nth j v 0)
             (fun j => gammaBetween params (nth i samples defaultSample)
                                    (nth j samples defaultSample)
                       * nth j v 0)).
  - lra.
  - intros j Hj. apply in_seq in Hj.
    rewrite krigingMatrix_entry_gamma by lia. reflexivity.
Qed.

Lemma krigingMatrix_rowDot_last (samples : list Sample)
  (params : VariogramParams) (v : list R) :
  (length samples < length v)%nat ->
  rowDot (S (length samples)) (krigingMatrix samples params) v
         (length samples)
  = Rsum (map snd (combine samples v)).
Proof.
  intros Hv. unfold rowDot. rewrite seq_S, map_app, Rsum_app. simpl.
  rewrite krigingMatrix_entry_last, Nat.eqb_refl by lia.
  rewrite Rmult_0_l, !Rplus_0_r.
  transitivity (Rsum (map (fun j => nth j v 0) (seq 0 (length samples)))).
  - apply Rsum_map_ext. intros j Hj. apply in_seq in Hj.
    rewrite krigingMatrix_entry_last by lia.
    replace (j =? length samples)%nat with false
      by (symmetry; apply Nat.eqb_neq; lia).
    lra.
  - apply (Rsum_seq_combine (fun _ w => w) defaultSample samples v). lia.
Qed.

(** Solving the system of [krigePoint] is solving the kriging equations. *)
Lemma krigingSystem_equations (x y : R) (samples : list Sample)
  (params : VariogramParams) (v : list R) :
  (length samples < length v)%nat ->
  solves (S (length samples)) (krigingMatrix samples params)
         (krigingRhs x y samples params) v
  <-> krigingEquations x y params (combine samples v)
                       (nth (length samples) v 0).
Proof.
  intros Hv. unfold krigingEquations.
  rewrite map_fst_combine by lia. split.
  - intros Hsol. split.
    + intros s Hs. destruct (In_nth _ _ defaultSample Hs) as (i & Hi & <-).
      rewrite <- krigingMatrix_rowDot by assumption.
      rewrite (Hsol i) by lia. rewrite krigingRhs_nth by lia.
      replace (i =? length samples)%nat with false
        by (symmetry; apply Nat.eqb_neq; lia).
      reflexivity.
    + rewrite <- (krigingMatrix_rowDot_last samples params) by assumption.
      rewrite (Hsol (length samples)) by lia.
      now rewrite krigingRhs_nth, Nat.eqb_refl by lia.
  - intros [Heq Hone] k Hk. rewrite krigingRhs_nth by lia.
    destruct (Nat.eqb_spec k (length samples)) as [->|Hne].
    + now rewrite krigingMatrix_rowDot_last.
    + rewrite krigingMatrix_rowDot by lia. apply Heq. apply nth_In. lia.
Qed.

Lemma krigingEquations_permutation (x y : R) (params : VariogramParams)
  (ws ws' : list (Sample * R)) (mu : R) :
  Permutation ws ws' ->
  krigingEquations x y params ws mu -> krigingEquations x y params ws' mu.
Proof.
  intros Hperm [Heq Hone]. split.
  - intros s Hs.
    rewrite <- (Rsum_map_permutation _ _ _ Hperm). apply Heq.
    apply (Permutation_in s (Permutation_sym (Permutation_map fst Hperm)) Hs).
  - now rewrite <- (Rsum_map_permutation snd _ _ Hperm).
Qed.

Lemma predictionOf_sum (samples : list Sample) (weights : list R) :
  (length samples <= length weights)%nat ->
  predictionOf samples weights
  = Rsum (map (fun tw => snd tw * s_z (fst tw)) (combine samples weights)).
Proof.
  intros Hlen. unfold predictionOf. rewrite fold_left_plus, Rplus_0_l.
  now rewrite <- (Rsum_seq_combine (fun t w => w * s_z t)
                                   (mkSample 0 0 0) samples weights).
Qed.

Lemma predictionOf_ext (samples : list Sample) (v w : list R) :
  (forall i, (i < length samples)%nat -> nth i v 0 = nth i w 0) ->
  predictionOf samples v = predictionOf samples w.
Proof.
  intros H. unfold predictionOf. rewrite !fold_left_plus.
  f_equal. apply Rsum_map_ext. intros i Hi. apply in_seq in Hi.
  rewrite H by lia. reflexivity.
Qed.

(** When the solver returns on both orders of the samples, the two
    predictions are equal. *)
Lemma prediction_permutation (x y : R) (samples samples' : list Sample)
  (params : VariogramParams) (w w' : list R) :
  Permutation samples samples' ->
  gaussianElimination (krigingMatrix samples params)
                      (krigingRhs x y samples params) = Some w ->
  gaussianElimination (krigingMatrix samples' params)
                      (krigingRhs x y samples' params) = Some w' ->
  predictionOf samples w = predictionOf samples' w'.
Proof.
  intros Hperm Hge Hge'.
  pose proof (Permutation_length Hperm) as Hn.
  apply gaussianElimination_solution in Hge as (Hlen & Hsol & _);
    [|rewrite krigingMatrix_length; apply krigingMatrix_square
     |now rewrite krigingMatrix_length, krigingRhs_length].
  apply gaussianElimination_solution in Hge' as (Hlen' & _ & Huniq);
    [|rewrite krigingMatrix_length; apply krigingMatrix_square
     |now rewrite krigingMatrix_length, krigingRhs_length].
  rewrite krigingMatrix_length in *.
  apply krigingSystem_equations in Hsol; [|lia].
  set (ws := combine samples w) in *. set (mu := nth (length samples) w 0) in *.
  assert (Hfst : map fst ws = samples)
    by (apply map_fst_combine; lia).
  destruct (Permutation_map_inv fst ws (Permutation_sym
              (eq_ind_r (fun l => Permutation l samples') Hperm Hfst)))
    as (ws' & Hws' & Hpermws).
  pose proof (krigingEquations_permutation _ _ _ _ _ _ Hpermws Hsol) as Hsol'.
  set (v := map snd ws' ++ [mu]).
  assert (Hlenws' : length ws' = length samples').
  { now rewrite Hws', length_map. }
  assert (Hcomb : combine samples' v = ws').
  { unfold v. rewrite Hws'. apply combine_fst_snd. }
  assert (Hv : solves (S (length samples')) (krigingMatrix samples' params)
                 (krigingRhs x y samples' params) v).
  { apply krigingSystem_equations.
    - unfold v. rewrite length_app, length_map. simpl. lia.
    - rewrite Hcomb. unfold v.
      rewrite app_nth2 by (rewrite length_map; lia).
      now rewrite length_map, Hlenws', Nat.sub_diag. }
  rewrite <- (predictionOf_ext samples' v w')
    by (intros i Hi; apply Huniq; [assumption | lia]).
  rewrite !predictionOf_sum; try lia.
  - rewrite Hcomb. fold ws. now apply Rsum_map_permutation.
  - unfold v. rewrite length_app, length_map. simpl. lia.
Qed.

Lemma krigePoint_solved (x y : R) (samples : list Sample)
  (params : VariogramParams) (w : list R) :
  samples <> [] ->
  (forall s, In s samples -> atLocation x y s = false) ->
  gaussianElimination (krigingMatrix samples params)
                      (krigingRhs x y samples params) = Some w ->
  krigePoint x y samples params = predictionOf samples w.
Proof.
  intros Hne Hnone Hge. unfold krigePoint.
  destruct samples as [|s0 rest]; [contradiction|].
  apply find_none_iff in Hnone. rewrite Hnone, Hge. reflexivity.
Qed.

(** C5 as stated fails: with two samples at one location the exact-match
    loop returns the value of whichever comes first. *)
Lemma krigePoint_order_matters :
  ~ (forall (x y : R) (samples samples' : list Sample)
            (params : VariogramParams),
        Permutation samples samples' -> valid_params params ->
        krigePoint x y samples params = krigePoint x y samples' params).
Proof.
  intros H.
  specialize (H 0 0 [mkSample 0 0 1; mkSample 0 0 2]
                [mkSample 0 0 2; mkSample 0 0 1] (mkParams 0 1 10)
                (perm_swap _ _ _)).
  rewrite krigePoint_duplicate in H.
  rewrite (krigePoint_found 0 0 _ _ (mkSample 0 0 2)) in H.
  - simpl in H. assert (1 = 2); [|lra].
    apply H. unfold valid_params; simpl; lra.
  - simpl. replace (atLocation 0 0 (mkSample 0 0 2)) with true;
      [reflexivity|].
    symmetry. apply atLocation_true. split; reflexivity.
Qed.

(** In exact arithmetic:
    [krigePoint] gives the same prediction on a sample list
    and on any permutation of it, for every query point and parameters,
    when the samples at the query point carry one value, the solver gives
    up on both orders or on neither, and, where it gives up, the samples
    within 0.001 of the query carry one value. *)
Theorem krigePoint_permutation (x y : R) (samples samples' : list Sample)
  (params : VariogramParams) :
  Permutation samples samples' ->
  consistent_at x y samples ->
  (gaussianElimination (krigingMatrix samples params)
                       (krigingRhs x y samples params) = None <->
   gaussianElimination (krigingMatrix samples' params)
                       (krigingRhs x y samples' params) = None) ->
  (gaussianElimination (krigingMatrix samples params)
                       (krigingRhs x y samples params) = None ->
   consistent_near x y samples) ->
  krigePoint x y samples params = krigePoint x y samples' params.
Proof.
  intros Hperm Hcons Hboth Hnear.
  destruct samples as [|s0 rest].
  { apply Permutation_nil in Hperm. now subst. }
  assert (Hne : s0 :: rest <> []) by discriminate.
  assert (Hne' : samples' <> []).
  { intros ->. apply Permutation_sym, Permutation_nil in Hperm.
    discriminate. }
  set (samples := s0 :: rest) in *.
  destruct (find (atLocation x y) samples) as [s|] eqn:Hfind.
  - apply find_some in Hfind as [Hin Hat].
    destruct (krigePoint_exact_permutation x y samples samples' params s)
      as [-> ->]; auto.
  - assert (Hnone : forall s, In s samples -> atLocation x y s = false)
      by now apply find_none_iff.
    assert (Hnone' : forall s, In s samples' -> atLocation x y s = false).
    { intros s Hs. apply Hnone.
      apply (Permutation_in s (Permutation_sym Hperm) Hs). }
    destruct (gaussianElimination (krigingMatrix samples params)
                (krigingRhs x y samples params)) as [w|] eqn:Hge.
    + destruct (gaussianElimination (krigingMatrix samples' params)
                  (krigingRhs x y samples' params)) as [w'|] eqn:Hge'.
      * rewrite (krigePoint_solved _ _ _ _ w Hne Hnone Hge).
        rewrite (krigePoint_solved _ _ _ _ w' Hne' Hnone' Hge').
        now apply (prediction_permutation x y _ _ params).
      * destruct Hboth as [_ Hback]. discriminate (Hback eq_refl).
    + rewrite (krigePoint_singular _ _ _ _ Hnone Hge).
      rewrite (krigePoint_singular _ _ _ _ Hnone' (proj1 Hboth eq_refl)).
      apply inverseDistanceWeighting_permutation; auto.
Qed.

Lemma consistent_near_far (x y : R) (samples : list Sample) :
  (forall s, In s samples -> ~ near x y s) -> consistent_near x y samples.
Proof.
  intros Hfar s t Hs _ Hn. exfalso. now apply (Hfar s).
Qed.

Lemma krigePoint_permutation_witness :
  krigePoint 1 0 [mkSample 0 0 1; mkSample 0 0 1; mkSample 4 0 3]
             (mkParams 0 30 20)
  = krigePoint 1 0 [mkSample 4 0 3; mkSample 0 0 1; mkSample 0 0 1]
               (mkParams 0 30 20).
Proof.
  apply (krigePoint_permutation 1 0
           [mkSample 0 0 1; mkSample 0 0 1; mkSample 4 0 3]
           [mkSample 4 0 3; mkSample 0 0 1; mkSample 0 0 1]
           (mkParams 0 30 20)).
  - apply Permutation_sym.
    apply (Permutation_cons_append [mkSample 0 0 1; mkSample 0 0 1]
                                   (mkSample 4 0 3)).
  - intros s t [<-|[<-|[<-|[]]]] [<-|[<-|[<-|[]]]] Hs Ht;
      try reflexivity;
      rewrite atLocation_false_x in Hs, Ht by (simpl; lra); discriminate.
  - split; intros _.
    + apply (krigingSystem_singular 1 0 _ _ 1 2
               (mkSample 0 0 1) (mkSample 0 0 1)); try reflexivity.
      discriminate.
    + apply (krigingSystem_singular 1 0 _ _ 0 1
               (mkSample 0 0 1) (mkSample 0 0 1)); try reflexivity.
      discriminate.
  - intros _. apply consistent_near_far.
    intros s [<-|[<-|[<-|[]]]]; unfold near; cbn [s_x s_y].
    + rewrite euclid_axis_rev by lra. lra.
    + rewrite euclid_axis_rev by lra. lra.
    + rewrite euclid_axis by lra. lra.
Defined.

(** ** Order of the samples: where it shows with distinct locations *)

(** Evaluation of the solver on a matrix of constants: comparisons of
    magnitudes by cases on the signs, entries by linear arithmetic. *)
Ltac abs_lra := unfold Rabs; repeat destruct (Rcase_abs _); lra.

Ltac rlt_b_eval :=
  repeat match goal with
  | |- context [Rlt_b ?a ?b] =>
      first [ replace (Rlt_b a b) with true
                by (symmetry; apply Rlt_b_true; abs_lra)
            | replace (Rlt_b a b) with false
                by (symmetry; apply Rlt_b_false; abs_lra) ]
  end.

Ltac row_eq := repeat (apply (f_equal2 (@cons R)); [lra|]); reflexivity.
Ltac matrix_eq :=
  repeat (apply (f_equal2 (@cons (list R))); [row_eq|]); reflexivity.
Ltac step_eval :=
  unfold eliminateColumn;
  cbn [seq Nat.sub findPivot entry nth]; rlt_b_eval;
  cbn [findPivot entry nth]; rlt_b_eval;
  cbn [swap set_nth nth entry]; rlt_b_eval;
  cbn [mapi_from eliminateRow Nat.ltb Nat.leb andb nth].

(** *** A pivot below the tolerance in one order only

    Samples at (3,0), (4,0), (7,0), query at (0,0), range 2 and sill
    1.28e-10: the semivariance is 8.8e-11 between the first two samples and
    the sill everywhere else.  In both orders the first pivot is the 1 of
    the constraint row.  With the two close samples first, column 1 then
    holds -8.8e-11, 0 and 8.8e-11, all below 1e-10.  With the far sample
    first it holds -1.28e-10, -4e-11, 1.28e-10, and the pivots that follow
    are -1.155e-10 and 53/21. *)

Lemma tiny_valid : valid_params tiny.
Proof. unfold valid_params, tiny; simpl; lra. Qed.

Lemma tiny_half : sphericalVariogram 1 tiny = 8.8e-11.
Proof.
  rewrite sphericalVariogram_inside by (unfold tiny; simpl; lra).
  unfold tiny; simpl. lra.
Qed.

Lemma tiny_far (d : R) : 2 <= d -> sphericalVariogram d tiny = 1.28e-10.
Proof.
  intros H. rewrite sphericalVariogram_plateau by (unfold tiny; simpl; lra).
  reflexivity.
Qed.

Lemma spaced_matrix :
  krigingMatrix spaced tiny
  = [[0; 8.8e-11; 1.28e-10; 1]; [8.8e-11; 0; 1.28e-10; 1];
     [1.28e-10; 1.28e-10; 0; 1]; [1; 1; 1; 0]].
Proof.
  unfold krigingMatrix, krigingRow, spaced.
  cbn [mapi_from app length repeat Nat.eqb s_x s_y].
  rewrite (euclid_axis 3 4 0), (euclid_axis 3 7 0), (euclid_axis 4 7 0),
    (euclid_axis_rev 4 3 0), (euclid_axis_rev 7 3 0), (euclid_axis_rev 7 4 0)
    by lra.
  replace (4 - 3) with 1 by lra.
  rewrite tiny_half, !tiny_far by lra. reflexivity.
Qed.

Lemma spaced_rev_matrix :
  krigingMatrix spaced_rev tiny
  = [[0; 1.28e-10; 1.28e-10; 1]; [1.28e-10; 0; 8.8e-11; 1];
     [1.28e-10; 8.8e-11; 0; 1]; [1; 1; 1; 0]].
Proof.
  unfold krigingMatrix, krigingRow, spaced_rev.
  cbn [mapi_from app length repeat Nat.eqb s_x s_y].
  rewrite (euclid_axis 3 4 0), (euclid_axis 3 7 0), (euclid_axis 4 7 0),
    (euclid_axis_rev 4 3 0), (euclid_axis_rev 7 3 0), (euclid_axis_rev 7 4 0)
    by lra.
  replace (4 - 3) with 1 by lra.
  rewrite tiny_half, !tiny_far by lra. reflexivity.
Qed.

Lemma spaced_rhs :
  krigingRhs 0 0 spaced tiny = [1.28e-10; 1.28e-10; 1.28e-10; 1].
Proof.
  unfold krigingRhs, spaced. cbn [map app s_x s_y].
  rewrite (euclid_axis 0 3 0), (euclid_axis 0 4 0), (euclid_axis 0 7 0)
    by lra.
  rewrite !tiny_far by lra. reflexivity.
Qed.

Lemma spaced_rev_rhs :
  krigingRhs 0 0 spaced_rev tiny = [1.28e-10; 1.28e-10; 1.28e-10; 1].
Proof.
  unfold krigingRhs, spaced_rev. cbn [map app s_x s_y].
  rewrite (euclid_axis 0 3 0), (euclid_axis 0 4 0), (euclid_axis 0 7 0)
    by lra.
  rewrite !tiny_far by lra. reflexivity.
Qed.

Lemma spaced_column0 :
  eliminateColumn 4 0
     [[0; 8.8e-11; 1.28e-10; 1]; [8.8e-11; 0; 1.28e-10; 1];
      [1.28e-10; 1.28e-10; 0; 1]; [1; 1; 1; 0]]
     [1.28e-10; 1.28e-10; 1.28e-10; 1]
  = Some ([[1; 1; 1; 0]; [0; -8.8e-11; 4e-11; 1]; [0; 0; -1.28e-10; 1];
           [0; 8.8e-11; 1.28e-10; 1]],
          [1; 4e-11; 0; 1.28e-10]).
Proof.
  step_eval. f_equal. f_equal; [matrix_eq | row_eq].
Qed.

Lemma spaced_column1 :
  eliminateColumn 4 1
     [[1; 1; 1; 0]; [0; -8.8e-11; 4e-11; 1]; [0; 0; -1.28e-10; 1];
      [0; 8.8e-11; 1.28e-10; 1]]
     [1; 4e-11; 0; 1.28e-10]
  = None.
Proof.
  step_eval. reflexivity.
Qed.

Lemma spaced_rev_column0 :
  eliminateColumn 4 0
     [[0; 1.28e-10; 1.28e-10; 1]; [1.28e-10; 0; 8.8e-11; 1];
      [1.28e-10; 8.8e-11; 0; 1]; [1; 1; 1; 0]]
     [1.28e-10; 1.28e-10; 1.28e-10; 1]
  = Some ([[1; 1; 1; 0]; [0; -1.28e-10; -4e-11; 1];
           [0; -4e-11; -1.28e-10; 1]; [0; 1.28e-10; 1.28e-10; 1]],
          [1; 0; 0; 1.28e-10]).
Proof.
  step_eval. f_equal. f_equal; [matrix_eq | row_eq].
Qed.

Lemma spaced_rev_column1 :
  eliminateColumn 4 1
     [[1; 1; 1; 0]; [0; -1.28e-10; -4e-11; 1];
      [0; -4e-11; -1.28e-10; 1]; [0; 1.28e-10; 1.28e-10; 1]]
     [1; 0; 0; 1.28e-10]
  = Some ([[1; 1; 1; 0]; [0; -1.28e-10; -4e-11; 1];
           [0; 0; -1.155e-10; 11 / 16]; [0; 0; 8.8e-11; 2]],
          [1; 0; 0; 1.28e-10]).
Proof.
  step_eval. f_equal. f_equal; [matrix_eq | row_eq].
Qed.

Lemma spaced_rev_column2 :
  eliminateColumn 4 2
     [[1; 1; 1; 0]; [0; -1.28e-10; -4e-11; 1];
      [0; 0; -1.155e-10; 11 / 16]; [0; 0; 8.8e-11; 2]]
     [1; 0; 0; 1.28e-10]
  = Some ([[1; 1; 1; 0]; [0; -1.28e-10; -4e-11; 1];
           [0; 0; -1.155e-10; 11 / 16]; [0; 0; 0; 53 / 21]],
          [1; 0; 0; 1.28e-10]).
Proof.
  step_eval. f_equal. f_equal; [matrix_eq | row_eq].
Qed.

Lemma spaced_rev_column3 :
  eliminateColumn 4 3
     [[1; 1; 1; 0]; [0; -1.28e-10; -4e-11; 1];
      [0; 0; -1.155e-10; 11 / 16]; [0; 0; 0; 53 / 21]]
     [1; 0; 0; 1.28e-10]
  = Some ([[1; 1; 1; 0]; [0; -1.28e-10; -4e-11; 1];
           [0; 0; -1.155e-10; 11 / 16]; [0; 0; 0; 53 / 21]],
          [1; 0; 0; 1.28e-10]).
Proof.
  step_eval. reflexivity.
Qed.

Lemma spaced_gives_up :
  gaussianElimination (krigingMatrix spaced tiny)
                      (krigingRhs 0 0 spaced tiny) = None.
Proof.
  unfold gaussianElimination. rewrite spaced_matrix, spaced_rhs.
  cbn [length seq forwardElimination].
  rewrite spaced_column0, spaced_column1. reflexivity.
Qed.

Lemma spaced_rev_solved :
  gaussianElimination (krigingMatrix spaced_rev tiny)
                      (krigingRhs 0 0 spaced_rev tiny)
  = Some [21 / 53; 16 / 53; 16 / 53; 1.28e-10 * 21 / 53].
Proof.
  unfold gaussianElimination. rewrite spaced_rev_matrix, spaced_rev_rhs.
  cbn [length seq forwardElimination].
  rewrite spaced_rev_column0, spaced_rev_column1, spaced_rev_column2,
    spaced_rev_column3.
  f_equal. unfold backSubstitution, backStep.
  cbn [seq rev app fold_left repeat Nat.sub entry nth set_nth].
  row_eq.
Qed.

Lemma spaced_not_at_query (s : Sample) :
  In s spaced -> atLocation 0 0 s = false.
Proof.
  intros [<-|[<-|[<-|[]]]]; apply atLocation_false_x; simpl; lra.
Qed.

Lemma spaced_far (s : Sample) : In s spaced -> ~ near 0 0 s.
Proof.
  intros [<-|[<-|[<-|[]]]]; unfold near; cbn [s_x s_y];
    rewrite euclid_axis by lra; lra.
Qed.

Lemma spaced_permutation : Permutation spaced spaced_rev.
Proof.
  unfold spaced, spaced_rev.
  apply (Permutation_rev [mkSample 3 0 0; mkSample 4 0 0; mkSample 7 0 1]).
Qed.

Lemma spaced_distinct : distinct_locations spaced.
Proof.
  unfold distinct_locations, spaced, location. cbn [map s_x s_y].
  assert (Hne : forall a b : R, a <> b -> (a, 0) <> (b, 0)).
  { intros a b Hab E. apply Hab. now injection E. }
  constructor; [|constructor; [|constructor; [|constructor]]]; simpl;
    intros H; repeat destruct H as [H|H]; try contradiction;
    revert H; apply Hne; lra.
Qed.

Lemma spaced_fallback : krigePoint 0 0 spaced tiny = 144 / 1369.
Proof.
  rewrite (krigePoint_singular _ _ _ _ spaced_not_at_query spaced_gives_up).
  unfold inverseDistanceWeighting.
  rewrite idwLoop_far by apply spaced_far.
  unfold spaced, idwWeight. cbn [map Rsum fold_right s_x s_y s_z].
  rewrite (euclid_axis 0 3 0), (euclid_axis 0 4 0), (euclid_axis 0 7 0)
    by lra.
  rlt_b_eval. lra.
Qed.

Lemma spaced_rev_kriged : krigePoint 0 0 spaced_rev tiny = 21 / 53.
Proof.
  assert (Hne : spaced_rev <> []) by discriminate.
  assert (Hnone : forall s, In s spaced_rev -> atLocation 0 0 s = false).
  { intros s Hs. apply spaced_not_at_query.
    apply (Permutation_in s (Permutation_sym spaced_permutation) Hs). }
  rewrite (krigePoint_solved _ _ _ _ _ Hne Hnone spaced_rev_solved).
  unfold predictionOf, spaced_rev. cbn [length seq fold_left nth s_z]. lra.
Qed.

(** *** Two samples within 0.001 of the query

    Samples at (0,0) and (0.0005,0), query at (0.0002,0), and a variogram
    that is 0 everywhere: the system has two equal rows, the solver gives
    up, and the fallback returns the first sample it meets. *)

Lemma flat_zero (d : R) : sphericalVariogram d flat = 0.
Proof.
  unfold sphericalVariogram, flat. cbn [nugget sill range].
  destruct (Req_b d 0); [reflexivity|].
  destruct (Rle_b 1 d); [reflexivity|]. lra.
Qed.

Lemma close_gives_up (samples : list Sample) :
  samples = close \/ samples = close_rev ->
  gaussianElimination (krigingMatrix samples flat)
                      (krigingRhs 0.0002 0 samples flat) = None.
Proof.
  intros H.
  assert (E : krigingMatrix samples flat = [[0; 0; 1]; [0; 0; 1]; [1; 1; 0]]).
  { destruct H as [-> | ->];
      unfold krigingMatrix, krigingRow, close, close_rev;
      cbn [mapi_from app length repeat Nat.eqb]; now rewrite !flat_zero. }
  assert (Eb : krigingRhs 0.0002 0 samples flat = [0; 0; 1]).
  { destruct H as [-> | ->]; unfold krigingRhs, close, close_rev;
      cbn [map app]; now rewrite !flat_zero. }
  unfold gaussianElimination. rewrite E, Eb.
  cbn [length seq forwardElimination].
  replace (eliminateColumn 3 0 [[0; 0; 1]; [0; 0; 1]; [1; 1; 0]] [0; 0; 1])
    with (Some ([[1; 1; 0]; [0; 0; 1]; [0; 0; 1]], [1; 0; 0])).
  2:{ symmetry. step_eval. f_equal. f_equal; [matrix_eq | row_eq]. }
  replace (eliminateColumn 3 1 [[1; 1; 0]; [0; 0; 1]; [0; 0; 1]] [1; 0; 0])
    with (@None (list (list R) * list R)); [reflexivity|].
  symmetry. step_eval. reflexivity.
Qed.

Lemma close_first : krigePoint 0.0002 0 close flat = 1.
Proof.
  rewrite krigePoint_singular.
  - unfold inverseDistanceWeighting, close, idwLoop. cbn [s_x s_y s_z].
    rewrite euclid_axis_rev by lra. rlt_b_eval. reflexivity.
  - intros s [<-|[<-|[]]]; apply atLocation_false_x; simpl; lra.
  - apply close_gives_up. now left.
Qed.

Lemma close_rev_first : krigePoint 0.0002 0 close_rev flat = 2.
Proof.
  rewrite krigePoint_singular.
  - unfold inverseDistanceWeighting, close_rev, idwLoop. cbn [s_x s_y s_z].
    rewrite euclid_axis by lra. rlt_b_eval. reflexivity.
  - intros s [<-|[<-|[]]]; apply atLocation_false_x; simpl; lra.
  - apply close_gives_up. now right.
Qed.

(** With distinct locations and valid parameters the order can still decide
    the result.  Two samples within 0.001 of the query: the fallback returns
    the first. *)
Lemma krigePoint_order_matters_shortcut :
  Permutation close close_rev /\ distinct_locations close /\
  valid_params flat /\
  krigePoint 0.0002 0 close flat <> krigePoint 0.0002 0 close_rev flat.
Proof.
  split; [apply perm_swap|]. split; [|split].
  - unfold distinct_locations, close, location. cbn [map s_x s_y].
    constructor; [|constructor; [|constructor]]; simpl; intros H;
      repeat destruct H as [H|H]; try contradiction.
    injection H. lra.
  - unfold valid_params, flat; simpl; lra.
  - rewrite close_first, close_rev_first. lra.
Qed.

(** Three samples far from the query and a sill just above the tolerance:
    in one order the second pivot is 8.8e-11 and the solver gives up, in
    the other every pivot passes the test and the system is solved. *)
Lemma krigePoint_order_matters_pivot :
  Permutation spaced spaced_rev /\ distinct_locations spaced /\
  valid_params tiny /\ (forall s, In s spaced -> ~ near 0 0 s) /\
  krigePoint 0 0 spaced tiny <> krigePoint 0 0 spaced_rev tiny.
Proof.
  split; [apply spaced_permutation|]. split; [apply spaced_distinct|].
  split; [apply tiny_valid|]. split; [apply spaced_far|].
  rewrite spaced_fallback, spaced_rev_kriged. lra.
Qed.

(** * Further properties of the module *)

(** ** The spherical model on every distance *)

(** In exact arithmetic:
    on valid parameters and a non-negative distance the model stays
    between 0 and the sill, and past distance 0 it is at least the nugget. *)
Theorem sphericalVariogram_bounds (d : R) (p : VariogramParams) :
  valid_params p -> 0 <= d ->
  0 <= sphericalVariogram d p <= sill p /\
  (0 < d -> nugget p <= sphericalVariogram d p).
Proof.
  intros (Hn & Hs & Hr) Hd.
  destruct (Req_dec_T d 0) as [->|Hne].
  - rewrite sphericalVariogram_zero. split; [lra | intros H; lra].
  - destruct (Rle_lt_dec (range p) d) as [Hge|Hlt].
    + rewrite sphericalVariogram_plateau by assumption.
      split; [lra | intros _; lra].
    + rewrite sphericalVariogram_inside by assumption.
      assert (Hb : 0 <= d / range p <= 1) by (apply ratio_bounds; lra).
      pose proof (cubic_nonneg _ Hb) as H0.
      pose proof (cubic_le_1 _ Hb) as H1.
      assert (0 <= (sill p - nugget p)
                   * (1.5 * (d / range p) - 0.5 * (d / range p) ^ 3))
        by (apply Rmult_le_pos; lra).
      assert ((sill p - nugget p)
              * (1.5 * (d / range p) - 0.5 * (d / range p) ^ 3)
              <= (sill p - nugget p) * 1)
        by (apply Rmult_le_compat_l; lra).
      split; [lra | intros _; lra].
Qed.

Lemma sphericalVariogram_bounds_witness :
  0 <= sphericalVariogram 5 (mkParams 1 30 20) <= sill (mkParams 1 30 20) /\
  (0 < 5 -> nugget (mkParams 1 30 20)
            <= sphericalVariogram 5 (mkParams 1 30 20)).
Proof.
  apply (sphericalVariogram_bounds 5 (mkParams 1 30 20)).
  - unfold valid_params; simpl; lra.
  - lra.
Defined.

(** In exact arithmetic:
    on valid parameters the model is non-decreasing over all non-negative
    distances, the plateau past the range included. *)
Theorem sphericalVariogram_monotone_everywhere (d1 d2 : R)
  (p : VariogramParams) :
  valid_params p -> 0 <= d1 -> d1 <= d2 ->
  sphericalVariogram d1 p <= sphericalVariogram d2 p.
Proof.
  intros Hv H0 H12. pose proof Hv as (Hn & Hs & Hr).
  destruct (Rle_lt_dec (range p) d2) as [Hge2|Hlt2].
  - rewrite (sphericalVariogram_plateau d2) by lra.
    destruct (Req_dec_T d1 0) as [->|Hne1].
    + rewrite sphericalVariogram_zero. lra.
    + destruct (Rle_lt_dec (range p) d1) as [Hge1|Hlt1].
      * rewrite sphericalVariogram_plateau by assumption. lra.
      * rewrite sphericalVariogram_inside by assumption.
        assert (Hb : 0 <= d1 / range p <= 1) by (apply ratio_bounds; lra).
        pose proof (cubic_le_1 _ Hb) as Hc.
        assert ((sill p - nugget p)
                * (1.5 * (d1 / range p) - 0.5 * (d1 / range p) ^ 3)
                <= (sill p - nugget p) * 1)
          by (apply Rmult_le_compat_l; lra).
        lra.
  - destruct (Req_dec_T d1 0) as [->|Hne1].
    + rewrite sphericalVariogram_zero.
      apply sphericalVariogram_nonneg; [assumption | lra].
    + rewrite !sphericalVariogram_inside by lra.
      assert (Hb1 : 0 <= d1 / range p <= 1) by (apply ratio_bounds; lra).
      assert (Hb2 : 0 <= d2 / range p <= 1) by (apply ratio_bounds; lra).
      assert (Hle : d1 / range p <= d2 / range p).
      { unfold Rdiv. apply Rmult_le_compat_r; [|lra].
        left. now apply Rinv_0_lt_compat. }
      pose proof (cubic_monotone _ _ (proj1 Hb1) Hle (proj2 Hb2)) as Hc.
      assert ((sill p - nugget p)
              * (1.5 * (d1 / range p) - 0.5 * (d1 / range p) ^ 3)
              <= (sill p - nugget p)
                 * (1.5 * (d2 / range p) - 0.5 * (d2 / range p) ^ 3))
        by (apply Rmult_le_compat_l; lra).
      lra.
Qed.

Lemma sphericalVariogram_monotone_everywhere_witness :
  sphericalVariogram 15 (mkParams 1 30 20)
  <= sphericalVariogram 45 (mkParams 1 30 20).
Proof.
  apply (sphericalVariogram_monotone_everywhere 15 45 (mkParams 1 30 20)).
  - unfold valid_params; simpl; lra.
  - lra.
  - lra.
Defined.

(** ** Binning loses no pair *)

Lemma allPairs_length (samples : list Sample) :
  (2 * length (allPairs samples)
   = length samples * (length samples - 1))%nat.
Proof.
  induction samples as [|s rest IH]; simpl; [reflexivity|].
  rewrite length_app, length_map. nia.
Qed.

Lemma bumpBin_totals (k : nat) (sv : R) (bins : list Bin) :
  (k < length bins)%nat ->
  list_sum (map bin_count (bumpBin k sv bins))
  = S (list_sum (map bin_count bins)) /\
  Rsum (map bin_sum (bumpBin k sv bins)) = Rsum (map bin_sum bins) + sv.
Proof.
  unfold bumpBin.
  enough (H : forall s, (s <= k < s + length bins)%nat ->
            list_sum (map bin_count
                        (mapi_from
                           (fun i b => if (i =? k)%nat then addToBin sv b
                                       else b) s bins))
            = S (list_sum (map bin_count bins)) /\
            Rsum (map bin_sum
                    (mapi_from
                       (fun i b => if (i =? k)%nat then addToBin sv b
                                   else b) s bins))
            = Rsum (map bin_sum bins) + sv)
    by (intros Hk; apply H; lia).
  induction bins as [|b bins IH]; intros s Hs; simpl in *; [lia|].
  destruct (Nat.eqb_spec s k) as [->|Hne].
  - simpl.
    rewrite (mapi_from_ext _ (fun _ b => b)).
    + rewrite mapi_from_map, map_id. split; [lia | lra].
    + intros i a Hi. replace (i =? k)%nat with false; [reflexivity|].
      symmetry. apply Nat.eqb_neq. lia.
  - destruct (IH (S s)) as [Hc Hsum]; [lia|].
    rewrite Hc, Hsum. split; [lia | lra].
Qed.

Lemma assignPairs_totals (binSize : R) (pairs : list EmpiricalPoint) :
  forall bins : list Bin,
    (forall pr, In pr pairs ->
                (0 <= Math_floor (distance pr / binSize)
                 < Z.of_nat (length bins))%Z) ->
    exists bins',
      assignPairs binSize pairs bins = Returns bins' /\
      list_sum (map bin_count bins')
      = (list_sum (map bin_count bins) + length pairs)%nat /\
      Rsum (map bin_sum bins')
      = Rsum (map bin_sum bins) + Rsum (map semivariance pairs).
Proof.
  induction pairs as [|pr rest IH]; intros bins Hin.
  - exists bins. simpl. repeat split; [lia | lra].
  - assert (Hpr := Hin pr (or_introl eq_refl)). simpl.
    replace (Math_floor (distance pr / binSize) <? Z.of_nat (length bins))%Z
      with true by (symmetry; apply Z.ltb_lt; lia).
    replace (Math_floor (distance pr / binSize) <? 0)%Z
      with false by (symmetry; apply Z.ltb_ge; lia).
    set (j := Z.to_nat (Math_floor (distance pr / binSize))).
    destruct (IH (bumpBin j (semivariance pr) bins))
      as (bins' & Hret & Hc & Hs).
    { intros q Hq. rewrite bumpBin_length. apply Hin. now right. }
    destruct (bumpBin_totals j (semivariance pr) bins) as [Hc1 Hs1];
      [unfold j; lia|].
    exists bins'. rewrite Hc1 in Hc. rewrite Hs1 in Hs.
    repeat split; [assumption | lia | lra].
Qed.

(** X2: with a positive bin width the guard [binIndex < bins.length] never
    drops a pair: the counts of the bins add up to the [n (n - 1) / 2] pairs
    of the [n] samples. *)
Theorem semivariogramBins_conservation (samples : list Sample) (binSize : R) :
  0 < binSize ->
  exists bins,
    semivariogramBins samples binSize = Returns bins /\
    (2 * list_sum (map bin_count bins)
     = length samples * (length samples - 1))%nat.
Proof.
  intros Hb. unfold semivariogramBins.
  destruct (Nat.ltb_spec (length samples) 2) as [Hfew|Hmany].
  { exists []. split; [reflexivity|].
    destruct samples as [|a [|b rest]]; simpl in *; try lia; reflexivity. }
  pose proof (allPairs_length samples) as Hlen.
  destruct (allPairs samples) as [|p ps] eqn:Epairs.
  { exists []. simpl in *. split; [reflexivity | lia]. }
  replace (Req_b binSize 0) with false
    by (symmetry; apply Req_b_false; lra).
  set (maxDistance := fold_left Rmax (map distance ps) (distance p)).
  destruct (assignPairs_totals binSize (p :: ps)
              (makeBins maxDistance binSize))
    as (bins & Hret & Hc & _).
  { intros pr Hpr. rewrite makeBins_length.
    apply index_in_bins; [assumption|]. split.
    - apply (allPairs_nonneg samples). now rewrite Epairs.
    - unfold maxDistance. apply fold_Rmax_ge.
      change (distance p :: map distance ps) with (map distance (p :: ps)).
      now apply in_map. }
  assert (Hempty : list_sum (map bin_count (makeBins maxDistance binSize))
                   = O).
  { unfold makeBins. rewrite !map_map. simpl.
    generalize (seq 0 (Z.to_nat (Math_ceil (maxDistance / binSize) + 1))).
    intros l. induction l as [|a l IH]; simpl; [reflexivity | assumption]. }
  rewrite Hempty in Hc.
  exists bins. split; [assumption | lia].
Qed.

Lemma semivariogramBins_conservation_witness :
  exists bins,
    semivariogramBins scenario 3 = Returns bins /\
    (2 * list_sum (map bin_count bins)
     = length scenario * (length scenario - 1))%nat.
Proof.
  apply (semivariogramBins_conservation scenario 3). lra.
Defined.

(** ** What a returned bin says about its pairs *)

(** In exact arithmetic:
    with a positive bin width every returned point has a non-negative
    semivariance, and its distance is the midpoint of an interval one bin
    wide that holds the distance of every pair averaged into it. *)
Theorem calculateSemivariogram_labels (samples : list Sample) (binSize : R) :
  0 < binSize ->
  exists points,
    calculateSemivariogram samples binSize = Returns points /\
    forall e, In e points ->
      0 <= semivariance e /\
      exists k,
        distance e = (INR k + 0.5) * binSize /\
        pairsIn binSize k (allPairs samples) <> [] /\
        forall pr, In pr (pairsIn binSize k (allPairs samples)) ->
          distance e - binSize / 2 <= distance pr
          < distance e + binSize / 2.
Proof.
  intros Hb.
  destruct (calculateSemivariogram_spec samples binSize Hb)
    as (points & Hret & Hpts & _).
  exists points. split; [assumption|]. intros e He.
  destruct (Hpts e He) as (k & Hpos & Hd & Hs). split.
  - rewrite Hs. apply meanSemivariance_nonneg; [|assumption].
    intros pr Hpr. apply filter_In in Hpr as [Hpr _].
    now apply (allPairs_nonneg samples).
  - exists k. split; [assumption|]. split.
    + intros E. rewrite E in Hpos. simpl in Hpos. lia.
    + intros pr Hpr. apply filter_In in Hpr as [_ Hidx].
      apply Z.eqb_eq in Hidx.
      destruct (Math_floor_spec (distance pr / binSize)) as [Hlo Hhi].
      rewrite Hidx, <- INR_IZR_INZ in Hlo, Hhi.
      assert (Hi : 0 < / binSize) by now apply Rinv_0_lt_compat.
      assert (Hd1 : distance pr = distance pr / binSize * binSize)
        by (field; lra).
      rewrite Hd, Hd1. split.
      * assert (INR k * binSize <= distance pr / binSize * binSize)
          by (apply Rmult_le_compat_r; lra).
        lra.
      * assert (distance pr / binSize * binSize < (INR k + 1) * binSize)
          by (apply Rmult_lt_compat_r; lra).
        lra.
Qed.

Lemma calculateSemivariogram_labels_witness :
  exists points,
    calculateSemivariogram scenario 3 = Returns points /\
    forall e, In e points ->
      0 <= semivariance e /\
      exists k,
        distance e = (INR k + 0.5) * 3 /\
        pairsIn 3 k (allPairs scenario) <> [] /\
        forall pr, In pr (pairsIn 3 k (allPairs scenario)) ->
          distance e - 3 / 2 <= distance pr < distance e + 3 / 2.
Proof.
  apply (calculateSemivariogram_labels scenario 3). lra.
Defined.

(** ** A negative bin width *)

Lemma euclid_pos (x1 y1 x2 y2 : R) :
  (x1, y1) <> (x2, y2) -> 0 < euclid x1 y1 x2 y2.
Proof.
  intros Hne. unfold euclid. apply sqrt_lt_R0.
  pose proof (Rle_0_sqr (x1 - x2)) as Hx2.
  pose proof (Rle_0_sqr (y1 - y2)) as Hy2. unfold Rsqr in Hx2, Hy2.
  destruct (Req_dec_T x1 x2) as [->|Hx].
  - assert (Hy : y1 - y2 <> 0) by (intros E; apply Hne; f_equal; lra).
    pose proof (Rsqr_pos_lt _ Hy) as H. unfold Rsqr in H. lra.
  - assert (Hx' : x1 - x2 <> 0) by lra.
    pose proof (Rsqr_pos_lt _ Hx') as H. unfold Rsqr in H. lra.
Qed.

Lemma allPairs_in (samples : list Sample) (i j : nat) (si sj : Sample) :
  (i < j)%nat ->
  nth_error samples i = Some si -> nth_error samples j = Some sj ->
  In (pairOf si sj) (allPairs samples).
Proof.
  revert i j. induction samples as [|a rest IH]; intros i j Hij Hi Hj.
  - destruct i; discriminate.
  - destruct j as [|j]; [lia|]. simpl in Hj. simpl. apply in_or_app.
    destruct i as [|i].
    + simpl in Hi. inversion Hi; subst. left. apply in_map.
      now apply nth_error_In in Hj.
    + right. apply (IH i j); [lia | assumption | assumption].
Qed.

Lemma assignPairs_negative (binSize : R) (pairs : list EmpiricalPoint) :
  forall bins : list Bin,
    (forall pr, In pr pairs -> (Math_floor (distance pr / binSize) <= 0)%Z) ->
    (exists pr, In pr pairs /\ (Math_floor (distance pr / binSize) < 0)%Z) ->
    assignPairs binSize pairs bins = Throws TypeError.
Proof.
  induction pairs as [|pr rest IH]; intros bins Hall (q & Hq & Hneg);
    [contradiction|].
  simpl.
  destruct (Z.ltb_spec (Math_floor (distance pr / binSize))
              (Z.of_nat (length bins))) as [Hin|Hout];
    [destruct (Z.ltb_spec (Math_floor (distance pr / binSize)) 0)
       as [Hlt|Hge]; [reflexivity|] |].
  - apply IH; [intros r Hr; apply Hall; now right|].
    destruct Hq as [->|Hq]; [lia | eauto].
  - apply IH; [intros r Hr; apply Hall; now right|].
    destruct Hq as [->|Hq]; [lia | eauto].
Qed.

(** X4: with a negative bin width and two samples at different locations the
    call throws: the pair's bin index is negative, passes the guard
    [binIndex < bins.length], and [bins[binIndex]] is [undefined]. *)
Theorem calculateSemivariogram_negative_width (samples : list Sample)
  (binSize : R) (i j : nat) (si sj : Sample) :
  binSize < 0 -> (i < j)%nat ->
  nth_error samples i = Some si -> nth_error samples j = Some sj ->
  location si <> location sj ->
  calculateSemivariogram samples binSize = Throws TypeError.
Proof.
  intros Hb Hij Hi Hj Hloc.
  pose proof (allPairs_in samples i j si sj Hij Hi Hj) as Hin.
  assert (Hlen : (2 <= length samples)%nat).
  { assert (j < length samples)%nat by (apply nth_error_Some; congruence).
    lia. }
  unfold calculateSemivariogram, semivariogramBins.
  replace (length samples <? 2)%nat with false
    by (symmetry; apply Nat.ltb_ge; lia).
  destruct (allPairs samples) as [|p ps] eqn:Epairs; [contradiction|].
  replace (Req_b binSize 0) with false
    by (symmetry; apply Req_b_false; lra).
  rewrite assignPairs_negative; [reflexivity | |].
  - intros pr Hpr.
    assert (Hd : 0 <= distance pr).
    { apply (allPairs_nonneg samples). now rewrite Epairs. }
    destruct (Math_floor_spec (distance pr / binSize)) as [Hlo _].
    assert (distance pr / binSize <= 0).
    { unfold Rdiv. assert (/ binSize < 0) by now apply Rinv_lt_0_compat.
      nra. }
    apply le_IZR. lra.
  - exists (pairOf si sj). split; [assumption|].
    assert (Hd : 0 < distance (pairOf si sj))
      by (simpl; now apply euclid_pos).
    destruct (Math_floor_spec (distance (pairOf si sj) / binSize))
      as [Hlo _].
    assert (distance (pairOf si sj) / binSize < 0).
    { unfold Rdiv. assert (/ binSize < 0) by now apply Rinv_lt_0_compat.
      nra. }
    apply lt_IZR. lra.
Qed.

Lemma calculateSemivariogram_negative_width_witness :
  calculateSemivariogram scenario (-3) = Throws TypeError.
Proof.
  apply (calculateSemivariogram_negative_width scenario (-3) 0 1
           (mkSample 0 0 5) (mkSample 3 0 8)).
  - lra.
  - lia.
  - reflexivity.
  - reflexivity.
  - unfold location. simpl. intros E. inversion E. lra.
Defined.

(** ** The empirical semivariogram does not depend on the order *)

Lemma euclid_sym (x1 y1 x2 y2 : R) : euclid x1 y1 x2 y2 = euclid x2 y2 x1 y1.
Proof. unfold euclid. f_equal. ring. Qed.

Lemma pairOf_sym (si sj : Sample) : pairOf si sj = pairOf sj si.
Proof.
  unfold pairOf. apply mkPoint_eq; [apply euclid_sym | simpl; ring].
Qed.

Lemma allPairs_permutation (samples samples' : list Sample) :
  Permutation samples samples' ->
  Permutation (allPairs samples) (allPairs samples').
Proof.
  induction 1 as [|a l l' Hperm IH|a b l|l l' l'' _ IH1 _ IH2]; simpl.
  - constructor.
  - apply Permutation_app; [now apply Permutation_map | assumption].
  - rewrite (pairOf_sym b a). constructor.
    rewrite !app_assoc. apply Permutation_app_tail, Permutation_app_comm.
  - now transitivity (allPairs l').
Qed.

Lemma filter_permutation {A : Type} (f : A -> bool) (l l' : list A) :
  Permutation l l' -> Permutation (filter f l) (filter f l').
Proof.
  induction 1 as [|a l l' Hperm IH|a b l|l l' l'' _ IH1 _ IH2]; simpl.
  - constructor.
  - destruct (f a); [now constructor | assumption].
  - destruct (f a), (f b); try reflexivity. constructor.
  - now transitivity (filter f l').
Qed.

Lemma fold_Rmax_permutation (p q : R) (ps qs : list R) :
  Permutation (p :: ps) (q :: qs) ->
  fold_left Rmax ps p = fold_left Rmax qs q.
Proof.
  intros Hperm. apply Rle_antisym.
  - apply fold_Rmax_ge. apply (Permutation_in _ Hperm). apply fold_Rmax_in.
  - apply fold_Rmax_ge.
    apply (Permutation_in _ (Permutation_sym Hperm)). apply fold_Rmax_in.
Qed.

Lemma fold_Rmin_permutation (p q : R) (ps qs : list R) :
  Permutation (p :: ps) (q :: qs) ->
  fold_left Rmin ps p = fold_left Rmin qs q.
Proof.
  intros Hperm. apply Rle_antisym.
  - apply fold_Rmin_le.
    apply (Permutation_in _ (Permutation_sym Hperm)). apply fold_Rmin_in.
  - apply fold_Rmin_le. apply (Permutation_in _ Hperm). apply fold_Rmin_in.
Qed.

Lemma Bin_eq (b b' : Bin) :
  bin_distance b = bin_distance b' -> bin_count b = bin_count b' ->
  bin_sum b = bin_sum b' -> b = b'.
Proof. destruct b, b'. simpl. intros -> -> ->. reflexivity. Qed.

Lemma fold_left_Rplus (l : list R) (a : R) :
  fold_left Rplus l a = a + Rsum l.
Proof.
  revert a. induction l as [|b l IH]; intros a; simpl; [lra|].
  rewrite IH. lra.
Qed.

(** The assignment loop reaches the same bins from any order of the pairs,
    when every index is inside the bins. *)
Lemma assignPairs_permutation (binSize : R) (pairs pairs' : list EmpiricalPoint)
  (bins : list Bin) :
  Permutation pairs pairs' ->
  (forall pr, In pr pairs ->
              (0 <= Math_floor (distance pr / binSize)
               < Z.of_nat (length bins))%Z) ->
  assignPairs binSize pairs bins = assignPairs binSize pairs' bins.
Proof.
  intros Hperm Hin.
  destruct (assignPairs_spec binSize pairs bins Hin)
    as (B & -> & Hlen & Hdist & Hk).
  destruct (assignPairs_spec binSize pairs' bins)
    as (B' & -> & Hlen' & Hdist' & Hk').
  { intros pr Hpr. apply Hin.
    apply (Permutation_in _ (Permutation_sym Hperm) Hpr). }
  f_equal. apply (nth_ext _ _ defaultBin defaultBin); [congruence|].
  intros k Hlt. rewrite Hlen in Hlt.
  destruct (Hk k Hlt) as [Hc Hs]. destruct (Hk' k Hlt) as [Hc' Hs'].
  pose proof (filter_permutation
                (fun pr => (Math_floor (distance pr / binSize)
                            =? Z.of_nat k)%Z) _ _ Hperm) as Hf.
  fold (pairsIn binSize k pairs) in Hf.
  fold (pairsIn binSize k pairs') in Hf.
  apply Bin_eq.
  - rewrite <- !(map_nth bin_distance). now rewrite Hdist, Hdist'.
  - rewrite Hc, Hc'. now rewrite (Permutation_length Hf).
  - rewrite Hs, Hs', !fold_left_Rplus.
    now rewrite (Rsum_map_permutation semivariance _ _ Hf).
Qed.

(** In exact arithmetic:
    the result of [calculateSemivariogram] is the same on a sample list and
    on any permutation of it, for every bin width: the same bins come back,
    or the same failure. *)
Theorem calculateSemivariogram_permutation (samples samples' : list Sample)
  (binSize : R) :
  Permutation samples samples' ->
  calculateSemivariogram samples binSize
  = calculateSemivariogram samples' binSize.
Proof.
  intros Hperm.
  enough (H : semivariogramBins samples binSize
              = semivariogramBins samples' binSize)
    by (unfold calculateSemivariogram; now rewrite H).
  unfold semivariogramBins. rewrite <- (Permutation_length Hperm).
  destruct (length samples <? 2)%nat; [reflexivity|].
  pose proof (allPairs_permutation _ _ Hperm) as Hpairs.
  destruct (allPairs samples) as [|p ps] eqn:E;
    destruct (allPairs samples') as [|q qs] eqn:E'.
  - reflexivity.
  - apply Permutation_nil in Hpairs. discriminate.
  - apply Permutation_sym, Permutation_nil in Hpairs. discriminate.
  - assert (Hmax : fold_left Rmax (map distance ps) (distance p)
                   = fold_left Rmax (map distance qs) (distance q)).
    { apply fold_Rmax_permutation.
      apply (Permutation_map distance) in Hpairs. exact Hpairs. }
    rewrite <- Hmax.
    set (maxDistance := fold_left Rmax (map distance ps) (distance p)).
    assert (Hnonneg : forall pr, In pr (p :: ps) -> 0 <= distance pr).
    { intros pr Hpr. apply (allPairs_nonneg samples). now rewrite E. }
    assert (Hle : forall pr, In pr (p :: ps) -> distance pr <= maxDistance).
    { intros pr Hpr. unfold maxDistance. apply fold_Rmax_ge.
      change (distance p :: map distance ps) with (map distance (p :: ps)).
      now apply in_map. }
    destruct (Req_b binSize 0) eqn:E0; [reflexivity|].
    apply Req_b_false in E0.
    destruct (Rlt_le_dec 0 binSize) as [Hpos|Hneg].
    + apply assignPairs_permutation; [assumption|].
      intros pr Hpr. rewrite makeBins_length.
      apply index_in_bins; [assumption|]. split; auto.
    + assert (Hb : binSize < 0) by lra.
      assert (Hinv : / binSize < 0) by now apply Rinv_lt_0_compat.
      assert (Hidx : forall pr, In pr (p :: ps) ->
                (Math_floor (distance pr / binSize) <= 0)%Z).
      { intros pr Hpr. specialize (Hnonneg pr Hpr).
        destruct (Math_floor_spec (distance pr / binSize)) as [Hlo _].
        assert (distance pr / binSize <= 0) by (unfold Rdiv; nra).
        apply le_IZR. lra. }
      destruct (Req_dec_T maxDistance 0) as [Hzero|Hnz].
      * apply assignPairs_permutation; [assumption|].
        intros pr Hpr. rewrite makeBins_length, Hzero.
        assert (Hd : distance pr = 0).
        { specialize (Hnonneg pr Hpr). specialize (Hle pr Hpr). lra. }
        rewrite Hd. unfold Rdiv. rewrite !Rmult_0_l.
        rewrite (Math_floor_IZR 0), (Math_ceil_IZR 0). simpl. lia.
      * assert (Hex : exists pr, In pr (p :: ps) /\
                  (Math_floor (distance pr / binSize) < 0)%Z).
        { destruct (fold_Rmax_in (map distance ps) (distance p)) as [Hin|Hin].
          - exists p. split; [now left|].
            fold maxDistance in Hin.
            assert (0 < distance p).
            { specialize (Hnonneg p (or_introl eq_refl)). lra. }
            destruct (Math_floor_spec (distance p / binSize)) as [Hlo _].
            assert (distance p / binSize < 0) by (unfold Rdiv; nra).
            apply lt_IZR. lra.
          - fold maxDistance in Hin.
            apply in_map_iff in Hin as (pr & Hd & Hpr).
            exists pr. split; [now right|].
            assert (0 < distance pr).
            { specialize (Hnonneg pr (or_intror Hpr)). lra. }
            destruct (Math_floor_spec (distance pr / binSize)) as [Hlo _].
            assert (distance pr / binSize < 0) by (unfold Rdiv; nra).
            apply lt_IZR. lra. }
        rewrite !assignPairs_negative; try reflexivity; try assumption.
        -- intros pr Hpr. apply Hidx.
           apply (Permutation_in _ (Permutation_sym Hpairs) Hpr).
        -- destruct Hex as (pr & Hpr & Hlt). exists pr.
           split; [apply (Permutation_in _ Hpairs Hpr) | assumption].
Qed.

Lemma calculateSemivariogram_permutation_witness :
  calculateSemivariogram scenario 3
  = calculateSemivariogram (rev scenario) 3.
Proof.
  apply (calculateSemivariogram_permutation scenario (rev scenario) 3).
  apply Permutation_rev.
Defined.

(** ** The heuristic fit on any empirical sequence *)

(** X6: on a non-empty sequence the fitted nugget is a tenth of the smallest
    semivariance, the sill 1.1 times the largest, and the range half the
    largest distance; each extreme is taken at a point of the sequence. *)
Theorem fitVariogramParams_extremes (empirical : list EmpiricalPoint) :
  empirical <> [] ->
  let p := fitVariogramParams empirical in
  (forall e, In e empirical ->
     nugget p <= semivariance e * 0.1 /\
     semivariance e * 1.1 <= sill p /\
     distance e * 0.5 <= range p) /\
  (exists e, In e empirical /\ nugget p = semivariance e * 0.1) /\
  (exists e, In e empirical /\ sill p = semivariance e * 1.1) /\
  (exists e, In e empirical /\ range p = distance e * 0.5).
Proof.
  intros Hne. destruct empirical as [|e0 es]; [contradiction|]. simpl.
  assert (Hin : forall (f : EmpiricalPoint -> R) v,
            In v (f e0 :: map f es) ->
            exists e, (e0 = e \/ In e es) /\ v = f e).
  { intros f v [<-|Hv]; [exists e0; auto|].
    apply in_map_iff in Hv as (e & <- & He). exists e; auto. }
  split; [|split; [|split]].
  - intros e He.
    assert (Hs : In (semivariance e) (semivariance e0 :: map semivariance es)).
    { destruct He as [->|He]; [now left | right; now apply in_map]. }
    assert (Hd : In (distance e) (distance e0 :: map distance es)).
    { destruct He as [->|He]; [now left | right; now apply in_map]. }
    pose proof (fold_Rmin_le _ _ _ Hs). pose proof (fold_Rmax_ge _ _ _ Hs).
    pose proof (fold_Rmax_ge _ _ _ Hd). lra.
  - destruct (Hin semivariance _
                (fold_Rmin_in (map semivariance es) (semivariance e0)))
      as (e & He & Heq).
    exists e. rewrite Heq. auto.
  - destruct (Hin semivariance _
                (fold_Rmax_in (map semivariance es) (semivariance e0)))
      as (e & He & Heq).
    exists e. rewrite Heq. auto.
  - destruct (Hin distance _
                (fold_Rmax_in (map distance es) (distance e0)))
      as (e & He & Heq).
    exists e. rewrite Heq. auto.
Qed.

Lemma fitVariogramParams_extremes_witness :
  let empirical := [mkPoint 4.5 4.5; mkPoint 7.5 0] in
  let p := fitVariogramParams empirical in
  (forall e, In e empirical ->
     nugget p <= semivariance e * 0.1 /\
     semivariance e * 1.1 <= sill p /\
     distance e * 0.5 <= range p) /\
  (exists e, In e empirical /\ nugget p = semivariance e * 0.1) /\
  (exists e, In e empirical /\ sill p = semivariance e * 1.1) /\
  (exists e, In e empirical /\ range p = distance e * 0.5).
Proof.
  apply (fitVariogramParams_extremes [mkPoint 4.5 4.5; mkPoint 7.5 0]).
  discriminate.
Defined.

(** X31: the fit does not depend on the order of the empirical points. *)
Theorem fitVariogramParams_permutation
  (empirical empirical' : list EmpiricalPoint) :
  Permutation empirical empirical' ->
  fitVariogramParams empirical = fitVariogramParams empirical'.
Proof.
  intros Hperm.
  destruct empirical as [|e es]; destruct empirical' as [|e' es'].
  - reflexivity.
  - apply Permutation_nil in Hperm. discriminate.
  - apply Permutation_sym, Permutation_nil in Hperm. discriminate.
  - simpl.
    pose proof (Permutation_map semivariance Hperm) as Hs.
    pose proof (Permutation_map distance Hperm) as Hd. simpl in Hs, Hd.
    rewrite (fold_Rmin_permutation _ _ _ _ Hs),
            (fold_Rmax_permutation _ _ _ _ Hs),
            (fold_Rmax_permutation _ _ _ _ Hd).
    reflexivity.
Qed.

Lemma fitVariogramParams_permutation_witness :
  fitVariogramParams [mkPoint 4.5 4.5; mkPoint 7.5 0]
  = fitVariogramParams [mkPoint 7.5 0; mkPoint 4.5 4.5].
Proof.
  apply (fitVariogramParams_permutation
           [mkPoint 4.5 4.5; mkPoint 7.5 0] [mkPoint 7.5 0; mkPoint 4.5 4.5]).
  apply perm_swap.
Defined.

(** ** What the solver returns *)

(** In exact arithmetic:
    on a square system a returned vector is the one and only solution:
    a vector of the right length solves the system exactly when it is the
    returned one. *)
Theorem gaussianElimination_exactly_one (A : list (list R)) (b x : list R) :
  square (length A) A -> length b = length A ->
  gaussianElimination A b = Some x ->
  forall v, length v = length A ->
            (solves (length A) A b v <-> v = x).
Proof.
  intros Hsq Hlen Hge v Hv.
  destruct (gaussianElimination_solution A b x Hsq Hlen Hge)
    as (Hx & Hsol & Huniq).
  split.
  - intros Hs. apply (nth_ext _ _ 0 0); [congruence|].
    intros i Hi. apply Huniq; [assumption | lia].
  - intros ->. assumption.
Qed.

Lemma gaussianElimination_exactly_one_witness :
  solves 2 [[0; 1]; [1; 0]] [5; 1] [1 / 1; 5 / 1]
  <-> [1 / 1; 5 / 1] = [1 / 1; 5 / 1].
Proof.
  apply (gaussianElimination_exactly_one [[0; 1]; [1; 0]] [5; 1]
           [1 / 1; 5 / 1]); [| | |reflexivity].
  - split; [reflexivity|]. intros [|[|k]] Hk; simpl in *; lia.
  - reflexivity.
  - unfold gaussianElimination. cbn [length seq forwardElimination].
    replace (eliminateColumn 2 0 [[0; 1]; [1; 0]] [5; 1])
      with (Some ([[1; 0]; [0; 1]], [1; 5])).
    2:{ symmetry. step_eval. f_equal. f_equal; [matrix_eq | row_eq]. }
    replace (eliminateColumn 2 1 [[1; 0]; [0; 1]] [1; 5])
      with (Some ([[1; 0]; [0; 1]], [1; 5])).
    2:{ symmetry. step_eval. reflexivity. }
    f_equal. unfold backSubstitution, backStep.
    cbn [seq rev app fold_left repeat Nat.sub entry nth set_nth].
    row_eq.
Defined.

Lemma rowDot_plus (n : nat) (M : list (list R)) (x v : list R) (k : nat) :
  rowDot n M (map (fun j => nth j x 0 + nth j v 0) (seq 0 n)) k
  = rowDot n M x k + rowDot n M v k.
Proof.
  unfold rowDot.
  transitivity
    (Rsum (map (fun j => entry M k j * nth j x 0
                         - (-1) * (entry M k j * nth j v 0)) (seq 0 n))).
  - apply Rsum_map_ext. intros j Hj. apply in_seq in Hj.
    rewrite (nth_indep _ 0 ((fun j => nth j x 0 + nth j v 0) O))
      by (rewrite length_map, length_seq; lia).
    rewrite (map_nth (fun j => nth j x 0 + nth j v 0)), seq_nth by lia.
    simpl. ring.
  - rewrite Rsum_map_combine. ring.
Qed.

(** In exact arithmetic:
    a square system whose matrix sends a non-zero vector to zero is always
    refused, whatever the right-hand side: the solver returns null. *)
Theorem gaussianElimination_dependent_columns (A : list (list R))
  (b kernel : list R) (i : nat) :
  square (length A) A -> length b = length A ->
  solves (length A) A (repeat 0 (length A)) kernel ->
  (i < length A)%nat -> nth i kernel 0 <> 0 ->
  gaussianElimination A b = None.
Proof.
  intros Hsq Hlen Hker Hi Hnz.
  destruct (gaussianElimination A b) as [x|] eqn:Hge; [|reflexivity].
  exfalso.
  destruct (gaussianElimination_solution A b x Hsq Hlen Hge)
    as (Hx & Hsol & Huniq).
  set (n := length A) in *.
  set (w := map (fun j => nth j x 0 + nth j kernel 0) (seq 0 n)).
  assert (Hw : solves n A b w).
  { intros k Hk. unfold w. rewrite rowDot_plus, (Hsol k Hk), (Hker k Hk).
    rewrite nth_repeat_lt by assumption. lra. }
  specialize (Huniq w Hw i Hi). unfold w in Huniq.
  rewrite (nth_indep _ 0 ((fun j => nth j x 0 + nth j kernel 0) O)) in Huniq
    by (rewrite length_map, length_seq; assumption).
  rewrite (map_nth (fun j => nth j x 0 + nth j kernel 0)), seq_nth in Huniq
    by assumption.
  simpl in Huniq. lra.
Qed.

Lemma gaussianElimination_dependent_columns_witness :
  gaussianElimination [[1; 2]; [2; 4]] [3; 5] = None.
Proof.
  apply (gaussianElimination_dependent_columns
           [[1; 2]; [2; 4]] [3; 5] [2; -1] 0).
  - split; [reflexivity|]. intros [|[|k]] Hk; simpl in *; lia.
  - reflexivity.
  - intros [|[|k]] Hk; unfold rowDot, entry; simpl in *; try lia; lra.
  - simpl. lia.
  - simpl. lra.
Defined.

(** ** The prediction as a weighted average *)

Lemma mapi_from_map_in {A B C : Type} (f : nat -> B -> C) (g : A -> B)
  (k : nat) (l : list A) :
  mapi_from f k (map g l) = mapi_from (fun i a => f i (g a)) k l.
Proof.
  revert k. induction l as [|a l IH]; intros k; simpl; [|rewrite IH];
    reflexivity.
Qed.

(** The system depends on the samples through their mutual distances and
    their distances to the query only. *)
Lemma krigingMatrix_map (g : Sample -> Sample) (samples : list Sample)
  (params : VariogramParams) :
  (forall s t, euclid (s_x (g s)) (s_y (g s)) (s_x (g t)) (s_y (g t))
               = euclid (s_x s) (s_y s) (s_x t) (s_y t)) ->
  krigingMatrix (map g samples) params = krigingMatrix samples params.
Proof.
  intros Hg. unfold krigingMatrix. rewrite length_map. f_equal.
  rewrite mapi_from_map_in. apply mapi_from_ext. intros i si _.
  unfold krigingRow. f_equal. rewrite mapi_from_map_in.
  apply mapi_from_ext. intros j sj _. now rewrite Hg.
Qed.

Lemma krigingRhs_map (g : Sample -> Sample) (x y x' y' : R)
  (samples : list Sample) (params : VariogramParams) :
  (forall s, euclid x' y' (s_x (g s)) (s_y (g s))
             = euclid x y (s_x s) (s_y s)) ->
  krigingRhs x' y' (map g samples) params = krigingRhs x y samples params.
Proof.
  intros Hg. unfold krigingRhs. f_equal. rewrite map_map.
  apply map_ext. intros s. now rewrite Hg.
Qed.

Lemma find_map_atLocation (g : Sample -> Sample) (x y x' y' : R)
  (samples : list Sample) :
  (forall s, atLocation x' y' (g s) = atLocation x y s) ->
  find (atLocation x' y') (map g samples)
  = option_map g (find (atLocation x y) samples).
Proof.
  intros Hg. induction samples as [|s l IH]; simpl; [reflexivity|].
  rewrite Hg. destruct (atLocation x y s); [reflexivity | assumption].
Qed.

Lemma idwWeight_pos (x y : R) (s : Sample) :
  ~ near x y s -> 0 < idwWeight x y s.
Proof.
  intros Hfar. unfold near in Hfar. unfold idwWeight.
  set (d := euclid x y (s_x s) (s_y s)) in *.
  assert (Hd : 0.001 <= d) by lra.
  assert (0 < d * d) by nra.
  unfold Rdiv. rewrite Rmult_1_l. now apply Rinv_0_lt_compat.
Qed.

(** The fallback commutes with [z |-> a * z + b], from any state of its
    accumulators that is not the empty one. *)
Lemma idwLoop_rescale (a b x y : R) (samples : list Sample) :
  forall totalWeight weightedSum,
    0 <= totalWeight -> (samples <> [] \/ 0 < totalWeight) ->
    idwLoop x y (map (rescale a b) samples) totalWeight
            (a * weightedSum + b * totalWeight)
    = a * idwLoop x y samples totalWeight weightedSum + b.
Proof.
  induction samples as [|s l IH]; intros tw ws Htw Hne; simpl.
  - destruct Hne as [Hne|Hpos]; [contradiction|].
    replace (Rlt_b 0 tw) with true by (symmetry; now apply Rlt_b_true).
    field. lra.
  - destruct (Rlt_b (euclid x y (s_x s) (s_y s)) 0.001) eqn:E;
      [reflexivity|].
    apply Rlt_b_false in E.
    assert (Hw : 0 < idwWeight x y s).
    { apply idwWeight_pos. unfold near. lra. }
    unfold idwWeight in Hw.
    set (w := 1 / (euclid x y (s_x s) (s_y s) * euclid x y (s_x s) (s_y s)))
      in *.
    replace (a * ws + b * tw + w * (a * s_z s + b))
      with (a * (ws + w * s_z s) + b * (tw + w)) by ring.
    apply IH; [lra | right; lra].
Qed.

Lemma inverseDistanceWeighting_rescale (a b x y : R) (samples : list Sample) :
  samples <> [] ->
  inverseDistanceWeighting x y (map (rescale a b) samples)
  = a * inverseDistanceWeighting x y samples + b.
Proof.
  intros Hne. unfold inverseDistanceWeighting.
  rewrite <- (idwLoop_rescale a b x y samples 0 0); [|lra | now left].
  f_equal. ring.
Qed.

(** The weights of a solved system add up to 1. *)
Lemma kriging_weights_sum (x y : R) (samples : list Sample)
  (params : VariogramParams) (w : list R) :
  gaussianElimination (krigingMatrix samples params)
                      (krigingRhs x y samples params) = Some w ->
  Rsum (map (fun i => nth i w 0) (seq 0 (length samples))) = 1.
Proof.
  intros Hge.
  apply gaussianElimination_solution in Hge as (Hlen & Hsol & _);
    [|rewrite krigingMatrix_length; apply krigingMatrix_square
     |now rewrite krigingMatrix_length, krigingRhs_length].
  rewrite krigingMatrix_length in *.
  apply krigingSystem_equations in Hsol as [_ Hone]; [|lia].
  rewrite <- Hone.
  apply (Rsum_seq_combine (fun _ v => v) defaultSample samples w). lia.
Qed.

Lemma predictionOf_seq (samples : list Sample) (w : list R) :
  predictionOf samples w
  = Rsum (map (fun i => nth i w 0 * s_z (nth i samples defaultSample))
              (seq 0 (length samples))).
Proof.
  unfold predictionOf. now rewrite fold_left_plus, Rplus_0_l.
Qed.

Lemma Rsum_map_affine {A : Type} (f g : A -> R) (a b : R) (l : list A) :
  Rsum (map (fun i => a * f i + b * g i) l)
  = a * Rsum (map f l) + b * Rsum (map g l).
Proof.
  induction l as [|i l IH]; simpl; [ring | rewrite IH; ring].
Qed.

(** In exact arithmetic:
    sending every sample value through [z |-> a * z + b] sends the
    prediction through the same map, for every query point and parameters:
    the prediction is an average of the sample values with weights that add
    up to 1 and do not depend on the values. *)
Theorem krigePoint_affine (a b x y : R) (samples : list Sample)
  (params : VariogramParams) :
  samples <> [] ->
  krigePoint x y (map (rescale a b) samples) params
  = a * krigePoint x y samples params + b.
Proof.
  intros Hne.
  assert (Hfind : find (atLocation x y) (map (rescale a b) samples)
                  = option_map (rescale a b) (find (atLocation x y) samples))
    by now apply find_map_atLocation.
  assert (HA : krigingMatrix (map (rescale a b) samples) params
               = krigingMatrix samples params)
    by now apply krigingMatrix_map.
  assert (Hb : krigingRhs x y (map (rescale a b) samples) params
               = krigingRhs x y samples params)
    by now apply krigingRhs_map.
  unfold krigePoint. destruct samples as [|s0 rest]; [contradiction|].
  change (map (rescale a b) (s0 :: rest))
    with (rescale a b s0 :: map (rescale a b) rest) at 1.
  cbv iota. rewrite Hfind, HA, Hb.
  destruct (find (atLocation x y) (s0 :: rest)) as [s|]; [reflexivity|].
  simpl option_map. cbv iota.
  destruct (gaussianElimination (krigingMatrix (s0 :: rest) params)
              (krigingRhs x y (s0 :: rest) params)) as [w|] eqn:Hge.
  - rewrite !predictionOf_seq, length_map.
    pose proof (kriging_weights_sum x y (s0 :: rest) params w Hge) as Hone.
    transitivity
      (a * Rsum (map (fun i => nth i w 0
                               * s_z (nth i (s0 :: rest) defaultSample))
                     (seq 0 (length (s0 :: rest))))
       + b * Rsum (map (fun i => nth i w 0) (seq 0 (length (s0 :: rest)))));
      [|rewrite Hone; ring].
    rewrite <- Rsum_map_affine. apply Rsum_map_ext.
    intros i Hi. apply in_seq in Hi.
    rewrite (nth_indep _ defaultSample (rescale a b defaultSample))
      by (rewrite length_map; lia).
    rewrite (map_nth (rescale a b)). simpl. ring.
  - now apply inverseDistanceWeighting_rescale.
Qed.

Lemma krigePoint_affine_witness :
  krigePoint 1 0 (map (rescale 2 3) [mkSample 0 0 1; mkSample 0 0 2])
             (mkParams 0 30 20)
  = 2 * krigePoint 1 0 [mkSample 0 0 1; mkSample 0 0 2] (mkParams 0 30 20)
    + 3.
Proof.
  apply (krigePoint_affine 2 3 1 0 [mkSample 0 0 1; mkSample 0 0 2]
           (mkParams 0 30 20)).
  discriminate.
Defined.

(** In exact arithmetic:
    samples that all carry the value [c] give the prediction [c] at every
    query point and for all parameters, through the exact match, the solved
    system and the fallback alike; a single sample gives its own value
    everywhere. *)
Theorem krigePoint_constant (c x y : R) (samples : list Sample)
  (params : VariogramParams) :
  samples <> [] -> (forall s, In s samples -> s_z s = c) ->
  krigePoint x y samples params = c.
Proof.
  intros Hne Hc.
  destruct (find (atLocation x y) samples) as [s|] eqn:Hfind.
  - rewrite (krigePoint_found _ _ _ _ _ Hfind). apply Hc.
    now apply find_some in Hfind as [Hin _].
  - assert (Hnone : forall s, In s samples -> atLocation x y s = false)
      by now apply find_none_iff.
    destruct (gaussianElimination (krigingMatrix samples params)
                (krigingRhs x y samples params)) as [w|] eqn:Hge.
    + rewrite (krigePoint_solved _ _ _ _ w Hne Hnone Hge), predictionOf_seq.
      pose proof (kriging_weights_sum x y samples params w Hge) as Hone.
      transitivity
        (0 * Rsum (map (fun _ : nat => 0) (seq 0 (length samples)))
         + c * Rsum (map (fun i => nth i w 0) (seq 0 (length samples))));
        [|rewrite Hone; ring].
      rewrite <- Rsum_map_affine.
      apply Rsum_map_ext. intros i Hi. apply in_seq in Hi.
      rewrite (Hc (nth i samples defaultSample)) by (apply nth_In; lia).
      ring.
    + rewrite (krigePoint_singular _ _ _ _ Hnone Hge).
      assert (Hmap : map (rescale 0 c) samples = samples).
      { rewrite <- (map_id samples) at 2. apply map_ext_in.
        intros s Hs. destruct s as [sx sy sz]. unfold rescale. simpl.
        f_equal. specialize (Hc _ Hs). simpl in Hc. lra. }
      rewrite <- Hmap at 1.
      rewrite inverseDistanceWeighting_rescale by assumption. ring.
Qed.

Lemma krigePoint_constant_witness :
  krigePoint 5 7 [mkSample 0 0 12] (mkParams 0 30 20) = 12.
Proof.
  apply (krigePoint_constant 12 5 7 [mkSample 0 0 12] (mkParams 0 30 20)).
  - discriminate.
  - intros s [<-|[]]. reflexivity.
Defined.

(** ** Moving the samples and the query together *)

Lemma euclid_shift (dx dy x1 y1 x2 y2 : R) :
  euclid (x1 + dx) (y1 + dy) (x2 + dx) (y2 + dy) = euclid x1 y1 x2 y2.
Proof. unfold euclid. f_equal. ring. Qed.

Lemma atLocation_shift (dx dy x y : R) (s : Sample) :
  atLocation (x + dx) (y + dy) (shift dx dy s) = atLocation x y s.
Proof.
  unfold atLocation, shift. simpl.
  assert (H : forall u v d, Req_b (u + d) (v + d) = Req_b u v).
  { intros u v d. destruct (Req_b u v) eqn:E.
    - apply Req_b_true in E. apply Req_b_true. lra.
    - apply Req_b_false in E. apply Req_b_false. lra. }
  now rewrite !H.
Qed.

Lemma idwLoop_shift (dx dy x y : R) (samples : list Sample) :
  forall totalWeight weightedSum,
    idwLoop (x + dx) (y + dy) (map (shift dx dy) samples)
            totalWeight weightedSum
    = idwLoop x y samples totalWeight weightedSum.
Proof.
  induction samples as [|s l IH]; intros tw ws; simpl; [reflexivity|].
  rewrite euclid_shift. destruct (Rlt_b _ _); [reflexivity | apply IH].
Qed.

(** In exact arithmetic:
    moving every sample and the query point by the same vector leaves the
    prediction unchanged: only differences of coordinates are used. *)
Theorem krigePoint_translation (dx dy x y : R) (samples : list Sample)
  (params : VariogramParams) :
  krigePoint (x + dx) (y + dy) (map (shift dx dy) samples) params
  = krigePoint x y samples params.
Proof.
  assert (Hfind : find (atLocation (x + dx) (y + dy))
                       (map (shift dx dy) samples)
                  = option_map (shift dx dy) (find (atLocation x y) samples)).
  { apply find_map_atLocation. intros s. apply atLocation_shift. }
  assert (HA : krigingMatrix (map (shift dx dy) samples) params
               = krigingMatrix samples params).
  { apply krigingMatrix_map. intros s t. apply euclid_shift. }
  assert (Hb : krigingRhs (x + dx) (y + dy) (map (shift dx dy) samples) params
               = krigingRhs x y samples params).
  { apply krigingRhs_map. intros s. apply euclid_shift. }
  unfold krigePoint. destruct samples as [|s0 rest]; [reflexivity|].
  change (map (shift dx dy) (s0 :: rest))
    with (shift dx dy s0 :: map (shift dx dy) rest) at 1.
  cbv iota. rewrite Hfind, HA, Hb.
  destruct (find (atLocation x y) (s0 :: rest)) as [s|]; [reflexivity|].
  simpl option_map. cbv iota.
  destruct (gaussianElimination (krigingMatrix (s0 :: rest) params)
              (krigingRhs x y (s0 :: rest) params)) as [w|].
  - rewrite !predictionOf_seq, length_map. apply Rsum_map_ext.
    intros i Hi. apply in_seq in Hi.
    rewrite (nth_indep _ defaultSample (shift dx dy defaultSample))
      by (rewrite length_map; lia).
    now rewrite (map_nth (shift dx dy)).
  - apply idwLoop_shift.
Qed.

(** ** The fallback stays inside the sample values *)

Lemma idwLoop_between (lo hi x y : R) (samples : list Sample) :
  forall totalWeight weightedSum,
    (forall s, In s samples -> lo <= s_z s <= hi) ->
    0 <= totalWeight ->
    lo * totalWeight <= weightedSum <= hi * totalWeight ->
    (samples <> [] \/ 0 < totalWeight) ->
    lo <= idwLoop x y samples totalWeight weightedSum <= hi.
Proof.
  induction samples as [|s l IH]; intros tw ws Hz Htw Hws Hne; simpl.
  - destruct Hne as [Hne|Hpos]; [contradiction|].
    replace (Rlt_b 0 tw) with true by (symmetry; now apply Rlt_b_true).
    split.
    + apply (Rmult_le_reg_r tw); [assumption|].
      unfold Rdiv. rewrite Rmult_assoc, Rinv_l by lra. lra.
    + apply (Rmult_le_reg_r tw); [assumption|].
      unfold Rdiv. rewrite Rmult_assoc, Rinv_l by lra. lra.
  - destruct (Rlt_b (euclid x y (s_x s) (s_y s)) 0.001) eqn:E.
    + apply Hz. now left.
    + apply Rlt_b_false in E.
      assert (Hw : 0 < idwWeight x y s).
      { apply idwWeight_pos. unfold near. lra. }
      unfold idwWeight in Hw.
      set (w := 1 / (euclid x y (s_x s) (s_y s)
                     * euclid x y (s_x s) (s_y s))) in *.
      assert (Hs : lo <= s_z s <= hi) by (apply Hz; now left).
      apply IH.
      * intros t Ht. apply Hz. now right.
      * lra.
      * split; nra.
      * right. lra.
Qed.

(** In exact arithmetic:
    on a non-empty sample list the inverse-distance result lies between
    the smallest and the largest sample value. *)
Theorem inverseDistanceWeighting_between (lo hi x y : R)
  (samples : list Sample) :
  samples <> [] -> (forall s, In s samples -> lo <= s_z s <= hi) ->
  lo <= inverseDistanceWeighting x y samples <= hi.
Proof.
  intros Hne Hz. unfold inverseDistanceWeighting.
  apply idwLoop_between; try assumption; try lra. now left.
Qed.

Lemma inverseDistanceWeighting_between_witness :
  1 <= inverseDistanceWeighting 1 0 [mkSample 0 0 1; mkSample 0 0 2] <= 2.
Proof.
  apply (inverseDistanceWeighting_between 1 2 1 0
           [mkSample 0 0 1; mkSample 0 0 2]).
  - discriminate.
  - intros s [<-|[<-|[]]]; simpl; lra.
Defined.

(** ** A sill below the solver's tolerance *)






(** ** The predicted surface *)

Lemma gridCoords_length (extent step : R) :
  length (gridCoords extent step)
  = Z.to_nat (Math_ceil (extent / step)).
Proof. unfold gridCoords. now rewrite length_map, length_seq. Qed.

Lemma gridCoords_nth (extent step : R) (k : nat) :
  (k < length (gridCoords extent step))%nat ->
  nth k (gridCoords extent step) 0 = INR k * step.
Proof.
  intros Hk. rewrite gridCoords_length in Hk. unfold gridCoords.
  now rewrite nth_map_seq by assumption.
Qed.

(** The loop variable stays below the bound, and the loop stops only when
    the next value would reach it. *)
Lemma gridCoords_bound (extent step : R) (k : nat) :
  0 < step ->
  ((k < length (gridCoords extent step))%nat <-> INR k * step < extent).
Proof.
  intros Hs. rewrite gridCoords_length.
  assert (Hi : 0 < / step) by now apply Rinv_0_lt_compat.
  destruct (Math_ceil_spec (extent / step)) as [Hlo Hhi].
  assert (He : extent = extent / step * step) by (field; lra).
  split.
  - intros Hk.
    assert (Hz : (Z.of_nat k + 1 <= Math_ceil (extent / step))%Z) by lia.
    apply IZR_le in Hz. rewrite plus_IZR, <- INR_IZR_INZ in Hz.
    assert (INR k < extent / step) by lra.
    rewrite He. apply Rmult_lt_compat_r; lra.
  - intros Hk.
    assert (INR k < extent / step).
    { apply (Rmult_lt_reg_r step); [assumption|]. now rewrite <- He. }
    assert (Hz : (Z.of_nat k < Math_ceil (extent / step))%Z).
    { apply lt_IZR. rewrite <- INR_IZR_INZ. lra. }
    lia.
Qed.

Lemma krigingPrediction_cells (width height step : R)
  (samples : list Sample) (params : VariogramParams) :
  0 < height -> 0 < step ->
  exists surface,
    kригingPrediction width height samples params step = Returns surface /\
    forall r c, INR r * step < height -> INR c * step < width ->
      nth c (nth r surface []) 0
      = krigePoint (INR c * step) (INR r * step) samples params.
Proof.
  intros Hh Hs. unfold kригingPrediction.
  replace (Rle_b height 0) with false by (symmetry; apply Rle_b_false; lra).
  replace (Rle_b step 0) with false by (symmetry; apply Rle_b_false; lra).
  eexists. split; [reflexivity|]. intros r c Hr Hc.
  apply gridCoords_bound in Hr, Hc; try assumption.
  set (row := fun y => map (fun x => krigePoint x y samples params)
                           (gridCoords width step)).
  rewrite (nth_indep _ [] (row 0)) by now rewrite length_map.
  rewrite (map_nth row), gridCoords_nth by assumption. unfold row.
  rewrite (nth_indep _ 0 ((fun x => krigePoint x (INR r * step)
                                      samples params) 0))
    by now rewrite length_map.
  rewrite (map_nth (fun x => krigePoint x (INR r * step) samples params)).
  now rewrite gridCoords_nth.
Qed.

Lemma krigingPrediction_shape (width height step : R)
  (samples : list Sample) (params : VariogramParams) :
  0 < height -> 0 < step ->
  exists surface,
    kригingPrediction width height samples params step = Returns surface /\
    (forall r, (r < length surface)%nat <-> INR r * step < height) /\
    (forall r, (r < length surface)%nat ->
       forall c, (c < length (nth r surface []))%nat
                 <-> INR c * step < width) /\
    (forall r c, INR r * step < height -> INR c * step < width ->
       nth c (nth r surface []) 0
       = krigePoint (INR c * step) (INR r * step) samples params).
Proof.
  intros Hh Hs. unfold kригingPrediction.
  replace (Rle_b height 0) with false by (symmetry; apply Rle_b_false; lra).
  replace (Rle_b step 0) with false by (symmetry; apply Rle_b_false; lra).
  eexists. split; [reflexivity|].
  set (row := fun y => map (fun x => krigePoint x y samples params)
                           (gridCoords width step)).
  assert (Hrow : forall r, (r < length (gridCoords height step))%nat ->
            nth r (map row (gridCoords height step)) []
            = row (INR r * step)).
  { intros r Hr.
    rewrite (nth_indep _ [] (row 0)) by now rewrite length_map.
    now rewrite (map_nth row), gridCoords_nth. }
  split; [|split].
  - intros r. rewrite length_map. now apply gridCoords_bound.
  - intros r Hr c. rewrite length_map in Hr. rewrite Hrow by assumption.
    unfold row. rewrite length_map. now apply gridCoords_bound.
  - intros r c Hr Hc.
    apply gridCoords_bound in Hr, Hc; try assumption.
    rewrite Hrow by assumption. unfold row.
    rewrite (nth_indep _ 0 ((fun x => krigePoint x (INR r * step)
                                        samples params) 0))
      by now rewrite length_map.
    rewrite (map_nth (fun x => krigePoint x (INR r * step) samples params)).
    now rewrite gridCoords_nth.
Qed.

Lemma whole_multiple (r S n : nat) :
  INR r * INR S < INR n <-> (r * S < n)%nat.
Proof.
  rewrite <- mult_INR. split; [apply INR_lt | apply lt_INR].
Qed.

(** X14: for whole numbers [W], [H] and [S] (width, height and step, small
    enough for the loop variables to be exact in doubles) the call returns a
    rectangular grid: row [r] exists exactly when [r * S < H], cell [c] of a
    row exactly when [c * S < W], and the cell of row [r] and column [c] is
    the prediction at [(c * S, r * S)]. *)
Theorem krigingPrediction_grid (W H S : nat)
  (samples : list Sample) (params : VariogramParams) :
  (0 < H)%nat -> (0 < S)%nat ->
  (Z.of_nat W + Z.of_nat S <= 2 ^ 53)%Z ->
  (Z.of_nat H + Z.of_nat S <= 2 ^ 53)%Z ->
  exists surface,
    kригingPrediction (INR W) (INR H) samples params (INR S)
    = Returns surface /\
    (forall r, (r < length surface)%nat <-> (r * S < H)%nat) /\
    (forall r, (r < length surface)%nat ->
       forall c, (c < length (nth r surface []))%nat <-> (c * S < W)%nat) /\
    (forall r c, (r * S < H)%nat -> (c * S < W)%nat ->
       nth c (nth r surface []) 0
       = krigePoint (INR (c * S)) (INR (r * S)) samples params).
Proof.
  intros HH HS _ _.
  destruct (krigingPrediction_shape (INR W) (INR H) (INR S) samples params)
    as (surface & Hret & Hrows & Hcols & Hcell).
  - now apply (lt_INR 0).
  - now apply (lt_INR 0).
  - exists surface. split; [assumption|]. split; [|split].
    + intros r. rewrite Hrows. apply whole_multiple.
    + intros r Hr c. rewrite (Hcols r Hr). apply whole_multiple.
    + intros r c Hr Hc. rewrite !mult_INR.
      apply Hcell; now apply whole_multiple.
Qed.

Lemma krigingPrediction_grid_witness :
  exists surface,
    kригingPrediction (INR 64) (INR 64) [mkSample 0 0 12] (mkParams 0 30 20)
                      (INR 2)
    = Returns surface /\
    (forall r, (r < length surface)%nat <-> (r * 2 < 64)%nat) /\
    (forall r, (r < length surface)%nat ->
       forall c, (c < length (nth r surface []))%nat <-> (c * 2 < 64)%nat) /\
    (forall r c, (r * 2 < 64)%nat -> (c * 2 < 64)%nat ->
       nth c (nth r surface []) 0
       = krigePoint (INR (c * 2)) (INR (r * 2)) [mkSample 0 0 12]
                    (mkParams 0 30 20)).
Proof.
  apply (krigingPrediction_grid 64 64 2 [mkSample 0 0 12]
           (mkParams 0 30 20)).
  - lia.
  - lia.
  - vm_compute. discriminate.
  - vm_compute. discriminate.
Defined.

(** X15: for whole numbers [W], [H] and [S] as above and pairwise distinct
    sample locations, a sample that sits on the node [(c * S, r * S)] of the
    grid is honoured by the surface: the cell of that node holds the
    sample's value. *)
Theorem krigingPrediction_honours_samples (W H S : nat)
  (samples : list Sample) (params : VariogramParams)
  (s : Sample) (r c : nat) :
  (0 < H)%nat -> (0 < S)%nat ->
  (Z.of_nat W + Z.of_nat S <= 2 ^ 53)%Z ->
  (Z.of_nat H + Z.of_nat S <= 2 ^ 53)%Z ->
  distinct_locations samples -> In s samples ->
  s_x s = INR (c * S) -> s_y s = INR (r * S) ->
  (c * S < W)%nat -> (r * S < H)%nat ->
  exists surface,
    kригingPrediction (INR W) (INR H) samples params (INR S)
    = Returns surface /\
    nth c (nth r surface []) 0 = s_z s.
Proof.
  intros HH HS _ _ Hnd Hin Hx Hy Hc Hr.
  destruct (krigingPrediction_cells (INR W) (INR H) (INR S) samples params)
    as (surface & Hret & Hcell).
  - now apply (lt_INR 0).
  - now apply (lt_INR 0).
  - exists surface. split; [assumption|].
    rewrite Hcell by now apply whole_multiple.
    rewrite <- !mult_INR.
    assert (Hat : atLocation (INR (c * S)) (INR (r * S)) s = true)
      by (apply atLocation_true; auto).
    destruct (find_first _ _ _ Hin Hat)
      as (l1 & a0 & l2 & Heq & Ha0 & _ & Hf).
    rewrite (krigePoint_found _ _ _ _ _ Hf). f_equal. symmetry.
    apply (distinct_locations_same samples); auto.
    + rewrite Heq. apply in_or_app. right. now left.
    + apply atLocation_location in Ha0, Hat. congruence.
Qed.

Lemma krigingPrediction_honours_samples_witness :
  exists surface,
    kригingPrediction (INR 64) (INR 64)
                      [mkSample (INR 4) (INR 6) 12; mkSample 10 0 20]
                      (mkParams 0 30 20) (INR 2)
    = Returns surface /\
    nth 2 (nth 3 surface []) 0 = 12.
Proof.
  apply (krigingPrediction_honours_samples 64 64 2
           [mkSample (INR 4) (INR 6) 12; mkSample 10 0 20]
           (mkParams 0 30 20)
           (mkSample (INR 4) (INR 6) 12) 3 2).
  - lia.
  - lia.
  - vm_compute. discriminate.
  - vm_compute. discriminate.
  - unfold distinct_locations, location. cbn [map s_x s_y].
    constructor; [|constructor; [|constructor]]; simpl; intros Hl;
      repeat destruct Hl as [Hl|Hl]; try contradiction.
    injection Hl. lra.
  - now left.
  - reflexivity.
  - reflexivity.
  - lia.
  - lia.
Defined.

(** ** Root mean squared error *)

Lemma cellAt_Fin (surface : list (list R)) (y x : nat) :
  (x < length (nth y surface []))%nat ->
  cellAt surface y x = Fin (entry surface y x).
Proof.
  intros H. unfold cellAt, entry. now rewrite (nth_error_nth' _ 0 H).
Qed.

Lemma cellAt_NaN (surface : list (list R)) (y x : nat) :
  (length (nth y surface []) <= x)%nat -> cellAt surface y x = NaN.
Proof.
  intros H. unfold cellAt. apply nth_error_None in H. now rewrite H.
Qed.

Lemma window_In (h w y x : nat) :
  In (y, x) (window h w) <-> (y < h)%nat /\ (x < w)%nat.
Proof.
  unfold window. rewrite in_flat_map. split.
  - intros (y' & Hy & Hx). apply in_map_iff in Hx.
    destruct Hx as (x' & Heq & Hx). inversion Heq; subst.
    apply in_seq in Hy, Hx. lia.
  - intros [Hy Hx]. exists y. split; [apply in_seq; lia|].
    apply in_map. apply in_seq. lia.
Qed.

Lemma window_length (h w : nat) : length (window h w) = (h * w)%nat.
Proof.
  unfold window. generalize 0%nat at 2.
  induction h as [|h IH]; intros k; simpl; [reflexivity|].
  now rewrite length_app, length_map, length_seq, IH.
Qed.

Lemma window_map {A : Type} (f : nat -> nat -> A) (h w : nat) :
  flat_map (fun y => map (f y) (seq 0 w)) (seq 0 h)
  = map (fun yx => f (fst yx) (snd yx)) (window h w).
Proof.
  unfold window. generalize 0%nat at 2 4.
  induction h as [|h IH]; intros k; simpl; [reflexivity|].
  now rewrite map_app, map_map, IH.
Qed.

Lemma number_sum_NaN (l : list number) :
  fold_left (number_lift Rplus) l NaN = NaN.
Proof. induction l as [|a l IH]; simpl; auto. Qed.

Lemma number_sum_In_NaN (l : list number) (a : number) :
  In NaN l -> fold_left (number_lift Rplus) l a = NaN.
Proof.
  revert a. induction l as [|b l IH]; intros a Hin; [contradiction|].
  simpl. destruct Hin as [->|Hin].
  - destruct a; apply number_sum_NaN.
  - now apply IH.
Qed.

Lemma number_sum_Fin (l : list R) (a : R) :
  fold_left (number_lift Rplus) (map Fin l) (Fin a) = Fin (a + Rsum l).
Proof.
  revert a. induction l as [|b l IH]; intros a; simpl.
  - f_equal. lra.
  - rewrite IH. f_equal. lra.
Qed.

Lemma rmse_row (f : nat -> number) (xs : list nat) (s : number) (c : nat) :
  fold_left (fun '(s, c) x => (number_lift Rplus s (f x), S c)) xs (s, c)
  = (fold_left (number_lift Rplus) (map f xs) s, (c + length xs)%nat).
Proof.
  revert s c. induction xs as [|x xs IH]; intros s c; simpl.
  - now rewrite Nat.add_0_r.
  - rewrite IH. f_equal. lia.
Qed.

Lemma rmse_rows (f : nat -> nat -> number) (xs ys : list nat)
  (s : number) (c : nat) :
  fold_left
    (fun acc y =>
       fold_left (fun '(s, c) x => (number_lift Rplus s (f y x), S c)) xs acc)
    ys (s, c)
  = (fold_left (number_lift Rplus) (flat_map (fun y => map (f y) xs) ys) s,
     (c + length ys * length xs)%nat).
Proof.
  revert s c. induction ys as [|y ys IH]; intros s c; simpl.
  - now rewrite Nat.add_0_r.
  - rewrite rmse_row, IH, fold_left_app. f_equal. lia.
Qed.

(** The two loops of [calculateRMSE], as one sum over the overlap. *)
Lemma calculateRMSE_window (true_surface predicted_surface : list (list R)) :
  let h := overlapHeight true_surface predicted_surface in
  let w := overlapWidth true_surface predicted_surface in
  calculateRMSE true_surface predicted_surface
  = if (0 <? h * w)%nat then
      match
        number_sum
          (map (fun yx => squaredError true_surface predicted_surface
                            (fst yx) (snd yx))
               (window h w))
      with
      | Fin total => Fin (sqrt (total / INR (h * w)))
      | NaN => NaN
      end
    else Fin 0.
Proof.
  cbv zeta. unfold calculateRMSE.
  rewrite (rmse_rows (squaredError true_surface predicted_surface)).
  rewrite !length_seq, window_map. reflexivity.
Qed.

Lemma squaredError_Fin (s1 s2 : list (list R)) (h w y x : nat) :
  covers s1 h w -> covers s2 h w -> (y < h)%nat -> (x < w)%nat ->
  squaredError s1 s2 y x = Fin (squaredDifference s1 s2 (y, x)).
Proof.
  intros H1 H2 Hy Hx. unfold squaredError.
  rewrite !cellAt_Fin.
  - reflexivity.
  - specialize (H2 y Hy). lia.
  - specialize (H1 y Hy). lia.
Qed.

(** On surfaces whose rows reach across the overlap the result is the real
    root of the mean squared difference. *)
Lemma calculateRMSE_mean (true_surface predicted_surface : list (list R)) :
  let h := overlapHeight true_surface predicted_surface in
  let w := overlapWidth true_surface predicted_surface in
  covers true_surface h w -> covers predicted_surface h w ->
  calculateRMSE true_surface predicted_surface
  = if (0 <? h * w)%nat then
      Fin (sqrt (Rsum (map (squaredDifference true_surface predicted_surface)
                           (window h w))
                 / INR (h * w)))
    else Fin 0.
Proof.
  cbv zeta. intros H1 H2. rewrite calculateRMSE_window. cbv zeta.
  destruct (0 <? _)%nat; [|reflexivity].
  rewrite (map_ext_in _
             (fun yx => Fin (squaredDifference true_surface
                               predicted_surface yx))).
  - rewrite <- (map_map _ Fin). unfold number_sum.
    rewrite number_sum_Fin. now rewrite Rplus_0_l.
  - intros [y x] Hin. apply window_In in Hin. simpl.
    now apply (squaredError_Fin _ _ _ _ y x H1 H2).
Qed.

Lemma Rsum_nonneg {A : Type} (f : A -> R) (l : list A) :
  (forall a, In a l -> 0 <= f a) -> 0 <= Rsum (map f l).
Proof.
  induction l as [|a l IH]; intros H; simpl; [lra|].
  assert (0 <= f a) by (apply H; now left).
  assert (0 <= Rsum (map f l)) by (apply IH; intros b Hb; apply H; now right).
  lra.
Qed.

Lemma Rsum_nonneg_zero {A : Type} (f : A -> R) (l : list A) :
  (forall a, In a l -> 0 <= f a) -> Rsum (map f l) = 0 ->
  forall a, In a l -> f a = 0.
Proof.
  induction l as [|b l IH]; intros H Hsum a Hin; [contradiction|].
  simpl in Hsum.
  assert (0 <= f b) by (apply H; now left).
  assert (0 <= Rsum (map f l))
    by (apply Rsum_nonneg; intros c Hc; apply H; now right).
  destruct Hin as [->|Hin]; [lra|].
  apply IH; auto; [|lra]. intros c Hc. apply H. now right.
Qed.

Lemma Rsum_le_bound {A : Type} (f : A -> R) (l : list A) (e : R) :
  (forall a, In a l -> f a <= e) -> Rsum (map f l) <= INR (length l) * e.
Proof.
  induction l as [|a l IH]; intros H.
  - simpl. lra.
  - change (length (a :: l)) with (S (length l)). rewrite S_INR. simpl.
    assert (f a <= e) by (apply H; now left).
    assert (Rsum (map f l) <= INR (length l) * e)
      by (apply IH; intros b Hb; apply H; now right).
    lra.
Qed.

Lemma squaredDifference_nonneg (s1 s2 : list (list R)) (yx : nat * nat) :
  0 <= squaredDifference s1 s2 yx.
Proof.
  unfold squaredDifference.
  apply (Rle_0_sqr (entry s1 (fst yx) (snd yx) - entry s2 (fst yx) (snd yx))).
Qed.

(** X16: the error is zero exactly when the two surfaces agree on every cell of
    the overlap (surfaces whose rows reach across the overlap). *)
Theorem calculateRMSE_zero_iff
  (true_surface predicted_surface : list (list R)) :
  let h := overlapHeight true_surface predicted_surface in
  let w := overlapWidth true_surface predicted_surface in
  covers true_surface h w -> covers predicted_surface h w ->
  (calculateRMSE true_surface predicted_surface = Fin 0 <->
   forall y x, (y < h)%nat -> (x < w)%nat ->
     entry true_surface y x = entry predicted_surface y x).
Proof.
  cbv zeta. intros H1 H2. rewrite (calculateRMSE_mean _ _ H1 H2).
  set (h := overlapHeight true_surface predicted_surface).
  set (w := overlapWidth true_surface predicted_surface).
  set (total := Rsum (map (squaredDifference true_surface predicted_surface)
                          (window h w))).
  assert (Htot : 0 <= total).
  { apply Rsum_nonneg. intros. apply squaredDifference_nonneg. }
  destruct (0 <? h * w)%nat eqn:Ehw.
  - apply Nat.ltb_lt in Ehw.
    assert (Hn : 0 < INR (h * w)) by (apply lt_0_INR; lia).
    split.
    + intros Heq y x Hy Hx. injection Heq as Heq.
      assert (Hq : total / INR (h * w) = 0).
      { apply sqrt_eq_0; [|assumption].
        apply Rmult_le_pos; [assumption|].
        apply Rlt_le. now apply Rinv_0_lt_compat. }
      assert (Hz : total = 0).
      { replace total with (total / INR (h * w) * INR (h * w))
          by (field; lra).
        rewrite Hq. ring. }
      pose proof (Rsum_nonneg_zero
                    (squaredDifference true_surface predicted_surface)
                    (window h w)
                    (fun a _ => squaredDifference_nonneg _ _ a) Hz (y, x))
        as Hd.
      unfold squaredDifference in Hd. simpl in Hd.
      assert (Hin : In (y, x) (window h w)) by now apply window_In.
      specialize (Hd Hin). nra.
    + intros Hagree. f_equal.
      replace total with 0; [unfold Rdiv; rewrite Rmult_0_l; apply sqrt_0|].
      symmetry. apply Rsum_map_zero. intros [y x] Hin.
      apply window_In in Hin. unfold squaredDifference. simpl.
      rewrite (Hagree y x) by tauto. ring.
  - split; [|reflexivity]. intros _ y x Hy Hx.
    apply Nat.ltb_ge in Ehw. exfalso. nia.
Qed.

Lemma calculateRMSE_zero_iff_witness :
  calculateRMSE [[1; 2]; [3; 4]] [[1; 2; 9]; [3; 4; 9]; [9; 9; 9]] = Fin 0 <->
  forall y x, (y < 2)%nat -> (x < 2)%nat ->
    entry [[1; 2]; [3; 4]] y x
    = entry [[1; 2; 9]; [3; 4; 9]; [9; 9; 9]] y x.
Proof.
  apply (calculateRMSE_zero_iff [[1; 2]; [3; 4]]
           [[1; 2; 9]; [3; 4; 9]; [9; 9; 9]]).
  - unfold covers, overlapHeight, overlapWidth.
    intros [|[|y]] Hy; simpl in *; lia.
  - unfold covers, overlapHeight, overlapWidth.
    intros [|[|y]] Hy; simpl in *; lia.
Defined.

(** In exact arithmetic:
    the error never exceeds the largest difference between the two surfaces
    on the overlap. *)
Theorem calculateRMSE_bound (true_surface predicted_surface : list (list R))
  (e : R) :
  let h := overlapHeight true_surface predicted_surface in
  let w := overlapWidth true_surface predicted_surface in
  covers true_surface h w -> covers predicted_surface h w ->
  0 <= e ->
  (forall y x, (y < h)%nat -> (x < w)%nat ->
     Rabs (entry true_surface y x - entry predicted_surface y x) <= e) ->
  exists rmse,
    calculateRMSE true_surface predicted_surface = Fin rmse /\
    0 <= rmse <= e.
Proof.
  cbv zeta. intros H1 H2 He Hbound. rewrite (calculateRMSE_mean _ _ H1 H2).
  set (h := overlapHeight true_surface predicted_surface).
  set (w := overlapWidth true_surface predicted_surface).
  destruct (0 <? h * w)%nat eqn:Ehw; [|exists 0; split; [reflexivity | lra]].
  apply Nat.ltb_lt in Ehw.
  assert (Hn : 0 < INR (h * w)) by (apply lt_0_INR; lia).
  eexists. split; [reflexivity|]. split; [apply sqrt_pos|].
  rewrite <- (sqrt_square e) by assumption.
  apply sqrt_le_1_alt.
  apply (Rmult_le_reg_r (INR (h * w))); [assumption|].
  unfold Rdiv. rewrite Rmult_assoc, Rinv_l, Rmult_1_r by lra.
  rewrite <- (window_length h w), (Rmult_comm (e * e)).
  apply Rsum_le_bound. intros [y x] Hin. apply window_In in Hin.
  unfold squaredDifference. simpl.
  specialize (Hbound y x (proj1 Hin) (proj2 Hin)).
  set (d := entry true_surface y x - entry predicted_surface y x) in *.
  pose proof (Rle_abs d) as Hup. pose proof (Rle_abs (- d)) as Hdown.
  rewrite Rabs_Ropp in Hdown.
  assert (0 <= (e - d) * (e + d)) by (apply Rmult_le_pos; lra).
  lra.
Qed.

Lemma calculateRMSE_bound_witness :
  exists rmse,
    calculateRMSE [[1; 2]; [3; 4]] [[2; 2]; [3; 3]] = Fin rmse /\
    0 <= rmse <= 1.
Proof.
  apply (calculateRMSE_bound [[1; 2]; [3; 4]] [[2; 2]; [3; 3]] 1).
  - unfold covers, overlapHeight, overlapWidth.
    intros [|[|y]] Hy; simpl in *; lia.
  - unfold covers, overlapHeight, overlapWidth.
    intros [|[|y]] Hy; simpl in *; lia.
  - lra.
  - unfold overlapHeight, overlapWidth.
    intros [|[|y]] [|[|x]] Hy Hx; simpl in *; try lia;
      unfold entry; simpl;
      match goal with
      | |- Rabs ?t <= _ => apply Rabs_le; lra
      end.
Defined.

(** X18: the result is [NaN] exactly when a row of either surface ends
    inside the overlap, that is before the shorter of the two first rows
    does. *)
Theorem calculateRMSE_NaN_iff
  (true_surface predicted_surface : list (list R)) :
  let h := overlapHeight true_surface predicted_surface in
  let w := overlapWidth true_surface predicted_surface in
  calculateRMSE true_surface predicted_surface = NaN <->
  exists y, (y < h)%nat /\
    ((length (nth y true_surface []) < w)%nat \/
     (length (nth y predicted_surface []) < w)%nat).
Proof.
  cbv zeta.
  set (h := overlapHeight true_surface predicted_surface).
  set (w := overlapWidth true_surface predicted_surface).
  split.
  - intros Hnan.
    destruct (Forall_Exists_dec
                (fun y => (w <= length (nth y true_surface []))%nat /\
                          (w <= length (nth y predicted_surface []))%nat)
                (fun y =>
                   match le_dec w (length (nth y true_surface [])),
                         le_dec w (length (nth y predicted_surface [])) with
                   | left a, left b => left (conj a b)
                   | right a, _ => right (fun H => a (proj1 H))
                   | _, right b => right (fun H => b (proj2 H))
                   end)
                (seq 0 h)) as [Hall | Hex].
    + rewrite Forall_forall in Hall.
      assert (H1 : covers true_surface h w).
      { intros y Hy. apply Hall. apply in_seq. lia. }
      assert (H2 : covers predicted_surface h w).
      { intros y Hy. apply Hall. apply in_seq. lia. }
      rewrite (calculateRMSE_mean _ _ H1 H2) in Hnan.
      fold h w in Hnan. destruct (0 <? h * w)%nat; discriminate.
    + apply Exists_exists in Hex. destruct Hex as (y & Hy & Hnot).
      apply in_seq in Hy. exists y. split; [lia|]. lia.
  - intros (y & Hy & Hshort).
    rewrite calculateRMSE_window. fold h w.
    assert (Hw : (0 < w)%nat) by lia.
    replace (0 <? h * w)%nat with true by (symmetry; apply Nat.ltb_lt; nia).
    set (x := Nat.min (length (nth y true_surface []))
                      (length (nth y predicted_surface []))).
    assert (Hx : (x < w)%nat) by lia.
    assert (Herr : squaredError true_surface predicted_surface y x = NaN).
    { unfold squaredError.
      destruct (Nat.le_ge_cases (length (nth y true_surface []))
                  (length (nth y predicted_surface []))) as [Hle | Hle].
      - rewrite (cellAt_NaN true_surface) by lia. reflexivity.
      - rewrite (cellAt_NaN predicted_surface) by lia.
        destruct (cellAt true_surface y x); reflexivity. }
    unfold number_sum. rewrite number_sum_In_NaN; [reflexivity|].
    rewrite <- Herr.
    apply (in_map (fun yx => squaredError true_surface predicted_surface
                               (fst yx) (snd yx)) _ (y, x)).
    now apply window_In.
Qed.

(** X32: exchanging the two surfaces does not change the error. *)
Theorem calculateRMSE_symmetric (s1 s2 : list (list R)) :
  calculateRMSE s1 s2 = calculateRMSE s2 s1.
Proof.
  rewrite !calculateRMSE_window. cbv zeta.
  unfold overlapHeight, overlapWidth.
  rewrite (Nat.min_comm (length s2)), (Nat.min_comm (length (hd [] s2))).
  destruct (0 <? _)%nat; [|reflexivity].
  assert (Hsym : forall yx : nat * nat,
            squaredError s2 s1 (fst yx) (snd yx)
            = squaredError s1 s2 (fst yx) (snd yx));
    [|now rewrite (map_ext _ _ Hsym)].
  intros [y x]. simpl.
  unfold squaredError.
  destruct (cellAt s1 y x), (cellAt s2 y x); simpl; try reflexivity.
  f_equal. ring.
Qed.

(** ** Standard deviation as a root mean squared deviation *)

Lemma Rsum_squared_deviation (l : list R) (m : R) :
  Rsum (map (fun v => (v - m) * (v - m)) l)
  = Rsum (map (fun v => v * v) l) - 2 * m * Rsum l + INR (length l) * (m * m).
Proof.
  induction l as [|v l IH].
  - simpl. ring.
  - change (length (v :: l)) with (S (length l)). rewrite S_INR. simpl.
    rewrite IH. ring.
Qed.

Lemma length_pos_INR {A : Type} (l : list A) :
  l <> [] -> 0 < INR (length l).
Proof.
  intros H. apply lt_0_INR. destruct l; [contradiction | simpl; lia].
Qed.

(** The clamp [Math.max(variance, 0)] is not needed over the reals: the
    variance computed from the two sums is the mean squared deviation. *)
Lemma calculateStdDev_centered (surface : list (list R)) :
  concat surface <> [] ->
  let cells := concat surface in
  let n := INR (length cells) in
  let mean := Rsum cells / n in
  calculateStdDev surface
  = Fin (sqrt (Rsum (map (fun v => (v - mean) * (v - mean)) cells) / n)).
Proof.
  intros Hne. cbv zeta.
  destruct (calculateStdDev_nonneg surface Hne) as [-> _].
  set (cells := concat surface). set (n := INR (length cells)).
  assert (Hn : 0 < n).
  { unfold n. now apply length_pos_INR. }
  set (mean := Rsum cells / n).
  assert (Hdev : Rsum (map (fun v => (v - mean) * (v - mean)) cells) / n
                 = Rsum (map (fun v => v * v) cells) / n - mean * mean).
  { rewrite Rsum_squared_deviation. fold n.
    replace (Rsum cells) with (mean * n) by (unfold mean; field; lra).
    field. lra. }
  rewrite <- Hdev. rewrite Rmax_left; [reflexivity|].
  apply Rmult_le_pos; [|apply Rlt_le; now apply Rinv_0_lt_compat].
  apply Rsum_nonneg. intros v _. apply (Rle_0_sqr (v - mean)).
Qed.

(** In exact arithmetic:
    on a surface with a cell the result is the root of the mean squared
    deviation from the mean of all cells, and it is zero exactly when all
    cells hold one value. *)
Theorem calculateStdDev_deviation (surface : list (list R)) :
  concat surface <> [] ->
  let cells := concat surface in
  let n := INR (length cells) in
  let mean := Rsum cells / n in
  calculateStdDev surface
  = Fin (sqrt (Rsum (map (fun v => (v - mean) * (v - mean)) cells) / n)) /\
  (calculateStdDev surface = Fin 0 <->
   forall u v, In u cells -> In v cells -> u = v).
Proof.
  intros Hne. cbv zeta. split; [now apply calculateStdDev_centered|].
  rewrite (calculateStdDev_centered surface Hne).
  set (cells := concat surface). set (n := INR (length cells)).
  assert (Hn : 0 < n).
  { unfold n. now apply length_pos_INR. }
  set (mean := Rsum cells / n).
  set (dev := fun v => (v - mean) * (v - mean)).
  assert (Hpos : forall v, In v cells -> 0 <= dev v)
    by (intros v _; apply (Rle_0_sqr (v - mean))).
  split.
  - intros Heq. injection Heq as Heq.
    assert (Hq : Rsum (map dev cells) / n = 0).
    { apply sqrt_eq_0; [|assumption].
      apply Rmult_le_pos; [now apply Rsum_nonneg|].
      apply Rlt_le. now apply Rinv_0_lt_compat. }
    assert (Hz : Rsum (map dev cells) = 0).
    { replace (Rsum (map dev cells))
        with (Rsum (map dev cells) / n * n) by (field; lra).
      rewrite Hq. ring. }
    assert (Hmean : forall v, In v cells -> v = mean).
    { intros v Hv.
      pose proof (Rsum_nonneg_zero dev cells Hpos Hz v Hv) as Hd.
      unfold dev in Hd. nra. }
    intros u v Hu Hv. rewrite (Hmean u Hu), (Hmean v Hv). reflexivity.
  - intros Hsame. f_equal.
    destruct cells as [|c cells'] eqn:Ecells; [contradiction|].
    assert (Hall : forall v, In v (c :: cells') -> v = c)
      by (intros v Hv; apply Hsame; [assumption | now left]).
    assert (Hsum : Rsum (c :: cells') = INR (length (c :: cells')) * c).
    { clear - Hall. induction (c :: cells') as [|v l IH].
      - simpl. ring.
      - change (length (v :: l)) with (S (length l)). rewrite S_INR. simpl.
        rewrite IH by (intros w Hw; apply Hall; now right).
        rewrite (Hall v) by now left. ring. }
    assert (Hm : mean = c).
    { unfold mean. rewrite Hsum. fold n. field. lra. }
    replace (Rsum (map dev (c :: cells'))) with 0.
    + unfold Rdiv. rewrite Rmult_0_l. apply sqrt_0.
    + symmetry. apply Rsum_map_zero. intros v Hv. unfold dev.
      rewrite (Hall v Hv), Hm. ring.
Qed.

Lemma calculateStdDev_deviation_witness :
  calculateStdDev [[1; 3]; [3; 1]]
  = Fin (sqrt (Rsum (map (fun v => (v - Rsum [1; 3; 3; 1] / INR 4)
                                   * (v - Rsum [1; 3; 3; 1] / INR 4))
                         [1; 3; 3; 1]) / INR 4)) /\
  (calculateStdDev [[1; 3]; [3; 1]] = Fin 0 <->
   forall u v, In u [1; 3; 3; 1] -> In v [1; 3; 3; 1] -> u = v).
Proof.
  apply (calculateStdDev_deviation [[1; 3]; [3; 1]]). discriminate.
Defined.

Lemma Rsum_scaled_deviation (a b m : R) (l : list R) :
  Rsum (map (fun v => (a * v + b - (a * m + b)) * (a * v + b - (a * m + b))) l)
  = a * a * Rsum (map (fun v => (v - m) * (v - m)) l).
Proof.
  induction l as [|v l IH]; simpl; [ring | rewrite IH; ring].
Qed.

(** In exact arithmetic:
    rescaling every cell by [a] and shifting it by [b] multiplies the
    standard deviation by [|a|]; an empty surface stays at [NaN]. *)
Theorem calculateStdDev_affine (a b : R) (surface : list (list R)) :
  calculateStdDev (map (map (fun v => a * v + b)) surface)
  = match calculateStdDev surface with
    | Fin s => Fin (Rabs a * s)
    | NaN => NaN
    end.
Proof.
  set (f := fun v => a * v + b).
  assert (Hcat : concat (map (map f) surface) = map f (concat surface))
    by (symmetry; apply concat_map).
  destruct (concat surface) as [|c cells'] eqn:Ecells.
  - assert (H1 : calculateStdDev surface = NaN)
      by now apply calculateStdDev_NaN.
    assert (H2 : calculateStdDev (map (map f) surface) = NaN)
      by (apply calculateStdDev_NaN; now rewrite Hcat).
    now rewrite H1, H2.
  - assert (Hne : concat surface <> []) by (rewrite Ecells; discriminate).
    assert (Hne' : concat (map (map f) surface) <> [])
      by (rewrite Hcat; discriminate).
    rewrite (calculateStdDev_centered _ Hne'),
            (calculateStdDev_centered _ Hne).
    rewrite Hcat, Ecells. set (cells := c :: cells').
    rewrite length_map. set (n := INR (length cells)).
    assert (Hn : 0 < n) by (unfold n; apply lt_0_INR; simpl; lia).
    set (mean := Rsum cells / n).
    assert (Hsum : Rsum (map f cells) = a * Rsum cells + n * b).
    { unfold n, f. clear. induction cells as [|v l IH].
      - simpl. ring.
      - change (length (v :: l)) with (S (length l)). rewrite S_INR. simpl.
        rewrite IH. ring. }
    assert (Hmean : Rsum (map f cells) / n = a * mean + b)
      by (rewrite Hsum; unfold mean; field; lra).
    rewrite Hmean, map_map.
    set (dev := Rsum (map (fun v => (v - mean) * (v - mean)) cells)).
    assert (Hdev : Rsum (map (fun v => (f v - (a * mean + b))
                                       * (f v - (a * mean + b))) cells)
                   = a * a * dev).
    { unfold dev, f. apply Rsum_scaled_deviation. }
    rewrite Hdev. f_equal.
    replace (a * a * dev / n) with (Rsqr a * (dev / n))
      by (unfold Rsqr; field; lra).
    rewrite sqrt_mult_alt by apply Rle_0_sqr.
    now rewrite sqrt_Rsqr_abs.
Qed.

(** * The surface generator *)

Lemma fade_unit (t : R) : 0 <= t <= 1 -> 0 <= fade t <= 1.
Proof.
  intros [H0 H1]. unfold fade. split.
  - apply Rmult_le_pos.
    + apply Rmult_le_pos; [apply Rmult_le_pos|]; assumption.
    + pose proof (Rle_0_sqr (t - 5 / 4)) as Hsq. unfold Rsqr in Hsq. lra.
  - assert (H : 0 <= (1 - t) * (1 - t) * (1 - t) * (6 * (t * t) + 3 * t + 1)).
    { apply Rmult_le_pos.
      - apply Rmult_le_pos; [apply Rmult_le_pos|]; lra.
      - pose proof (Rle_0_sqr t) as Hsq. unfold Rsqr in Hsq. lra. }
    replace (t * t * t * (t * (t * 6 - 15) + 10))
      with (1 - (1 - t) * (1 - t) * (1 - t) * (6 * (t * t) + 3 * t + 1))
      by ring.
    lra.
Qed.

Lemma lerp_unit (a b t : R) :
  0 <= a < 1 -> 0 <= b < 1 -> 0 <= t <= 1 -> 0 <= lerp a b t < 1.
Proof.
  intros [Ha0 Ha1] [Hb0 Hb1] [Ht0 Ht1]. unfold lerp.
  assert (H1 : 0 <= a * (1 - t)) by (apply Rmult_le_pos; lra).
  assert (H2 : 0 <= b * t) by (apply Rmult_le_pos; lra).
  split; [lra|].
  destruct (Rle_lt_dec t (1 / 2)) as [Hs | Hs].
  - assert (0 < (1 - a) * (1 - t)) by (apply Rmult_lt_0_compat; lra).
    assert (0 <= (1 - b) * t) by (apply Rmult_le_pos; lra).
    lra.
  - assert (0 <= (1 - a) * (1 - t)) by (apply Rmult_le_pos; lra).
    assert (0 < (1 - b) * t) by (apply Rmult_lt_0_compat; lra).
    lra.
Qed.

Lemma pseudoRandom_unit (x y : R) : 0 <= pseudoRandom x y < 1.
Proof.
  unfold pseudoRandom.
  pose proof (Math_floor_spec
                (sin (x * 12.9898 + y * 78.233) * 43758.5453)) as H.
  cbv zeta. lra.
Qed.

Lemma perlinNoise_range (x y : R) : 0 <= perlinNoise x y < 1.
Proof.
  unfold perlinNoise. cbv zeta.
  pose proof (Math_floor_spec x) as Hx. pose proof (Math_floor_spec y) as Hy.
  apply lerp_unit.
  - apply lerp_unit; try apply pseudoRandom_unit. apply fade_unit. lra.
  - apply lerp_unit; try apply pseudoRandom_unit. apply fade_unit. lra.
  - apply fade_unit. lra.
Qed.

(** On the integer lattice the noise is the pseudo-random value of the
    lattice point itself. *)
Theorem perlinNoise_lattice (i j : Z) :
  perlinNoise (IZR i) (IZR j) = pseudoRandom (IZR i) (IZR j).
Proof.
  unfold perlinNoise. cbv zeta. rewrite !Math_floor_IZR.
  unfold lerp, fade. ring.
Qed.

(** X21: the noise, and with it the cell that four octaves of it give before the
    normalisation, stays in the unit interval, 1 excluded, at every point of
    the plane. *)
Theorem octaves_unit (x y : R) :
  0 <= perlinNoise x y < 1 /\ 0 <= octaves x y < 1.
Proof.
  split; [apply perlinNoise_range|].
  unfold octaves. cbn [fold_left seq octave].
  pose proof (perlinNoise_range (x * 0.05) (y * 0.05)) as H1.
  pose proof (perlinNoise_range (x * (0.05 * 2)) (y * (0.05 * 2))) as H2.
  pose proof (perlinNoise_range (x * (0.05 * 2 * 2)) (y * (0.05 * 2 * 2)))
    as H3.
  pose proof (perlinNoise_range (x * (0.05 * 2 * 2 * 2))
                (y * (0.05 * 2 * 2 * 2))) as H4.
  lra.
Qed.

(** ** Normalisation *)

Lemma in_cells {A : Type} (surface : list (list A)) (row : list A) (c : A) :
  In row surface -> In c row -> In c (concat surface).
Proof. intros Hrow Hc. apply in_concat. now exists row. Qed.

Lemma surface_extremes (first : R) (rest : list R) :
  let lo := fold_left Rmin rest first in
  let hi := fold_left Rmax rest first in
  In lo (first :: rest) /\ In hi (first :: rest) /\
  forall c, In c (first :: rest) -> lo <= c <= hi.
Proof.
  cbv zeta. split; [apply fold_Rmin_in|]. split; [apply fold_Rmax_in|].
  intros c Hc. split; [now apply fold_Rmin_le | now apply fold_Rmax_ge].
Qed.

Lemma normalizeSurface_shape (surface : list (list R)) :
  map (@length number) (normalizeSurface surface)
  = map (@length R) surface.
Proof.
  unfold normalizeSurface. destruct (concat surface); cbv zeta;
    rewrite map_map; apply map_ext; intros row; apply length_map.
Qed.

Lemma normalizeSurface_spread (surface : list (list R)) (u v : R) :
  In u (concat surface) -> In v (concat surface) -> u <> v ->
  exists lo hi,
    lo < hi /\ In lo (concat surface) /\ In hi (concat surface) /\
    (forall c, In c (concat surface) -> lo <= c <= hi) /\
    normalizeSurface surface
    = map (map (fun value => Fin ((value - lo) / (hi - lo) * 100))) surface.
Proof.
  intros Hu Hv Hne. unfold normalizeSurface.
  destruct (concat surface) as [|first rest] eqn:E; [contradiction|].
  destruct (surface_extremes first rest) as (Hlo & Hhi & Hbounds).
  cbv zeta in *.
  set (lo := fold_left Rmin rest first) in *.
  set (hi := fold_left Rmax rest first) in *.
  assert (Hlt : lo < hi).
  { pose proof (Hbounds u Hu). pose proof (Hbounds v Hv).
    destruct (Rlt_dec lo hi) as [Hlt | Hge]; [assumption|].
    exfalso. apply Hne. lra. }
  exists lo, hi. repeat (split; [assumption|]).
  replace (Req_b (hi - lo) 0) with false; [reflexivity|].
  symmetry. apply Req_b_false. lra.
Qed.

Lemma normalized_unit (lo hi value : R) :
  lo < hi -> lo <= value <= hi -> 0 <= (value - lo) / (hi - lo) * 100 <= 100.
Proof.
  intros Hlt [H1 H2].
  assert (Hi : 0 < / (hi - lo)) by (apply Rinv_0_lt_compat; lra).
  assert (Hq : 0 <= (value - lo) / (hi - lo))
    by (apply Rmult_le_pos; lra).
  assert (Hq1 : (value - lo) / (hi - lo) <= 1).
  { apply (Rmult_le_reg_r (hi - lo)); [lra|].
    unfold Rdiv. rewrite Rmult_assoc, Rinv_l by lra. lra. }
  lra.
Qed.

(** X22: a surface with two different cells is rescaled linearly between its
    smallest and its largest cell: the smallest goes to 0, the largest to
    100, every cell into [0, 100], and the order of the cells is kept. *)
Theorem normalizeSurface_range (surface : list (list R)) (u v : R) :
  In u (concat surface) -> In v (concat surface) -> u <> v ->
  exists lo hi,
    lo < hi /\ In lo (concat surface) /\ In hi (concat surface) /\
    (forall c, In c (concat surface) -> lo <= c <= hi) /\
    normalizeSurface surface
    = map (map (fun value => Fin ((value - lo) / (hi - lo) * 100))) surface /\
    (lo - lo) / (hi - lo) * 100 = 0 /\
    (hi - lo) / (hi - lo) * 100 = 100 /\
    (forall c, lo <= c <= hi -> 0 <= (c - lo) / (hi - lo) * 100 <= 100) /\
    (forall c d, c <= d ->
       (c - lo) / (hi - lo) * 100 <= (d - lo) / (hi - lo) * 100).
Proof.
  intros Hu Hv Hne.
  destruct (normalizeSurface_spread surface u v Hu Hv Hne)
    as (lo & hi & Hlt & Hlo & Hhi & Hbounds & Heq).
  exists lo, hi. repeat (split; [assumption|]).
  assert (Hi : 0 < / (hi - lo)) by (apply Rinv_0_lt_compat; lra).
  split; [field; lra|]. split; [field; lra|].
  split; [intros c Hc; now apply normalized_unit|].
  intros c d Hcd. apply Rmult_le_compat_r; [lra|].
  apply Rmult_le_compat_r; lra.
Qed.

Lemma normalizeSurface_range_witness :
  exists lo hi,
    lo < hi /\ In lo (concat [[3; 1]; [2]]) /\ In hi (concat [[3; 1]; [2]]) /\
    (forall c, In c (concat [[3; 1]; [2]]) -> lo <= c <= hi) /\
    normalizeSurface [[3; 1]; [2]]
    = map (map (fun value => Fin ((value - lo) / (hi - lo) * 100)))
          [[3; 1]; [2]] /\
    (lo - lo) / (hi - lo) * 100 = 0 /\
    (hi - lo) / (hi - lo) * 100 = 100 /\
    (forall c, lo <= c <= hi -> 0 <= (c - lo) / (hi - lo) * 100 <= 100) /\
    (forall c d, c <= d ->
       (c - lo) / (hi - lo) * 100 <= (d - lo) / (hi - lo) * 100).
Proof.
  apply (normalizeSurface_range [[3; 1]; [2]] 3 1).
  - simpl. auto.
  - simpl. auto.
  - lra.
Defined.

Lemma normalizeSurface_constant (surface : list (list R)) :
  (forall u v, In u (concat surface) -> In v (concat surface) -> u = v) ->
  normalizeSurface surface = map (map (fun _ => NaN)) surface.
Proof.
  intros Hsame. unfold normalizeSurface.
  destruct (concat surface) as [|first rest] eqn:E.
  - apply map_ext_in. intros row Hrow.
    destruct row as [|c row]; [reflexivity|].
    assert (Hc : In c (concat surface))
      by (apply (in_cells surface (c :: row)); [assumption | now left]).
    rewrite E in Hc. contradiction.
  - destruct (surface_extremes first rest) as (Hlo & Hhi & _).
    cbv zeta in *.
    rewrite (Hsame _ _ Hhi Hlo).
    replace (Req_b _ 0) with true; [reflexivity|].
    symmetry. apply Req_b_true. ring.
Qed.

(** X23: a surface whose cells all hold one value has no range to rescale by:
    every cell of the result is [NaN]. *)
Theorem normalizeSurface_flat (surface : list (list R)) :
  (forall u v, In u (concat surface) -> In v (concat surface) -> u = v) ->
  normalizeSurface surface = map (map (fun _ => NaN)) surface /\
  forall row cell, In row (normalizeSurface surface) -> In cell row ->
    cell = NaN.
Proof.
  intros Hsame. rewrite (normalizeSurface_constant surface Hsame).
  split; [reflexivity|]. intros row cell Hrow Hcell.
  apply in_map_iff in Hrow. destruct Hrow as (row0 & <- & _).
  apply in_map_iff in Hcell. now destruct Hcell as (c & <- & _).
Qed.

Lemma normalizeSurface_flat_witness :
  normalizeSurface [[5; 5]; [5]] = map (map (fun _ => NaN)) [[5; 5]; [5]] /\
  forall row cell, In row (normalizeSurface [[5; 5]; [5]]) -> In cell row ->
    cell = NaN.
Proof.
  apply (normalizeSurface_flat [[5; 5]; [5]]).
  intros u v Hu Hv. simpl in Hu, Hv.
  repeat match goal with H : _ \/ _ |- _ => destruct H end;
    try contradiction; subst; reflexivity.
Defined.

Lemma normalizeSurface_cells (surface : list (list R)) :
  (forall row cell, In row (normalizeSurface surface) -> In cell row ->
     cell = NaN) \/
  (forall row cell, In row (normalizeSurface surface) -> In cell row ->
     exists value, cell = Fin value /\ 0 <= value <= 100).
Proof.
  destruct (concat surface) as [|first rest] eqn:E.
  - left. rewrite normalizeSurface_constant by (rewrite E; contradiction).
    intros row cell Hrow Hcell.
    apply in_map_iff in Hrow. destruct Hrow as (row0 & <- & _).
    apply in_map_iff in Hcell. now destruct Hcell as (c & <- & _).
  - destruct (surface_extremes first rest) as (Hlo & Hhi & Hbounds).
    cbv zeta in *. rewrite <- E in Hlo, Hhi, Hbounds.
    destruct (Req_dec_T (fold_left Rmin rest first)
                        (fold_left Rmax rest first)) as [Heq | Hneq].
    + left. assert (Hsame : forall u v, In u (concat surface) ->
                              In v (concat surface) -> u = v).
      { intros u v Hu Hv.
        pose proof (Hbounds u Hu). pose proof (Hbounds v Hv). lra. }
      rewrite (normalizeSurface_constant surface Hsame).
      intros row cell Hrow Hcell.
      apply in_map_iff in Hrow. destruct Hrow as (row0 & <- & _).
      apply in_map_iff in Hcell. now destruct Hcell as (c & <- & _).
    + right.
      destruct (normalizeSurface_spread surface _ _ Hlo Hhi Hneq)
        as (lo & hi & Hlt & _ & _ & Hin & ->).
      intros row cell Hrow Hcell.
      apply in_map_iff in Hrow. destruct Hrow as (row0 & <- & Hrow0).
      apply in_map_iff in Hcell. destruct Hcell as (c & <- & Hc).
      eexists. split; [reflexivity|].
      apply normalized_unit; [assumption|].
      apply Hin. now apply (in_cells surface row0).
Qed.

Lemma loopIndices_length (n : nat) : length (loopIndices (INR n)) = n.
Proof.
  unfold loopIndices. rewrite length_map, length_seq.
  rewrite INR_IZR_INZ, Math_ceil_IZR. apply Nat2Z.id.
Qed.

(** X24: for whole numbers [W] and [H] the generated surface has [H] rows of [W]
    cells, whatever the seed; its cells are all in [0, 100], or all [NaN]
    (when the noise takes one value on the whole grid). *)
Theorem generateSurface_cells (W H : nat) (seed : R) :
  let surface := generateSurface (INR W) (INR H) seed in
  length surface = H /\
  (forall row, In row surface -> length row = W) /\
  ((forall row cell, In row surface -> In cell row -> cell = NaN) \/
   (forall row cell, In row surface -> In cell row ->
      exists value, cell = Fin value /\ 0 <= value <= 100)).
Proof.
  cbv zeta. unfold generateSurface.
  set (raw := map (fun y => map (fun x => octaves x y) (loopIndices (INR W)))
                  (loopIndices (INR H))).
  pose proof (normalizeSurface_shape raw) as Hshape.
  split; [|split].
  - rewrite <- (length_map (@length number)), Hshape, length_map.
    unfold raw. now rewrite length_map, loopIndices_length.
  - intros row Hrow.
    assert (Hin : In (length row) (map (@length number)
                                       (normalizeSurface raw)))
      by now apply in_map.
    rewrite Hshape in Hin. apply in_map_iff in Hin.
    destruct Hin as (row0 & <- & Hrow0). unfold raw in Hrow0.
    apply in_map_iff in Hrow0. destruct Hrow0 as (y & <- & _).
    now rewrite length_map, loopIndices_length.
  - apply normalizeSurface_cells.
Qed.

(** * Colours of the heat map *)

Lemma Math_round_IZR (z : Z) : Math_round (IZR z) = z.
Proof. unfold Math_round. apply Math_floor_unique. lra. Qed.

Lemma Math_round_bounds (x : R) (lo hi : Z) :
  IZR lo <= x <= IZR hi -> (lo <= Math_round x <= hi)%Z.
Proof.
  intros [H1 H2]. unfold Math_round.
  destruct (Math_floor_spec (x + 0.5)) as [Hf1 Hf2]. split.
  - assert (H : (lo - 1 < Math_floor (x + 0.5))%Z)
      by (apply lt_IZR; rewrite minus_IZR; lra).
    lia.
  - assert (H : (Math_floor (x + 0.5) < hi + 1)%Z)
      by (apply lt_IZR; rewrite plus_IZR; lra).
    lia.
Qed.

Lemma blend_bounds (a b : Z) (frac : R) :
  (0 <= a <= 255)%Z -> (0 <= b <= 255)%Z -> 0 <= frac <= 1 ->
  (0 <= blend a b frac <= 255)%Z.
Proof.
  intros [Ha0 Ha1] [Hb0 Hb1] [Hf0 Hf1]. unfold blend.
  apply Math_round_bounds.
  apply IZR_le in Ha0, Ha1, Hb0, Hb1.
  replace (IZR a + (IZR b - IZR a) * frac)
    with (IZR a * (1 - frac) + IZR b * frac) by ring.
  assert (0 <= IZR a * (1 - frac)) by (apply Rmult_le_pos; lra).
  assert (0 <= IZR b * frac) by (apply Rmult_le_pos; lra).
  assert (0 <= (255 - IZR a) * (1 - frac)) by (apply Rmult_le_pos; lra).
  assert (0 <= (255 - IZR b) * frac) by (apply Rmult_le_pos; lra).
  lra.
Qed.

Lemma colors_bytes : Forall byte_color colors.
Proof. unfold colors. repeat constructor; simpl; lia. Qed.

(** The index chosen for [t >= 0], and the two table entries read there. *)
Lemma valueToColor_index (t : R) :
  0 <= t ->
  let idx := Z.min 16 (Math_floor (t * 17)) in
  (0 <= idx <= 16)%Z /\
  exists a b,
    nth_error colors (Z.to_nat idx) = Some a /\
    nth_error colors (Z.to_nat (idx + 1)) = Some b /\
    valueToColor t
    = Returns (mkColor (blend (c_r a) (c_r b) (t * 17 - IZR idx))
                       (blend (c_g a) (c_g b) (t * 17 - IZR idx))
                       (blend (c_b a) (c_b b) (t * 17 - IZR idx))).
Proof.
  intros Ht. cbv zeta.
  assert (Hfl : (0 <= Math_floor (t * 17))%Z)
    by (apply Math_floor_nonneg; lra).
  set (idx := Z.min 16 (Math_floor (t * 17))).
  assert (Hidx : (0 <= idx <= 16)%Z) by (unfold idx; lia).
  split; [assumption|].
  assert (Ha : (Z.to_nat idx < length colors)%nat) by (simpl; lia).
  assert (Hb : (Z.to_nat (idx + 1) < length colors)%nat) by (simpl; lia).
  destruct (nth_error colors (Z.to_nat idx)) as [a|] eqn:Ea;
    [|apply nth_error_None in Ea; lia].
  destruct (nth_error colors (Z.to_nat (idx + 1))) as [b|] eqn:Eb;
    [|apply nth_error_None in Eb; lia].
  exists a, b. repeat split.
  unfold valueToColor.
  change (Z.of_nat (length colors) - 1)%Z with 17%Z.
  change (Z.of_nat (length colors) - 2)%Z with 16%Z.
  cbv zeta. fold idx.
  replace (idx <? 0)%Z with false by (symmetry; apply Z.ltb_ge; lia).
  now rewrite Ea, Eb.
Qed.

(** X25: [valueToColor] throws exactly on the negative values, and returns a
    colour on all others. *)
Theorem valueToColor_throws_iff (t : R) :
  (valueToColor t = Throws TypeError <-> t < 0) /\
  ((exists c, valueToColor t = Returns c) <-> 0 <= t).
Proof.
  assert (Hneg : t < 0 -> valueToColor t = Throws TypeError).
  { intros Ht. unfold valueToColor.
    change (Z.of_nat (length colors) - 1)%Z with 17%Z.
    change (Z.of_nat (length colors) - 2)%Z with 16%Z.
    cbv zeta.
    assert (Hfl : (Math_floor (t * 17) < 0)%Z).
    { apply lt_IZR. destruct (Math_floor_spec (t * 17)) as [H _]. lra. }
    replace (Z.min 16 (Math_floor (t * 17)) <? 0)%Z with true
      by (symmetry; apply Z.ltb_lt; lia).
    reflexivity. }
  assert (Hpos : 0 <= t -> exists c, valueToColor t = Returns c).
  { intros Ht. destruct (valueToColor_index t Ht) as (_ & a & b & _ & _ & ->).
    eexists. reflexivity. }
  split; split.
  - intros Hthrow. destruct (Rlt_le_dec t 0) as [Hlt | Hge]; [assumption|].
    destruct (Hpos Hge) as (c & Hc). rewrite Hc in Hthrow. discriminate.
  - exact Hneg.
  - intros (c & Hc). destruct (Rlt_le_dec t 0) as [Hlt | Hge]; [|assumption].
    rewrite (Hneg Hlt) in Hc. discriminate.
  - exact Hpos.
Qed.

(** X33: on the unit interval the colour returned has three channels between 0
    and 255. *)
Theorem valueToColor_bytes (t : R) :
  0 <= t <= 1 ->
  exists c, valueToColor t = Returns c /\ byte_color c.
Proof.
  intros [Ht0 Ht1].
  destruct (valueToColor_index t Ht0) as (Hidx & a & b & Ea & Eb & ->).
  cbv zeta in *.
  set (idx := Z.min 16 (Math_floor (t * 17))) in *.
  eexists. split; [reflexivity|].
  assert (Hfrac : 0 <= t * 17 - IZR idx <= 1).
  { destruct (Math_floor_spec (t * 17)) as [Hf1 Hf2].
    destruct (Z_le_gt_dec (Math_floor (t * 17)) 16) as [Hle | Hgt].
    - replace idx with (Math_floor (t * 17)) by (unfold idx; lia). lra.
    - replace idx with 16%Z by (unfold idx; lia).
      assert (H : (Math_floor (t * 17) < 18)%Z) by (apply lt_IZR; lra).
      assert (H17 : Math_floor (t * 17) = 17%Z) by lia.
      rewrite H17 in Hf1. lra. }
  pose proof colors_bytes as Hall. rewrite Forall_forall in Hall.
  destruct (Hall a (nth_error_In _ _ Ea)) as (Har & Hag & Hab).
  destruct (Hall b (nth_error_In _ _ Eb)) as (Hbr & Hbg & Hbb).
  unfold byte_color. simpl.
  repeat split; apply blend_bounds; assumption || lia.
Qed.

Lemma valueToColor_bytes_witness :
  exists c, valueToColor 0.5 = Returns c /\ byte_color c.
Proof. apply (valueToColor_bytes 0.5). lra. Defined.

(** At the eighteen nodes [k / 17] of the colour map the colour is entry [k]
    of the table: the map starts at the first entry and ends at the last. *)
Theorem valueToColor_table (k : nat) :
  (k <= 17)%nat ->
  valueToColor (INR k / 17) = Returns (nth k colors (mkColor 0 0 0)).
Proof.
  intros Hk.
  assert (Ht : 0 <= INR k / 17).
  { pose proof (pos_INR k). lra. }
  destruct (valueToColor_index _ Ht) as (Hidx & a & b & Ea & Eb & ->).
  cbv zeta in *.
  replace (INR k / 17 * 17) with (IZR (Z.of_nat k)) in *
    by (rewrite <- INR_IZR_INZ; field).
  rewrite Math_floor_IZR in *.
  destruct (Nat.eq_dec k 17) as [-> | Hne].
  - change (Z.min 16 (Z.of_nat 17)) with 16%Z in *.
    simpl in Ea, Eb. injection Ea as <-. injection Eb as <-.
    simpl c_r. simpl c_g. simpl c_b. unfold blend.
    replace (IZR (Z.of_nat 17) - 16) with 1 by (simpl; lra).
    f_equal. cbn [nth colors].
    f_equal;
      match goal with
      | |- Math_round (IZR ?a + (IZR ?b - IZR ?a) * 1) = _ =>
          replace (IZR a + (IZR b - IZR a) * 1) with (IZR b) by ring;
          apply Math_round_IZR
      end.
  - replace (Z.min 16 (Z.of_nat k)) with (Z.of_nat k) in * by lia.
    rewrite Nat2Z.id in Ea.
    rewrite (nth_error_nth _ _ _ Ea).
    unfold blend. rewrite Rminus_diag. rewrite !Rmult_0_r, !Rplus_0_r.
    rewrite !Math_round_IZR. now destruct a.
Qed.

Lemma valueToColor_table_witness :
  valueToColor (INR 5 / 17) = Returns (nth 5 colors (mkColor 0 0 0)).
Proof. apply (valueToColor_table 5). lia. Defined.

(** * The game *)

Lemma existsb_atLocation_false (x y : R) (l : list Sample) :
  existsb (atLocation x y) l = false <->
  forall s, In s l -> location s <> (x, y).
Proof.
  split.
  - intros He s Hs Hloc. apply atLocation_location in Hloc.
    assert (Ht : existsb (atLocation x y) l = true)
      by (apply existsb_exists; now exists s).
    congruence.
  - intros Hfree. destruct (existsb (atLocation x y) l) eqn:E; [|reflexivity].
    apply existsb_exists in E. destruct E as (s & Hs & Hat).
    apply atLocation_location in Hat. now destruct (Hfree s Hs).
Qed.

(** A click is ignored, or it lands on a free cell of the map in a running
    game and appends the sample of that cell. *)
Lemma handleSurfaceClick_cases (g : App.GameState) (x y : R) :
  App.handleSurfaceClick g x y = g \/
  (App.gameOver g = false /\ (0 < App.clicksRemaining g)%Z /\
   (0 <= Math_round (x * 64) < 64)%Z /\
   (0 <= Math_round (y * 64) < 64)%Z /\
   (forall s, In s (App.samples g) ->
      location s <> (IZR (Math_round (x * 64)), IZR (Math_round (y * 64)))) /\
   App.handleSurfaceClick g x y
   = App.mkGameState
       (App.trueSurface g)
       (App.samples g
        ++ [mkSample (IZR (Math_round (x * 64))) (IZR (Math_round (y * 64)))
                     (entry (App.trueSurface g)
                            (Z.to_nat (Math_round (y * 64)))
                            (Z.to_nat (Math_round (x * 64))))])
       (App.clicksRemaining g - 1) (App.params g) (App.predictedSurface g)
       ((App.clicksRemaining g - 1 =? 0)%Z && negb (App.won g))
       (App.won g) (App.rmse g) (App.targetRmse g)).
Proof.
  unfold App.handleSurfaceClick. change (IZR App.SURFACE_SIZE) with 64.
  unfold App.SURFACE_SIZE. cbv zeta.
  destruct (App.gameOver g) eqn:Ego; [now left|].
  destruct (App.clicksRemaining g <=? 0)%Z eqn:Ec; [now left|].
  cbn [orb].
  destruct ((Math_round (x * 64) <? 0)%Z || (Math_round (x * 64) >=? 64)%Z
            || (Math_round (y * 64) <? 0)%Z
            || (Math_round (y * 64) >=? 64)%Z) eqn:Eb; [now left|].
  destruct (existsb _ (App.samples g)) eqn:Ee; [now left|].
  right.
  apply orb_false_iff in Eb. destruct Eb as [Eb Eb4].
  apply orb_false_iff in Eb. destruct Eb as [Eb Eb3].
  apply orb_false_iff in Eb. destruct Eb as [Eb1 Eb2].
  rewrite Z.geb_leb in Eb2, Eb4.
  apply Z.ltb_ge in Eb1, Eb3. apply Z.leb_gt in Eb2, Eb4, Ec.
  repeat split; try lia.
  now apply existsb_atLocation_false.
Qed.

Lemma handleSurfaceClick_accepted (g : App.GameState) (x y : R) :
  App.gameOver g = false -> (0 < App.clicksRemaining g)%Z ->
  (0 <= Math_round (x * 64) < 64)%Z ->
  (0 <= Math_round (y * 64) < 64)%Z ->
  (forall s, In s (App.samples g) ->
     location s <> (IZR (Math_round (x * 64)), IZR (Math_round (y * 64)))) ->
  App.handleSurfaceClick g x y
  = App.mkGameState
      (App.trueSurface g)
      (App.samples g
       ++ [mkSample (IZR (Math_round (x * 64))) (IZR (Math_round (y * 64)))
                    (entry (App.trueSurface g)
                           (Z.to_nat (Math_round (y * 64)))
                           (Z.to_nat (Math_round (x * 64))))])
      (App.clicksRemaining g - 1) (App.params g) (App.predictedSurface g)
      ((App.clicksRemaining g - 1 =? 0)%Z && negb (App.won g))
      (App.won g) (App.rmse g) (App.targetRmse g).
Proof.
  intros Ego Hc Hx Hy Hfree.
  unfold App.handleSurfaceClick. change (IZR App.SURFACE_SIZE) with 64.
  unfold App.SURFACE_SIZE. cbv zeta. rewrite Ego.
  replace (App.clicksRemaining g <=? 0)%Z with false
    by (symmetry; apply Z.leb_gt; lia).
  cbn [orb].
  replace (Math_round (x * 64) <? 0)%Z with false
    by (symmetry; apply Z.ltb_ge; lia).
  replace (Math_round (y * 64) <? 0)%Z with false
    by (symmetry; apply Z.ltb_ge; lia).
  rewrite !Z.geb_leb.
  replace (64 <=? Math_round (x * 64))%Z with false
    by (symmetry; apply Z.leb_gt; lia).
  replace (64 <=? Math_round (y * 64))%Z with false
    by (symmetry; apply Z.leb_gt; lia).
  cbn [orb].
  replace (existsb _ (App.samples g)) with false; [reflexivity|].
  symmetry. now apply existsb_atLocation_false.
Qed.

(** The effect on a game with a sample: it returns, with the prediction on
    every second cell and the error of that prediction. *)
Lemma predictionEffect_runs (g : App.GameState) :
  App.samples g <> [] ->
  exists newPredicted,
    kригingPrediction 64 64 (App.samples g) (App.params g) 2
    = Returns newPredicted /\
    App.predictionEffect g
    = Returns
        (App.mkGameState
           (App.trueSurface g) (App.samples g) (App.clicksRemaining g)
           (App.params g) (Some newPredicted)
           (App.gameOver g
            || App.withinThreshold
                 (calculateRMSE (App.trueSurface g) newPredicted)
                 (App.targetRmse g))
           (App.withinThreshold
              (calculateRMSE (App.trueSurface g) newPredicted)
              (App.targetRmse g)
            && negb (App.gameOver g))
           (Some (calculateRMSE (App.trueSurface g) newPredicted))
           (App.targetRmse g)).
Proof.
  intros Hne.
  destruct (krigingPrediction_cells 64 64 2 (App.samples g) (App.params g))
    as (surface & Hret & _); [lra | lra |].
  exists surface. split; [assumption|].
  unfold App.predictionEffect. change (IZR App.SURFACE_SIZE) with 64.
  destruct (App.samples g) as [|s l] eqn:E; [contradiction|].
  now rewrite Hret.
Qed.

Lemma startNewGame_consistent (surface : list (list R)) :
  App.consistent (App.startNewGame surface).
Proof.
  unfold App.consistent, App.startNewGame, distinct_locations. simpl.
  split; [constructor|]. split; [reflexivity|].
  split; [unfold App.MAX_CLICKS; lia|].
  split; [intros s []|discriminate].
Qed.

Lemma handleSurfaceClick_consistent (g : App.GameState) (x y : R) :
  App.consistent g -> App.consistent (App.handleSurfaceClick g x y).
Proof.
  intros Hc.
  destruct (handleSurfaceClick_cases g x y)
    as [-> | (Ego & Hclicks & Hx & Hy & Hfree & ->)]; [assumption|].
  destruct Hc as (Hnd & Hcount & Hpos & Hcells & Hwon).
  unfold App.consistent. simpl.
  assert (Hnot : App.won g = false).
  { destruct (App.won g); [|reflexivity].
    destruct (Hwon eq_refl) as [Hgo _]. congruence. }
  repeat split.
  - unfold distinct_locations in *. rewrite map_app. simpl.
    apply NoDup_app; [assumption | repeat constructor; intros [] |].
    intros loc Hloc [<- | []]. apply in_map_iff in Hloc.
    destruct Hloc as (s & Hs & Hin). now apply (Hfree s Hin).
  - rewrite length_app. simpl.
    unfold App.MAX_CLICKS in *. lia.
  - lia.
  - intros s Hs. apply in_app_or in Hs. destruct Hs as [Hs | [<- | []]].
    + now apply Hcells.
    + exists (Math_round (x * 64)), (Math_round (y * 64)).
      unfold App.SURFACE_SIZE. repeat split; lia.
  - rewrite Hnot in H. discriminate.
  - rewrite Hnot in H. discriminate.
Qed.

Lemma updateParam_consistent (g : App.GameState) (param : App.ParamKey)
  (value : R) :
  App.consistent g -> App.consistent (App.updateParam g param value).
Proof. intros Hc. exact Hc. Qed.

Lemma predictionEffect_consistent (g next : App.GameState) :
  App.consistent g -> App.predictionEffect g = Returns next ->
  App.consistent next.
Proof.
  intros Hc Hrun.
  destruct (App.samples g) as [|s l] eqn:E.
  - unfold App.predictionEffect in Hrun. rewrite E in Hrun.
    injection Hrun as <-. assumption.
  - destruct (predictionEffect_runs g) as (p & _ & Heq);
      [rewrite E; discriminate|].
    rewrite Heq in Hrun. injection Hrun as <-.
    destruct Hc as (Hnd & Hcount & Hpos & Hcells & Hwon).
    unfold App.consistent. simpl.
    repeat split; try assumption.
    + apply andb_true_iff in H. destruct H as [-> _]. apply orb_true_r.
    + rewrite E. discriminate.
Qed.

Lemma reachable_is_consistent (g : App.GameState) :
  App.reachable g -> App.consistent g.
Proof.
  induction 1.
  - apply startNewGame_consistent.
  - now apply handleSurfaceClick_consistent.
  - now apply updateParam_consistent.
  - now apply (predictionEffect_consistent gameState).
Qed.

(** X26: every state a game goes through holds at most ten samples, at pairwise
    different cells of the map, each with the value of the true surface at
    its cell; the samples and the clicks left add up to ten. *)
Theorem reachable_consistent (g : App.GameState) :
  App.reachable g ->
  App.consistent g /\
  distinct_locations (App.samples g) /\
  (length (App.samples g) <= 10)%nat.
Proof.
  intros Hr. pose proof (reachable_is_consistent g Hr) as Hc.
  split; [assumption|]. destruct Hc as (Hnd & Hcount & Hpos & _).
  split; [assumption|]. unfold App.MAX_CLICKS in Hcount. lia.
Qed.

Lemma reachable_consistent_witness :
  App.consistent (App.handleSurfaceClick (App.startNewGame [[1]]) 0 0) /\
  distinct_locations
    (App.samples (App.handleSurfaceClick (App.startNewGame [[1]]) 0 0)) /\
  (length (App.samples
             (App.handleSurfaceClick (App.startNewGame [[1%R]]) 0%R 0%R))
   <= 10)%nat.
Proof.
  apply (reachable_consistent
           (App.handleSurfaceClick (App.startNewGame [[1]]) 0 0)).
  apply App.reach_click. apply App.reach_start.
Defined.

(** X27: the tenth sample ends the game before its prediction is judged: after a
    click on a free cell with one click left, the effect leaves the game
    over and not won, whatever the error of the new prediction. *)
Theorem last_sample_cannot_win (g : App.GameState) (x y : R) :
  App.gameOver g = false -> App.won g = false ->
  App.clicksRemaining g = 1%Z ->
  (0 <= Math_round (x * 64) < 64)%Z ->
  (0 <= Math_round (y * 64) < 64)%Z ->
  (forall s, In s (App.samples g) ->
     location s <> (IZR (Math_round (x * 64)), IZR (Math_round (y * 64)))) ->
  exists next,
    App.predictionEffect (App.handleSurfaceClick g x y) = Returns next /\
    length (App.samples next) = S (length (App.samples g)) /\
    App.gameOver next = true /\ App.won next = false.
Proof.
  intros Hgo Hwon Hclicks Hx Hy Hfree.
  rewrite (handleSurfaceClick_accepted g x y Hgo) by (assumption || lia).
  rewrite Hclicks, Hwon. cbn [Z.sub Z.eqb Z.add Z.opp Z.pos_sub andb negb].
  match goal with
  | |- exists next, App.predictionEffect ?clicked = _ /\ _ =>
      destruct (predictionEffect_runs clicked) as (p & _ & ->)
  end.
  - simpl. intros H. now apply app_eq_nil in H as [_ H].
  - eexists. split; [reflexivity|]. simpl.
    split; [rewrite length_app; simpl; lia|].
    split; [reflexivity | apply andb_false_r].
Qed.

Lemma last_sample_cannot_win_witness :
  exists next,
    App.predictionEffect
      (App.handleSurfaceClick
         (App.mkGameState [[7]] [] 1 (mkParams 0.1 50 15) None false false
                          None (Fin 1)) 0 0)
    = Returns next /\
    length (App.samples next) = 1%nat /\
    App.gameOver next = true /\ App.won next = false.
Proof.
  assert (Hround : Math_round (0 * 64) = 0%Z).
  { replace (0 * 64) with (IZR 0) by ring. apply Math_round_IZR. }
  apply (last_sample_cannot_win
           (App.mkGameState [[7]] [] 1 (mkParams 0.1 50 15) None false false
                            None (Fin 1)) 0 0).
  - reflexivity.
  - reflexivity.
  - reflexivity.
  - rewrite Hround. lia.
  - rewrite Hround. lia.
  - intros s [].
Defined.

(** X28: a won game does not stay won: after any slider move the effect runs
    again and, the game being over, resets [won]; the result panel then
    shows the game as lost. *)
Theorem won_game_turns_lost (g : App.GameState) (param : App.ParamKey)
  (value : R) :
  App.consistent g -> App.won g = true ->
  exists next,
    App.predictionEffect (App.updateParam g param value) = Returns next /\
    App.gameOver next = true /\ App.won next = false.
Proof.
  intros (_ & _ & _ & _ & Hinv) Hwon.
  destruct (Hinv Hwon) as [Hgo Hne].
  destruct (predictionEffect_runs (App.updateParam g param value))
    as (p & _ & ->); [exact Hne|].
  eexists. split; [reflexivity|]. simpl. rewrite Hgo.
  split; [reflexivity | apply andb_false_r].
Qed.

Lemma won_game_turns_lost_witness :
  exists next,
    App.predictionEffect
      (App.updateParam
         (App.mkGameState [[7]] [mkSample 0 0 7] 9 (mkParams 0.1 50 15) None
                          true true None (Fin 1))
         App.Sill 60)
    = Returns next /\
    App.gameOver next = true /\ App.won next = false.
Proof.
  apply (won_game_turns_lost
           (App.mkGameState [[7]] [mkSample 0 0 7] 9 (mkParams 0.1 50 15)
                            None true true None (Fin 1))
           App.Sill 60).
  - unfold App.consistent, distinct_locations. simpl.
    split; [repeat constructor; intros []|].
    split; [reflexivity|]. split; [lia|]. split.
    + intros s [<- | []]. exists 0%Z, 0%Z.
      unfold App.SURFACE_SIZE. repeat split; lia.
    + intros _. split; [reflexivity | discriminate].
  - reflexivity.
Defined.

(** The target of a game is set once, from the standard deviation of its
    true surface. *)
Lemma reachable_target (g : App.GameState) :
  App.reachable g ->
  App.targetRmse g
  = number_lift Rmult (calculateStdDev (App.trueSurface g)) (Fin 0.15).
Proof.
  induction 1 as [surface | g x y _ IH | g param value _ IH
                  | g next _ IH Hrun].
  - reflexivity.
  - destruct (handleSurfaceClick_cases g x y)
      as [-> | (_ & _ & _ & _ & _ & ->)]; assumption.
  - exact IH.
  - destruct (App.samples g) as [|s l] eqn:E.
    + unfold App.predictionEffect in Hrun. rewrite E in Hrun.
      injection Hrun as <-. assumption.
    + destruct (predictionEffect_runs g) as (p & _ & Heq);
        [rewrite E; discriminate|].
      rewrite Heq in Hrun. injection Hrun as <-. exact IH.
Qed.

(** X29: the threshold is applied twice.  The target of a game is 15 % of
    the standard deviation [s] of its true surface, and the effect declares
    the game won when the error is at most 15 % of that target: a running
    game is won whenever the error is at most 2 % of [s], and never with an
    error above 2.5 % of [s] (the bound is 0.15 * 0.15 = 2.25 %, up to the
    rounding of the product, the quotient and the constant). *)
Theorem win_needs_small_error (g : App.GameState) (s : R) :
  App.reachable g ->
  calculateStdDev (App.trueSurface g) = Fin s -> 0 < s ->
  App.samples g <> [] -> App.gameOver g = false ->
  exists next,
    App.predictionEffect g = Returns next /\
    (forall r, App.rmse next = Some (Fin r) -> r <= 0.02 * s ->
               App.won next = true) /\
    (App.won next = true ->
     exists r, App.rmse next = Some (Fin r) /\ r <= 0.025 * s).
Proof.
  intros Hreach Hstd Hs Hne Hgo.
  pose proof (reachable_target g Hreach) as Htarget.
  rewrite Hstd in Htarget. simpl in Htarget.
  destruct (predictionEffect_runs g Hne) as (p & _ & ->).
  eexists. split; [reflexivity|]. cbn [App.won App.rmse].
  rewrite Htarget, Hgo, andb_true_r.
  destruct (calculateRMSE (App.trueSurface g) p) as [r|];
    cbn [App.withinThreshold].
  - replace (Req_b (s * 0.15) 0) with false
      by (symmetry; apply Req_b_false; lra).
    unfold App.RMSE_THRESHOLD.
    assert (Hdiv : r / (s * 0.15) <= 0.15 <-> r <= 0.0225 * s).
    { split; intros H.
      - apply (Rmult_le_compat_r (s * 0.15)) in H; [|lra].
        unfold Rdiv in H. rewrite Rmult_assoc, Rinv_l, Rmult_1_r in H; lra.
      - apply (Rmult_le_reg_r (s * 0.15)); [lra|].
        unfold Rdiv. rewrite Rmult_assoc, Rinv_l, Rmult_1_r; lra. }
    split.
    + intros r' Heq Hr. injection Heq as <-.
      apply Rle_b_true, Hdiv. lra.
    + intros H. apply Rle_b_true, Hdiv in H.
      exists r. split; [reflexivity | lra].
  - split; [intros r Heq; discriminate | discriminate].
Qed.

Lemma calculateStdDev_two_cells : calculateStdDev [[0; 2]] = Fin 1.
Proof.
  unfold calculateStdDev, surfaceSums. cbn [fold_left]. f_equal.
  replace (Rmax _ 0) with 1; [apply sqrt_1|].
  simpl INR. rewrite Rmax_left; lra.
Qed.

Lemma win_needs_small_error_witness :
  exists next,
    App.predictionEffect
      (App.handleSurfaceClick (App.startNewGame [[0; 2]]) 0 0)
    = Returns next /\
    (forall r, App.rmse next = Some (Fin r) -> r <= 0.02 * 1 ->
               App.won next = true) /\
    (App.won next = true ->
     exists r, App.rmse next = Some (Fin r) /\ r <= 0.025 * 1).
Proof.
  assert (Hround : Math_round (0 * 64) = 0%Z).
  { replace (0 * 64) with (IZR 0) by ring. apply Math_round_IZR. }
  assert (Hclick :
            App.handleSurfaceClick (App.startNewGame [[0; 2]]) 0 0
            = App.mkGameState [[0; 2]] [mkSample 0 0 0] 9
                (mkParams 0.1 50 15) None false false None
                (App.targetRmse (App.startNewGame [[0; 2]]))).
  { rewrite handleSurfaceClick_accepted.
    - rewrite Hround. reflexivity.
    - reflexivity.
    - reflexivity.
    - rewrite Hround. lia.
    - rewrite Hround. lia.
    - intros s []. }
  apply (win_needs_small_error
           (App.handleSurfaceClick (App.startNewGame [[0; 2]]) 0 0) 1).
  - apply App.reach_click. apply App.reach_start.
  - rewrite Hclick. apply calculateStdDev_two_cells.
  - lra.
  - rewrite Hclick. discriminate.
  - rewrite Hclick. reflexivity.
Defined.

Lemma half_grid (r : nat) : INR r * 2 < 64 <-> (r < 32)%nat.
Proof.
  replace 64 with (INR 32 * 2) by (rewrite INR_IZR_INZ; simpl; lra).
  split.
  - intros H. apply INR_lt. lra.
  - intros H. apply lt_INR in H. lra.
Qed.

Lemma length_from_bound (n m : nat) :
  (forall r, (r < n)%nat <-> (r < m)%nat) -> n = m.
Proof.
  intros H. destruct (Nat.lt_trichotomy n m) as [Hlt | [Heq | Hgt]].
  - apply H in Hlt. lia.
  - assumption.
  - apply H in Hgt. lia.
Qed.

Lemma hd_nth {A : Type} (l : list (list A)) : hd [] l = nth 0 l [].
Proof. now destruct l. Qed.

(** X30: the error that the effect stores compares cell [(y, x)] of the true
    surface with the prediction at [(2 x, 2 y)], over the first 32 rows and
    columns: the prediction is made with step 2 and read by index. *)
Theorem predictionEffect_error (g : App.GameState) :
  square 64 (App.trueSurface g) -> App.samples g <> [] ->
  exists next,
    App.predictionEffect g = Returns next /\
    App.rmse next
    = Some
        (Fin
           (sqrt
              (Rsum
                 (map (fun yx =>
                         (entry (App.trueSurface g) (fst yx) (snd yx)
                          - krigePoint (INR (snd yx) * 2) (INR (fst yx) * 2)
                                       (App.samples g) (App.params g))
                         * (entry (App.trueSurface g) (fst yx) (snd yx)
                            - krigePoint (INR (snd yx) * 2) (INR (fst yx) * 2)
                                         (App.samples g) (App.params g)))
                      (window 32 32))
               / 1024))).
Proof.
  intros [Hlen Hrows] Hne.
  destruct (predictionEffect_runs g Hne) as (p & Hp & ->).
  eexists. split; [reflexivity|]. cbn [App.rmse]. f_equal.
  destruct (krigingPrediction_shape 64 64 2 (App.samples g) (App.params g))
    as (p' & Hp' & Hh & Hw & Hcell); [lra | lra |].
  rewrite Hp in Hp'. injection Hp' as <-.
  assert (Hp_len : length p = 32%nat).
  { apply length_from_bound. intros r. rewrite Hh. apply half_grid. }
  assert (Hp_row : forall r, (r < 32)%nat -> length (nth r p []) = 32%nat).
  { intros r Hr. apply length_from_bound. intros c.
    rewrite Hw by lia. apply half_grid. }
  assert (Hheight : overlapHeight (App.trueSurface g) p = 32%nat).
  { unfold overlapHeight. rewrite Hlen, Hp_len. reflexivity. }
  assert (Hwidth : overlapWidth (App.trueSurface g) p = 32%nat).
  { unfold overlapWidth. rewrite !hd_nth, Hrows, Hp_row by lia.
    reflexivity. }
  pose proof (calculateRMSE_mean (App.trueSurface g) p) as Hmean.
  cbv zeta in Hmean. rewrite Hheight, Hwidth in Hmean.
  rewrite Hmean.
  - change (0 <? 32 * 32)%nat with true. cbv iota.
    replace (INR (32 * 32)) with 1024
      by (rewrite INR_IZR_INZ; simpl; lra).
    f_equal. f_equal. f_equal.
    apply Rsum_map_ext. intros [y x] Hin. apply window_In in Hin.
    unfold squaredDifference. simpl fst. simpl snd.
    replace (entry p y x)
      with (krigePoint (INR x * 2) (INR y * 2) (App.samples g)
                       (App.params g)); [reflexivity|].
    symmetry. apply Hcell; apply half_grid; lia.
  - intros y Hy. rewrite Hrows by lia. lia.
  - intros y Hy. rewrite Hp_row by lia. lia.
Qed.

Lemma predictionEffect_error_witness :
  exists next,
    App.predictionEffect
      (App.mkGameState (repeat (repeat 0 64) 64) [mkSample 0 0 0] 9
                       (mkParams 0.1 50 15) None false false None (Fin 1))
    = Returns next /\
    App.rmse next
    = Some
        (Fin
           (sqrt
              (Rsum
                 (map (fun yx =>
                         (entry (repeat (repeat 0 64) 64) (fst yx) (snd yx)
                          - krigePoint (INR (snd yx) * 2) (INR (fst yx) * 2)
                                       [mkSample 0 0 0] (mkParams 0.1 50 15))
                         * (entry (repeat (repeat 0 64) 64) (fst yx) (snd yx)
                            - krigePoint (INR (snd yx) * 2) (INR (fst yx) * 2)
                                         [mkSample 0 0 0]
                                         (mkParams 0.1 50 15)))
                      (window 32 32))
               / 1024))).
Proof.
  apply (predictionEffect_error
           (App.mkGameState (repeat (repeat 0 64) 64) [mkSample 0 0 0] 9
                            (mkParams 0.1 50 15) None false false None
                            (Fin 1))).
  - split.
    + apply repeat_length.
    + intros k Hk. cbn [App.trueSurface].
      rewrite nth_repeat_lt by assumption. apply repeat_length.
  - discriminate.
Defined.

(** * Double precision *)

(** ** Order of doubles, by sign *)







(** ** The spherical model in doubles *)






(** ** Kriging in doubles *)

Lemma Double_krigePoint_found (x y : float) (samples : list Double.Sample)
  (params : Double.VariogramParams) (s : Double.Sample) :
  find (Double.atLocation x y) samples = Some s ->
  Double.krigePoint x y samples params = Double.s_z s.
Proof.
  intros H. unfold Double.krigePoint. destruct samples as [|s0 rest].
  - discriminate H.
  - now rewrite H.
Qed.

Lemma Double_krigePoint_at_sample (x y : float)
  (samples : list Double.Sample) (params : Double.VariogramParams)
  (s : Double.Sample) :
  In s samples -> Double.atLocation x y s = true ->
  (forall t, In t samples -> Double.atLocation x y t = true ->
             Double.s_z t = Double.s_z s) ->
  Double.krigePoint x y samples params = Double.s_z s.
Proof.
  intros Hin Hat Hsame.
  destruct (find_first _ _ _ Hin Hat) as (l1 & a0 & l2 & Heq & Ha0 & _ & Hf).
  rewrite (Double_krigePoint_found _ _ _ _ _ Hf).
  apply Hsame; [|assumption].
  rewrite Heq. apply in_or_app. right. now left.
Qed.

(** C5, amended: in double precision [krigePoint] gives the same prediction
    on a sample list and on any permutation of it when the query point is
    the location of a sample and the samples at that location carry one
    value: the prediction is then that value.  At other query points the
    prediction is computed in the order of the list and rounding makes it
    depend on that order. *)
Theorem krigePoint_permutation_at_sample (x y : float)
  (samples samples' : list Double.Sample) (params : Double.VariogramParams)
  (s : Double.Sample) :
  Permutation samples samples' ->
  In s samples -> Double.atLocation x y s = true ->
  (forall t, In t samples -> Double.atLocation x y t = true ->
             Double.s_z t = Double.s_z s) ->
  Double.krigePoint x y samples params
  = Double.krigePoint x y samples' params /\
  Double.krigePoint x y samples params = Double.s_z s.
Proof.
  intros Hperm Hin Hat Hsame.
  rewrite (Double_krigePoint_at_sample x y samples params s) by assumption.
  split; [|reflexivity]. symmetry.
  apply Double_krigePoint_at_sample.
  - now apply (Permutation_in _ Hperm).
  - assumption.
  - intros t Ht. apply Hsame.
    now apply (Permutation_in _ (Permutation_sym Hperm)).
Qed.

Lemma krigePoint_permutation_at_sample_witness :
  Double.krigePoint 3 0
    [Double.mkSample 0 0 5; Double.mkSample 3 0 8; Double.mkSample 6 0 5]
    (Double.mkParams 0.1 50 15)
  = Double.krigePoint 3 0
      [Double.mkSample 6 0 5; Double.mkSample 3 0 8; Double.mkSample 0 0 5]
      (Double.mkParams 0.1 50 15) /\
  Double.krigePoint 3 0
    [Double.mkSample 0 0 5; Double.mkSample 3 0 8; Double.mkSample 6 0 5]
    (Double.mkParams 0.1 50 15)
  = Double.s_z (Double.mkSample 3 0 8).
Proof.
  apply (krigePoint_permutation_at_sample 3 0
           [Double.mkSample 0 0 5; Double.mkSample 3 0 8;
            Double.mkSample 6 0 5]
           [Double.mkSample 6 0 5; Double.mkSample 3 0 8;
            Double.mkSample 0 0 5]
           (Double.mkParams 0.1 50 15) (Double.mkSample 3 0 8)).
  - apply (Permutation_rev
             [Double.mkSample 0 0 5; Double.mkSample 3 0 8;
              Double.mkSample 6 0 5]).
  - right. now left.
  - vm_compute. reflexivity.
  - intros t [<- | [<- | [<- | []]]] Hat; try reflexivity;
      vm_compute in Hat; discriminate Hat.
Defined.

(** C5 as stated fails in the code, also with distinct locations and valid
    parameters.  Three samples more than a range apart from each other and
    from the query: every semivariance is the sill, no cube is taken, and
    the prediction is 0.8999999999999999 in one order and 0.9 in another. *)
Lemma krigePoint_order_rounding :
  Permutation
    [Double.mkSample 6 2 2.3; Double.mkSample 8 5 0.2; Double.mkSample 7 8 0.2]
    [Double.mkSample 7 8 0.2; Double.mkSample 8 5 0.2;
     Double.mkSample 6 2 2.3] /\
  Double.distinct_locations
    [Double.mkSample 6 2 2.3; Double.mkSample 8 5 0.2; Double.mkSample 7 8 0.2]
  = true /\
  Double.valid_params (Double.mkParams 0 1 1) /\
  Double.krigePoint 2 8
    [Double.mkSample 6 2 2.3; Double.mkSample 8 5 0.2; Double.mkSample 7 8 0.2]
    (Double.mkParams 0 1 1)
  = 0.8999999999999999%float /\
  Double.krigePoint 2 8
    [Double.mkSample 7 8 0.2; Double.mkSample 8 5 0.2; Double.mkSample 6 2 2.3]
    (Double.mkParams 0 1 1)
  = 0.9%float /\
  (0.8999999999999999 =? 0.9)%float = false.
Proof.
  split.
  { apply (Permutation_rev
             [Double.mkSample 6 2 2.3; Double.mkSample 8 5 0.2;
              Double.mkSample 7 8 0.2]). }
  repeat split; vm_compute; reflexivity.
Qed.

(** The same with the samples of the worked scenario and the parameters of
    a new game: two orders, two predictions. *)
Lemma krigePoint_order_rounding_scenario :
  Double.krigePoint 1 0
    [Double.mkSample 0 0 5; Double.mkSample 3 0 8; Double.mkSample 6 0 5]
    (Double.mkParams 0.1 50 15)
  = 6.011432433516046%float /\
  Double.krigePoint 1 0
    [Double.mkSample 6 0 5; Double.mkSample 3 0 8; Double.mkSample 0 0 5]
    (Double.mkParams 0.1 50 15)
  = 6.011432433516047%float.
Proof. split; vm_compute; reflexivity. Qed.
